(** * The 3-dimensional case picking solver (solver.py)

    A shallow embedding of [_bra] and of the class [Solver]
    ([heuristic], [getCost], [__call__], [sequential]) together with the
    properties of the specification that are about them, and with further
    properties of the code: what the calls use and leave alone, when they
    return and what they raise, and what a solution is made of.

    Modelling conventions.
    - Python objects that are mutated and compared by identity
      (Pallet, OrderLine) live in an explicit store: a Pallet is named by
      its address in the list of allocated pallets, an OrderLine carries
      its identity in [ol_id] and its mutable attribute [pallet] is kept
      in the store.
    - Exceptions are results [Raise e]; a call that returns is [Ok v].
    - Weights, volumes, savings, layer indices and distances are exact
      integers.  The floating point numbers the code manipulates (the
      random draws, beta, the clock) are an abstract type with the few
      operations the code applies to them.  [log_index_F] instantiates
      the index computation of [_bra] with IEEE 754 doubles, the
      logarithm of the C library being a parameter; [log_index_R] and
      its companions instantiate it with the real numbers, an
      idealisation that is only right where rounding does not matter.
    - The Packing Oracle [dubePacker] and the type of cases belong to the
      module [packing], which is not part of the sources: they are
      parameters of the development. *)

From Stdlib Require Import ZArith List Lia Reals Lra Permutation Sorted SpecFloat.
From stdpp Require Import base list gmap.

Local Open Scope Z_scope.
Set Default Proof Using "Type".

(** ** Exceptions *)

Inductive exn : Type :=
  | AssertionError      (* a failed [assert] *)
  | ValueError          (* [list.remove] of an absent element, [log] of a non positive number *)
  | ZeroDivisionError   (* [% 0], [log(x, 1.0)] *)
  | IndexError          (* [cases[0]], [sort_orderlines[0]] on an empty sequence, [pop] out of range *)
  | AttributeError      (* [.pallet] of an object that was never given one *)
  | OverflowError.      (* [int] of an infinite float *)

Inductive result (A : Type) : Type :=
  | Ok (a : A)
  | Raise (e : exn).
Arguments Ok {A} a.
Arguments Raise {A} e.

Global Instance result_ret : MRet result := @Ok.
Global Instance result_bind : MBind result := λ A B k m,
  match m with
  | Ok a => k a
  | Raise e => Raise e
  end.

Definition is_Ok {A : Type} (m : result A) : Prop := ∃ a, m = Ok a.

(** Reduction of the binds of [result] and nothing else. *)
Ltac rbind := cbn [mbind result_bind mret result_ret].

(** ** Sequences *)

Section Sequences.
Context {A : Type}.

(** [arr.pop(idx)] for a non negative [idx]. *)
Definition pop (arr : list A) (idx : nat) : result (A * list A) :=
  match arr !! idx with
  | Some x => Ok (x, delete idx arr)
  | None => Raise IndexError
  end.

(** [sorted(l, key=...)] is stable: [x] is inserted in front of the
    first element that must not precede it.  With [before y x] the
    test "key y < key x" the order is ascending, with "key y > key x"
    it is the order of [reverse=True], which keeps equal keys in their
    original order as well. *)
Fixpoint insert_sorted (before : A → A → bool) (x : A) (l : list A) : list A :=
  match l with
  | [] => [x]
  | y :: l' => if before y x then y :: insert_sorted before x l' else x :: l
  end.

Definition sorted (before : A → A → bool) (l : list A) : list A :=
  foldr (insert_sorted before) [] l.

(** [l.remove(x)]: the first element equal to [x] goes, ValueError when
    there is none. *)
Fixpoint list_remove `{EqDecision A} (x : A) (l : list A) : result (list A) :=
  match l with
  | [] => Raise ValueError
  | y :: l' => if decide (y = x) then Ok l'
               else l'' ← list_remove x l'; Ok (y :: l'')
  end.

(** [itertools.permutations(l, 2)]: the ordered pairs of two different
    positions of [l], in lexicographic order of the positions. *)
Definition permutations2 (l : list A) : list (A * A) :=
  concat (imap (λ i x, (λ y, (x, y)) <$> delete i l) l).
End Sequences.

(** A loop over a list whose body may raise. *)
Fixpoint foldM {A B : Type} (f : B → A → result B) (b : B) (l : list A) : result B :=
  match l with
  | [] => Ok b
  | x :: l' => b' ← f b x; foldM f b' l'
  end.

(** ** Data model *)

(** Modelled from the spec: the class of cases is defined in the module
    [packing]; the solver reads the attribute [strength] only. *)
Record Case : Type := {
  strength : Z;
  case_size : Z * Z * Z;
  case_weight : Z
}.

(** An OrderLine object.  Its mutable attribute [pallet] is in the
    [Store]; the other attributes are never assigned by the solver. *)
Record OrderLine : Type := {
  ol_id : nat;                (* the identity of the object *)
  ol_cases : list Case;
  ol_weight : Z;
  ol_volume : Z;
  location : nat
}.

(** A dict from OrderLine objects to layer indices, in insertion order. *)
Abbreviation LayersMap := (list (OrderLine * Z)).

(** The state of a Pallet object. *)
Record Pallet : Type := {
  maxWeight : Z;
  maxVolume : Z;
  weight : Z;
  volume : Z;
  orderlines : gset nat;      (* the set of OrderLine objects, by identity *)
  cases : list Case;
  layersMap : LayersMap;
  active : bool
}.

(** Modelled from the spec: the constructor [Pallet(size, max_weight)] of
    the module [packing]: an empty pallet at full capacity, with
    maxVolume and maxWeight fixed from the configuration. *)
Definition Pallet_new (size : Z * Z * Z) (max_weight : Z) : Pallet :=
  {| maxWeight := max_weight;
     maxVolume := size.1.1 * size.1.2 * size.2;
     weight := 0;
     volume := 0;
     orderlines := ∅;
     cases := [];
     layersMap := [];
     active := true |}.

Global Instance Pallet_inhabited : Inhabited Pallet :=
  populate (Pallet_new (0, 0, 0) 0).

(** What the Packing Oracle is asked to add to a pallet: the cases of an
    order line (construction) or the content of another pallet (merge). *)
Inductive Payload : Type :=
  | Line (o : OrderLine)
  | Load (p : Pallet).

Record Edge : Type := {
  origin : OrderLine;
  end_ : OrderLine;
  saving : Z
}.

Record Solver : Type := {
  self_orderlines : list OrderLine;
  self_edges : list Edge;
  self_dists : list (list Z);
  self_pallet_size : Z * Z * Z;
  self_pallet_max_weight : Z;
  self_history : list Z
}.

(** Lines 65-84. *)
Definition __init__ (orderlines : list OrderLine) (edges : list Edge)
    (dists : list (list Z)) (pallet_size : Z * Z * Z) (pallet_max_weight : Z) : Solver :=
  {| self_orderlines := orderlines;
     self_edges := edges;
     self_dists := dists;
     self_pallet_size := pallet_size;
     self_pallet_max_weight := pallet_max_weight;
     self_history := [] |}.

(** The objects of a run.  [pallets] lists the Pallet objects ever
    allocated, an object being named by its position; [ol_pallet] is the
    attribute [pallet] of the OrderLine objects that have one;
    [packer_calls] records the invocations of the Packing Oracle, oldest
    first (it is not read by the solver). *)
Record Store : Type := {
  pallets : list Pallet;
  ol_pallet : gmap nat nat;
  packer_calls : list (Pallet * Payload)
}.

Definition empty_store : Store :=
  {| pallets := []; ol_pallet := ∅; packer_calls := [] |}.

(** [p.attr] for the pallet object at address [p]. *)
Definition deref (st : Store) (p : nat) : Pallet := pallets st !!! p.

(** [o.pallet] *)
Definition pallet_of (st : Store) (o : OrderLine) : result nat :=
  match ol_pallet st !! ol_id o with
  | Some p => Ok p
  | None => Raise AttributeError
  end.

(** [for line in lines: line.pallet = host] *)
Definition rebind (host : nat) (lines : gset nat) (m : gmap nat nat) : gmap nat nat :=
  set_fold (λ o m', <[o := host]> m') m lines.

(** [dists[i, j]] *)
Definition dist_at (dists : list (list Z)) (i j : nat) : result Z :=
  match dists !! i with
  | Some row => match row !! j with
                | Some d => Ok d
                | None => Raise IndexError
                end
  | None => Raise IndexError
  end.

(** [dict(pairs)]: a key met again keeps its place and takes the new
    value.  OrderLine objects are keys by identity. *)
Fixpoint dict_set (k : OrderLine) (v : Z) (d : LayersMap) : LayersMap :=
  match d with
  | [] => [(k, v)]
  | (k', v') :: d' =>
      if decide (ol_id k' = ol_id k) then (k', v) :: d'
      else (k', v') :: dict_set k v d'
  end.

Definition dict (pairs : list (OrderLine * Z)) : LayersMap :=
  foldl (λ d kv, dict_set kv.1 kv.2 d) [] pairs.

(** ** Real numbers for floats *)

(** [math.log(x, base)] computes [log(x) / log(base)]. *)
Definition py_log (x base : R) : result R :=
  if Rle_dec x 0 then Raise ValueError
  else if Rle_dec base 0 then Raise ValueError
  else if Req_dec_T (ln base) 0 then Raise ZeroDivisionError
  else Ok (ln x / ln base)%R.

(** [int(x)] truncates towards zero. *)
Definition py_int (x : R) : Z :=
  if Rle_dec 0 x then Int_part x else - Int_part (- x).

(** [int(log(u, 1.0 - beta))] *)
Definition log_index_R (u beta : R) : result Z :=
  x ← py_log u (1 - beta)%R; Ok (py_int x).

(** [random.uniform(a, b)] is [a + (b - a) * random.random()]. *)
Definition uniform_R (a b u : R) : R := (a + (b - a) * u)%R.

(** [time.time() - start < maxtime] *)
Definition elapsed_lt_R (now start maxtime : R) : bool :=
  if Rlt_dec (now - start) maxtime then true else false.

Definition GREEDY_BETA : R := (9999 / 10000)%R.

(** ** Doubles for floats *)

(** A Python float is an IEEE 754 binary64 number. *)
Abbreviation double := spec_float.

Definition f_sub : double → double → double := SFsub 53 1024.
Definition f_div : double → double → double := SFdiv 53 1024.

Definition f_zero : double := S754_zero false.
Definition f_one : double := S754_finite false 4503599627370496 (-52).

Definition is_nan (x : double) : bool :=
  match x with S754_nan => true | _ => false end.

Definition is_inf (x : double) : bool :=
  match x with S754_infinity _ => true | _ => false end.

Definition is_zero (x : double) : bool :=
  match x with S754_zero _ => true | _ => false end.


(** The logarithm of one argument of [math.log]: not a number and plus
    infinity go through, the other arguments that are not finite and
    positive are a domain error, and so is a result of the C library
    that is infinite or not a number.  [c_log] is the [log] of the C
    library, which is only called on finite positive numbers. *)
Definition loghelper (c_log : double → double) (x : double) : result double :=
  match x with
  | S754_nan => Ok x
  | S754_infinity false => Ok x
  | S754_infinity true => Raise ValueError
  | S754_zero _ => Raise ValueError
  | S754_finite true _ _ => Raise ValueError
  | S754_finite false _ _ =>
      let r := c_log x in
      if is_nan r || is_inf r then Raise ValueError else Ok r
  end.

(** [math.log(x, base)]: the quotient of the two logarithms, a float
    division. *)
Definition math_log (c_log : double → double) (x base : double) : result double :=
  num ← loghelper c_log x;
  den ← loghelper c_log base;
  if is_zero den then Raise ZeroDivisionError else Ok (f_div num den).

(** The integer a finite double is truncated to. *)
Definition float_trunc (x : double) : Z :=
  match x with
  | S754_finite s m e => if s then - Z.shiftl (Z.pos m) e else Z.shiftl (Z.pos m) e
  | _ => 0
  end.

(** [int(x)] *)
Definition float_int (x : double) : result Z :=
  match x with
  | S754_nan => Raise ValueError
  | S754_infinity _ => Raise OverflowError
  | _ => Ok (float_trunc x)
  end.

(** [int(log(u, 1.0 - beta))] *)
Definition log_index_F (c_log : double → double) (u beta : double) : result Z :=
  x ← math_log c_log u (f_sub f_one beta); float_int x.


(** ** A small warehouse, for the examples *)

Definition demo_case (w : Z) : Case :=
  {| strength := w; case_size := (10, 10, 10); case_weight := w |}.

(** An order line of one case of 1000 units of volume. *)
Definition demo_line (id loc : nat) (w : Z) : OrderLine :=
  {| ol_id := id;
     ol_cases := [demo_case w];
     ol_weight := w;
     ol_volume := 1000;
     location := loc |}.

Definition line1 : OrderLine := demo_line 1 1 20.
Definition line2 : OrderLine := demo_line 2 2 30.
Definition line3 : OrderLine := demo_line 3 3 20.
Definition line4 : OrderLine := demo_line 4 4 40.

Definition demo_edges : list Edge :=
  [ {| origin := line1; end_ := line2; saving := 12 |};
    {| origin := line1; end_ := line3; saving := 10 |};
    {| origin := line1; end_ := line4; saving := 8 |};
    {| origin := line2; end_ := line3; saving := 6 |};
    {| origin := line2; end_ := line4; saving := 5 |};
    {| origin := line3; end_ := line4; saving := 4 |} ].

Definition demo_dists : list (list Z) :=
  [ [0; 10; 12; 14; 16];
    [10; 0; 3; 5; 7];
    [12; 3; 0; 4; 6];
    [14; 5; 4; 0; 2];
    [16; 7; 6; 2; 0] ].

Definition demo_solver : Solver :=
  __init__ [line1; line2; line3; line4] demo_edges demo_dists (120, 80, 150) 450.

(** The same warehouse with an order line heavier than a pallet allows. *)
Definition heavy_line : OrderLine := demo_line 5 2 500.

Definition heavy_solver : Solver :=
  __init__ [line1; heavy_line] [] demo_dists (120, 80, 150) 450.

(** A packing that puts the payload on top of what the pallet holds. *)
Definition stack (P : Pallet) (payload : Payload) : list Case * LayersMap :=
  match payload with
  | Line o =>
      (cases P ++ ol_cases o,
       layersMap P ++ [(o, Z.of_nat (length (layersMap P)))])
  | Load Q =>
      (cases P ++ cases Q,
       layersMap P ++ ((λ e, (e.1, e.2 + Z.of_nat (length (layersMap P)))) <$> layersMap Q))
  end.

(** An oracle that always succeeds. *)
Definition pack_all (P : Pallet) (payload : Payload) : bool * list Case * LayersMap :=
  (true, (stack P payload).1, (stack P payload).2).

(** An oracle that is sensitive to the orientation: an order line must
    fit the bounds of the pallet, and the content of a pallet is only
    accepted on top of a strictly heavier one. *)
Definition pack_heavier_below (P : Pallet) (payload : Payload)
  : bool * list Case * LayersMap :=
  (match payload with
   | Line o => (ol_weight o <=? maxWeight P) && (ol_volume o <=? maxVolume P)
   | Load Q => weight Q <? weight P
   end,
   (stack P payload).1, (stack P payload).2).

(** Doubles of the examples: 1/2, 1/8, the double after 1/8, and
    2^-54, which is lost when it is subtracted from 1. *)
Definition f_half : double := S754_finite false 4503599627370496 (-53).
Definition f_eighth : double := S754_finite false 4503599627370496 (-55).
Definition f_eighth_up : double := S754_finite false 4503599627370497 (-55).

(** The values of the logarithm of the C library (glibc) on the doubles
    of the examples: log(1) = 0, log(1/2) = -0.6931471805599453, and
    -2.0794415416798357 both for 1/8 and for the double after it. *)
Definition log_table (x : double) : double :=
  if SFeqb x f_one then f_zero
  else if SFeqb x f_half then S754_finite true 6243314768165359 (-53)
  else if SFeqb x f_eighth then S754_finite true 4682486076124019 (-51)
  else if SFeqb x f_eighth_up then S754_finite true 4682486076124019 (-51)
  else S754_nan.

(** A scripted numeric model: the random source gives the values of
    [int(log(u, 1.0 - beta))] directly, [uniform] returns the lower end of
    the range, and the clock ticks once per reading. *)
Definition script_index (u beta : Z) : result Z := Ok u.
Definition script_uniform (a b u : Z) : Z := a.
Definition script_elapsed (now start maxtime : Z) : bool := now - start <? maxtime.
Definition script_tape (n : nat) : Z := Z.of_nat (7 * n + 3).
Definition script_clock (n : nat) : Z := Z.of_nat n.

(** Pallets as a solution lists them, for the examples of the cost: a
    loaded one and one whose layer assignment is empty. *)
Definition demo_pallet (w v : Z) (lines : gset nat) (layers : LayersMap) : Pallet :=
  {| maxWeight := 450; maxVolume := 1440000; weight := w; volume := v;
     orderlines := lines; cases := []; layersMap := layers; active := true |}.

Definition pallet_b : Pallet := demo_pallet 40 1000 {[4%nat]} [(line4, 0)].
Definition pallet_bare : Pallet := demo_pallet 0 0 ∅ [].

(** A warehouse with an order line that has no case. *)
Definition caseless_line : OrderLine :=
  {| ol_id := 6; ol_cases := []; ol_weight := 0; ol_volume := 0; location := 3 |}.

Definition caseless_solver : Solver :=
  __init__ [line1; caseless_line] [] demo_dists (120, 80, 150) 450.

(** ** The solver *)

Section Solver.
(** Floating point numbers with the operations the code applies to
    them: [int(log(u, 1.0 - beta))], [random.uniform(a, b)] from the
    value [u] of [random.random()], and [now - start < maxtime]. *)
Variable float : Type.
Variable log_index : float → float → result Z.
Variable uniform : float → float → float → float.
Variable elapsed_lt : float → float → float → bool.
Variable greedy_beta : float.

(** The random source: [tape n] is the [n]-th value [random.random()]
    returns; the number of values consumed so far is threaded through
    the code.  [clock n] is the [n]-th reading of [time.time()]. *)
Variable tape : nat → float.
Variable clock : nat → float.

(** The Packing Oracle: success, the packed cases, the layer assignment. *)
Variable dubePacker : Pallet → Payload → bool * list Case * LayersMap.

(** Proofs that do not concern the parameters above forget them first. *)
Ltac pure_ctx :=
  try clear dubePacker; try clear clock; try clear tape; try clear greedy_beta;
  try clear elapsed_lt; try clear uniform; try clear log_index; try clear float.

(** *** The biased selector [_bra] *)

(** Lines 55-56, one resumption of the generator: the value it yields
    together with the pool that is left. *)
Definition bra_draw {A : Type} (beta : float) (arr : list A) (pos : nat)
  : result (A * list A) :=
  r ← log_index (tape pos) beta;
  match length arr with
  | O => Raise ZeroDivisionError
  | S _ => pop arr (Z.to_nat (r mod Z.of_nat (length arr)))
  end.

(** [for _ in range(n)] of the generator, run to its end: the values
    yielded, in order, and the new position of the random source. *)
Fixpoint bra_loop {A : Type} (beta : float) (n : nat) (arr : list A) (pos : nat)
  : result (list A * nat) :=
  match n with
  | O => Ok ([], pos)
  | S n' =>
      '(x, arr') ← bra_draw beta arr pos;
      '(xs, pos') ← bra_loop beta n' arr' (S pos);
      Ok (x :: xs, pos')
  end.

Definition _bra {A : Type} (array : list A) (beta : float) (pos : nat)
  : result (list A * nat) :=
  bra_loop beta (length array) array pos.

(** *** [heuristic] *)

(** A call of the Packing Oracle. *)
Definition pack (container : Pallet) (payload : Payload) (st : Store)
  : bool * list Case * LayersMap * Store :=
  (dubePacker container payload,
   {| pallets := pallets st;
      ol_pallet := ol_pallet st;
      packer_calls := packer_calls st ++ [(container, payload)] |}).

(** Lines 112-120 (and 244-252), the body of the construction loop. *)
Definition build_pallet (s : Solver) (palletsList : list nat) (st : Store)
    (orderline : OrderLine) : result (list nat * Store) :=
  let p := Pallet_new (self_pallet_size s) (self_pallet_max_weight s) in
  let addr := length (pallets st) in
  let '(done, packedCases, layers, st1) := pack p (Line orderline) st in
  if done then
    let p' := {| maxWeight := maxWeight p;
                 maxVolume := maxVolume p;
                 weight := ol_weight orderline;
                 volume := ol_volume orderline;
                 orderlines := orderlines p ∪ {[ol_id orderline]};
                 cases := packedCases;
                 layersMap := layers;
                 active := active p |} in
    Ok (palletsList ++ [addr],
        {| pallets := pallets st1 ++ [p'];
           ol_pallet := <[ol_id orderline := addr]> (ol_pallet st1);
           packer_calls := packer_calls st1 |})
  else Raise AssertionError.

(** Lines 110-120: the dummy solution, one pallet per order line. *)
Definition dummy_solution (s : Solver) (st : Store) : result (list nat * Store) :=
  foldM (λ acc orderline, build_pallet s acc.1 acc.2 orderline)
        ([], st) (self_orderlines s).

(** Lines 143-150 (and 157-164): a successful merge. *)
Definition absorb (host hosted : nat) (packedCases : list Case) (layers : LayersMap)
    (palletsList : list nat) (st : Store) : result (list nat * Store) :=
  let H := deref st host in
  let D := deref st hosted in
  let H' := {| maxWeight := maxWeight H;
               maxVolume := maxVolume H;
               weight := weight H + weight D;
               volume := volume H + volume D;
               orderlines := orderlines H ∪ orderlines D;
               cases := packedCases;
               layersMap := layers;
               active := active H |} in
  palletsList' ← list_remove hosted palletsList;
  Ok (palletsList',
      {| pallets := <[host := H']> (pallets st);
         ol_pallet := rebind host (orderlines D) (ol_pallet st);
         packer_calls := packer_calls st |}).

(** Lines 128-164, the body of the merging loop for one edge. *)
Definition merge_edge (palletsList : list nat) (st : Store) (edge : Edge)
  : result (list nat * Store) :=
  host ← pallet_of st (origin edge);
  hosted ← pallet_of st (end_ edge);
  if decide (host = hosted) then Ok (palletsList, st)
  else if volume (deref st host) + volume (deref st hosted) >? maxVolume (deref st host)
  then Ok (palletsList, st)
  else if weight (deref st host) + weight (deref st hosted) >? maxWeight (deref st host)
  then Ok (palletsList, st)
  else
    let '(done, packedCases, layers, st1) :=
      pack (deref st host) (Load (deref st hosted)) st in
    if done then absorb host hosted packedCases layers palletsList st1
    else
      let '(done, packedCases, layers, st2) :=
        pack (deref st1 hosted) (Load (deref st1 host)) st1 in
      if done then absorb hosted host packedCases layers palletsList st2
      else Ok (palletsList, st2).

(** Lines 126-164: the merging loop, driven by the generator; [n]
    counts the iterations the generator has left and [arr] is its pool. *)
Fixpoint merging (beta : float) (n : nat) (arr : list Edge) (pos : nat)
    (palletsList : list nat) (st : Store) : result (list nat * Store * nat) :=
  match n with
  | O => Ok (palletsList, st, pos)
  | S n' =>
      '(edge, arr') ← bra_draw beta arr pos;
      '(palletsList', st') ← merge_edge palletsList st edge;
      merging beta n' arr' (S pos) palletsList' st'
  end.

(** Lines 98-167.  The result is the list of pallets together with the
    store and the position of the random source the call leaves. *)
Definition heuristic (s : Solver) (beta : float) (st : Store) (pos : nat)
  : result (list nat * Store * nat) :=
  '(palletsList, st1) ← dummy_solution s st;
  let savingsList := sorted (λ y x, saving y >? saving x) (self_edges s) in
  merging beta (length savingsList) savingsList pos palletsList st1.

(** *** [getCost] *)

(** Line 184 *)
Definition sort_orderlines (P : Pallet) : list OrderLine :=
  (dict (sorted (λ y x, y.2 <? x.2) (layersMap P))).*1.

(** Lines 184-186, the contribution of one pallet to the total. *)
Definition pallet_cost (dists : list (list Z)) (P : Pallet) : result Z :=
  let s := sort_orderlines P in
  match head s, last s with
  | Some first, Some final =>
      out ← dist_at dists 0 (location first);
      back ← dist_at dists (location final) 0;
      legs ← foldM (λ acc ij, d ← dist_at dists (location ij.1) (location ij.2);
                              Ok (acc + d))
                   0 (zip (removelast s) (tail s));
      Ok (out + back + legs)
  | _, _ => Raise IndexError
  end.

(** Lines 170-187 *)
Definition getCost (solution : list Pallet) (dists : list (list Z)) : result Z :=
  foldM (λ total P, c ← pallet_cost dists P; Ok (total + c)) 0 solution.

(** *** [__call__] *)

(** What a call of the driver leaves: the tuple it returns, the history
    of the solver, the store and the positions of the random source and
    of the clock. *)
Record Outcome : Type := {
  out_best : list nat;
  out_bestcost : Z;
  out_iterations : nat;
  out_history : list Z;
  out_store : Store;
  out_pos : nat;
  out_tick : nat
}.

(** Lines 216-229.  [fuel] bounds the number of clock readings: [None]
    is a loop that is still running when it is used up. *)
Fixpoint search (fuel : nat) (s : Solver) (maxtime lo hi start : float)
    (best : list nat) (bestcost : Z) (iterations : nat) (history : list Z)
    (st : Store) (pos tick : nat) : option (result Outcome) :=
  match fuel with
  | O => None
  | S fuel' =>
      if elapsed_lt (clock tick) start maxtime then
        let beta := uniform lo hi (tape pos) in
        match heuristic s beta st (S pos) with
        | Raise e => Some (Raise e)
        | Ok (newsol, st', pos') =>
            match getCost (deref st' <$> newsol) (self_dists s) with
            | Raise e => Some (Raise e)
            | Ok newcost =>
                let best' := if newcost <? bestcost then newsol else best in
                let bestcost' := if newcost <? bestcost then newcost else bestcost in
                search fuel' s maxtime lo hi start best' bestcost' (S iterations)
                       (history ++ [bestcost']) st' pos' (S tick)
            end
        end
      else
        Some (Ok {| out_best := best;
                    out_bestcost := bestcost;
                    out_iterations := iterations;
                    out_history := history;
                    out_store := st;
                    out_pos := pos;
                    out_tick := S tick |})
  end.

(** Lines 190-229 *)
Definition __call__ (fuel : nat) (s : Solver) (maxtime : float) (betarange : float * float)
    (st : Store) (pos tick : nat) : option (result Outcome) :=
  match heuristic s greedy_beta st pos with
  | Raise e => Some (Raise e)
  | Ok (best, st', pos') =>
      match getCost (deref st' <$> best) (self_dists s) with
      | Raise e => Some (Raise e)
      | Ok bestcost =>
          search fuel s maxtime betarange.1 betarange.2 (clock tick)
                 best bestcost 0 (self_history s) st' pos' (S tick)
      end
  end.

(** *** [sequential] *)

(** Line 255, the sort key of a pallet. *)
Definition strength_key (st : Store) (p : nat) : result Z :=
  match cases (deref st p) with
  | c :: _ => Ok (strength c)
  | [] => Raise IndexError
  end.

(** Line 255: the keys are computed first, then the list is sorted. *)
Definition sort_by_strength (st : Store) (palletsList : list nat) : result (list nat) :=
  keyed ← foldM (λ acc p, k ← strength_key st p; Ok (acc ++ [(p, k)])) [] palletsList;
  Ok ((sorted (λ y x, y.2 >? x.2) keyed).*1).

(** Lines 260-277, the body of the loop over the couples of pallets. *)
Definition merge_pair (st : Store) (ij : nat * nat) : Store :=
  let iPallet := ij.1 in
  let jPallet := ij.2 in
  let I := deref st iPallet in
  let J := deref st jPallet in
  if active I && active J then
    if volume I + volume J >? maxVolume I then st
    else if weight I + weight J >? maxWeight I then st
    else
      let '(done, packedCases, layers, st1) := pack I (Load J) st in
      if done then
        let I' := {| maxWeight := maxWeight I;
                     maxVolume := maxVolume I;
                     weight := weight I + weight J;
                     volume := volume I + volume J;
                     orderlines := orderlines I ∪ orderlines J;
                     cases := packedCases;
                     layersMap := layers;
                     active := active I |} in
        let J' := {| maxWeight := maxWeight J;
                     maxVolume := maxVolume J;
                     weight := weight J;
                     volume := volume J;
                     orderlines := orderlines J;
                     cases := cases J;
                     layersMap := layersMap J;
                     active := false |} in
        {| pallets := <[jPallet := J']> (<[iPallet := I']> (pallets st1));
           ol_pallet := rebind iPallet (orderlines J) (ol_pallet st1);
           packer_calls := packer_calls st1 |}
      else st1
  else st.

(** Lines 231-280 *)
Definition sequential (s : Solver) (st : Store) : result (list nat * Store) :=
  '(palletsList, st1) ← dummy_solution s st;
  palletsList' ← sort_by_strength st1 palletsList;
  let st2 := foldl merge_pair st1 (permutations2 palletsList') in
  Ok (filter (λ p, active (deref st2 p) = true) palletsList', st2).

(** *** Vocabulary of the properties *)

(** The volume bound of the pallets a solver creates. *)
Definition self_max_volume (s : Solver) : Z :=
  maxVolume (Pallet_new (self_pallet_size s) (self_pallet_max_weight s)).

(** A pallet of the configuration of [s], filled within its bounds. *)
Definition cap_ok (s : Solver) (P : Pallet) : Prop :=
  maxWeight P = self_pallet_max_weight s ∧
  maxVolume P = self_max_volume s ∧
  weight P ≤ maxWeight P ∧
  volume P ≤ maxVolume P.

Definition store_ok (s : Solver) (st : Store) : Prop :=
  Forall (cap_ok s) (pallets st).

(** Each order line fits an empty pallet by weight and by volume. *)
Definition lines_fit (s : Solver) : Prop :=
  Forall (λ o, ol_weight o ≤ self_pallet_max_weight s ∧
               ol_volume o ≤ self_max_volume s) (self_orderlines s).

(** The pallet at address [p] exists and is within its own bounds. *)
Definition within_capacity (st : Store) (p : nat) : Prop :=
  (p < length (pallets st))%nat ∧
  weight (deref st p) ≤ maxWeight (deref st p) ∧
  volume (deref st p) ≤ maxVolume (deref st p).

(** The order line whose single-line packing the oracle refuses. *)
Definition refused (s : Solver) (o : OrderLine) : Prop :=
  (dubePacker (Pallet_new (self_pallet_size s) (self_pallet_max_weight s))
              (Line o)).1.1 = false.

(** The addresses of [palletsList] are those of allocated pallets. *)
Definition valid_list (palletsList : list nat) (st : Store) : Prop :=
  Forall (λ p, (p < length (pallets st))%nat) palletsList.

(** The store [st] after the given invocations of the Packing Oracle,
    none of which led to a merge. *)
Definition with_calls (st : Store) (calls : list (Pallet * Payload)) : Store :=
  {| pallets := pallets st;
     ol_pallet := ol_pallet st;
     packer_calls := packer_calls st ++ calls |}.

(** The identities of the order lines of the solver. *)
Definition line_ids (s : Solver) : list nat := ol_id <$> self_orderlines s.

(** The input is well formed: the order lines are distinct objects and
    the edges connect order lines of the solver. *)
Definition solver_wf (s : Solver) : Prop :=
  NoDup (line_ids s) ∧
  ∀ e, e ∈ self_edges s → origin e ∈ self_orderlines s ∧ end_ e ∈ self_orderlines s.

(** No order line refers to a pallet that was never allocated. *)
Definition store_wf (st : Store) : Prop :=
  ∀ i p, ol_pallet st !! i = Some p → (p < length (pallets st))%nat.

(** The order lines found on the pallets of the working list. *)
Definition all_lines (palletsList : list nat) (st : Store) : gset nat :=
  ⋃ ((λ p, orderlines (deref st p)) <$> palletsList).

(** The working list and the store agree: the pallets of the list are
    distinct objects allocated by this run (at [base] or after), each
    order line of [ids] is bound to a pallet of the list, and a pallet of
    the list holds exactly the order lines bound to it, all from [ids]
    and at least one. *)
Record wf_state (ids : list nat) (base : nat) (palletsList : list nat) (st : Store)
  : Prop := {
  wf_store : store_wf st;
  wf_base : (base ≤ length (pallets st))%nat;
  wf_nodup : NoDup palletsList;
  wf_valid : ∀ p, p ∈ palletsList → (base ≤ p < length (pallets st))%nat;
  wf_bound : ∀ i, i ∈ ids → ∃ p, ol_pallet st !! i = Some p ∧ p ∈ palletsList;
  wf_member : ∀ p i, p ∈ palletsList →
                (i ∈ orderlines (deref st p) ↔ ol_pallet st !! i = Some p);
  wf_lines : ∀ p i, p ∈ palletsList → i ∈ orderlines (deref st p) → i ∈ ids;
  wf_nonempty : ∀ p, p ∈ palletsList → ∃ i, i ∈ orderlines (deref st p)
}.

(** The states the merging loop of [heuristic] can be in: the one the
    construction leaves, and those obtained by the body of the loop on
    an edge of the solver. *)
Inductive reachable (s : Solver) (st0 : Store) : list nat → Store → Prop :=
  | reach_built pl st :
      dummy_solution s st0 = Ok (pl, st) →
      reachable s st0 pl st
  | reach_merge pl st e pl' st' :
      reachable s st0 pl st →
      e ∈ self_edges s →
      merge_edge pl st e = Ok (pl', st') →
      reachable s st0 pl' st'.

(** Each entry is at most the one before it. *)
Definition non_increasing (l : list Z) : Prop :=
  ∀ i x y, l !! i = Some x → l !! S i = Some y → y ≤ x.

(** The solver object after a call of the driver that returned [out]:
    the call has appended to [self.history]. *)
Definition self_after (s : Solver) (out : Outcome) : Solver :=
  {| self_orderlines := self_orderlines s;
     self_edges := self_edges s;
     self_dists := self_dists s;
     self_pallet_size := self_pallet_size s;
     self_pallet_max_weight := self_pallet_max_weight s;
     self_history := out_history out |}.

(** *** The cost of a solution, after the specification *)

(** The distance between two locations of the matrix. *)
Definition distance (dists : list (list Z)) (i j : nat) : Z :=
  match dist_at dists i j with
  | Ok d => d
  | Raise _ => 0
  end.

(** The matrix has an entry for every pair of the depot (location 0) and
    the locations [locs]. *)
Definition covers (dists : list (list Z)) (locs : list nat) : Prop :=
  ∀ i j, i ∈ 0%nat :: locs → j ∈ 0%nat :: locs → is_Ok (dist_at dists i j).

(** [order] is the visiting order of a pallet with layer assignment
    [lm]: the order lines of the entries of [lm] sorted by ascending
    layer index, entries of one layer staying in the order in which they
    were inserted in [lm]. *)
Definition is_visiting_order (lm : LayersMap) (order : list OrderLine) : Prop :=
  ∃ entries : list (OrderLine * Z),
    order = entries.*1 ∧
    StronglySorted (λ x y, x.2 ≤ y.2) entries ∧
    ∀ v, filter (λ e, e.2 = v) entries = filter (λ e, e.2 = v) lm.

(** The sum of the distances between consecutive locations. *)
Fixpoint consecutive (dists : list (list Z)) (locs : list nat) : Z :=
  match locs with
  | a :: (b :: _) as rest => distance dists a b + consecutive dists rest
  | _ => 0
  end.

(** From the depot to the first order line, along the order, and from
    the last order line back to the depot. *)
Definition route_cost (dists : list (list Z)) (order : list OrderLine) : Z :=
  match order with
  | [] => 0
  | first :: _ =>
      distance dists 0 (location first)
      + distance dists (location (default first (last order))) 0
      + consecutive dists (location <$> order)
  end.

Definition cost_reference (dists : list (list Z)) (orders : list (list OrderLine)) : Z :=
  foldr (λ order acc, route_cost dists order + acc) 0 orders.

(** A pallet [getCost] accepts: its layer assignment is a non empty
    dict (the keys are distinct objects) and the locations of its order
    lines are in the matrix. *)
Definition costable (dists : list (list Z)) (P : Pallet) : Prop :=
  layersMap P ≠ [] ∧
  NoDup ((λ e, ol_id e.1) <$> layersMap P) ∧
  covers dists ((λ e, location e.1) <$> layersMap P).

(** *** Vocabulary of the end-to-end scenario *)

Definition sumZ (l : list Z) : Z := foldr Z.add 0 l.

(** What [f] finds on the pallets of the working list, in list order. *)
Definition gather {B : Type} (f : Pallet → list B) (palletsList : list nat)
    (st : Store) : list B :=
  foldr (λ p acc, f (deref st p) ++ acc) [] palletsList.

(** The order lines a payload brings. *)
Definition payload_lines (payload : Payload) : list OrderLine :=
  match payload with
  | Line o => [o]
  | Load Q => (layersMap Q).*1
  end.

(** The Packing Oracle always succeeds. *)
Definition always_packs : Prop :=
  ∀ P payload, (dubePacker P payload).1.1 = true.

(** The layer assignment the Packing Oracle returns covers the order
    lines of the container and those of the payload, each once. *)
Definition packs_all_lines : Prop :=
  ∀ P payload,
    (dubePacker P payload).2.*1 ≡ₚ (layersMap P).*1 ++ payload_lines payload.

(** Every two order lines of the solver are the ends of an edge. *)
Definition fully_connected (s : Solver) : Prop :=
  ∀ o o', o ∈ self_orderlines s → o' ∈ self_orderlines s → o ≠ o' →
    ∃ e, e ∈ self_edges s ∧
         ((origin e = o ∧ end_ e = o') ∨ (origin e = o' ∧ end_ e = o)).

(** All the order lines fit one pallet together; none weighs or
    measures less than nothing. *)
Definition fits_one_pallet (s : Solver) : Prop :=
  Forall (λ o, 0 ≤ ol_weight o ∧ 0 ≤ ol_volume o) (self_orderlines s) ∧
  sumZ (ol_weight <$> self_orderlines s) ≤ self_pallet_max_weight s ∧
  sumZ (ol_volume <$> self_orderlines s) ≤ self_max_volume s.

(** The two order lines are bound to the same pallet. *)
Definition same_pallet (st : Store) (i j : nat) : Prop :=
  ∃ p, ol_pallet st !! i = Some p ∧ ol_pallet st !! j = Some p.

(** The loads of the working list account for the order lines [ls]
    built so far: the weights and the volumes add up to theirs, the
    layer assignments list them, and every pallet has the capacity of
    the configuration. *)
Record tight_state (s : Solver) (ls : list OrderLine) (palletsList : list nat)
    (st : Store) : Prop := {
  t_nonneg : ∀ p, p ∈ palletsList →
               0 ≤ weight (deref st p) ∧ 0 ≤ volume (deref st p);
  t_cap : ∀ p, p ∈ palletsList →
            maxWeight (deref st p) = self_pallet_max_weight s ∧
            maxVolume (deref st p) = self_max_volume s;
  t_weight : sumZ (gather (λ P, [weight P]) palletsList st)
             = sumZ (ol_weight <$> ls);
  t_volume : sumZ (gather (λ P, [volume P]) palletsList st)
             = sumZ (ol_volume <$> ls);
  t_layers : gather (λ P, (layersMap P).*1) palletsList st ≡ₚ ls
}.

(** *** Vocabulary of the further properties *)

(** The sum of [f] over the order lines of [ls] that are in the set
    [lines] of a pallet. *)
Definition line_load (f : OrderLine → Z) (ls : list OrderLine) (lines : gset nat) : Z :=
  sumZ (f <$> filter (λ o, ol_id o ∈ lines) ls).

(** The weight and the volume of every pallet of the working list are
    those of the order lines it holds. *)
Definition loads_ok (ls : list OrderLine) (palletsList : list nat) (st : Store) : Prop :=
  ∀ p, p ∈ palletsList →
    weight (deref st p) = line_load ol_weight ls (orderlines (deref st p)) ∧
    volume (deref st p) = line_load ol_volume ls (orderlines (deref st p)).

(** The pallets of [palletsList] that are still active. *)
Definition active_list (st : Store) (palletsList : list nat) : list nat :=
  filter (λ p, active (deref st p) = true) palletsList.

(** *** The iterations of the driver, one by one *)

(** [n] iterations of the loop of the driver in a row, apart from the
    clock and from the bookkeeping of the best: each one draws its beta,
    runs the heuristic and costs the solution.  The result lists the
    solutions with their costs, in order. *)
Fixpoint iterations_of (n : nat) (s : Solver) (lo hi : float) (st : Store) (pos : nat)
  : result (list (list nat * Z) * Store * nat) :=
  match n with
  | O => Ok ([], st, pos)
  | S n' =>
      '(newsol, st', pos') ← heuristic s (uniform lo hi (tape pos)) st (S pos);
      newcost ← getCost (deref st' <$> newsol) (self_dists s);
      '(rest, st'', pos'') ← iterations_of n' s lo hi st' pos';
      Ok ((newsol, newcost) :: rest, st'', pos'')
  end.

(** The best cost known after each of a series of runs that cost
    [costs], when it was [bestcost] before them. *)
Fixpoint best_costs (bestcost : Z) (costs : list Z) : list Z :=
  match costs with
  | [] => []
  | c :: costs' => Z.min bestcost c :: best_costs (Z.min bestcost c) costs'
  end.

(** The best solution after a series of runs: a run takes the place of
    the best when its cost is strictly lower. *)
Fixpoint best_solution (best : list nat) (bestcost : Z) (runs : list (list nat * Z))
  : list nat :=
  match runs with
  | [] => best
  | (sol, c) :: runs' =>
      if c <? bestcost then best_solution sol c runs'
      else best_solution best bestcost runs'
  end.

(** The budget lasts for [n] iterations: the [n] readings of the clock
    from [tick] on are within [maxtime] of [start], and the next one is
    not. *)
Definition budget_lasts (start maxtime : float) (tick n : nat) : Prop :=
  (∀ i, (i < n)%nat → elapsed_lt (clock (tick + i)) start maxtime = true) ∧
  elapsed_lt (clock (tick + n)) start maxtime = false.

(** * Properties *)

(** ** The biased selector *)

Lemma pop_lookup {A : Type} (arr : list A) (i : nat) (x : A) :
  arr !! i = Some x → pop arr i = Ok (x, delete i arr).
Proof. intros H. unfold pop. by rewrite H. Qed.

Lemma mod_index_lt (r : Z) (n : nat) :
  (0 < n)%nat → (Z.to_nat (r mod Z.of_nat n) < n)%nat.
Proof.
  intros Hn.
  assert (0 ≤ r mod Z.of_nat n < Z.of_nat n) by (apply Z.mod_pos_bound; lia).
  lia.
Qed.

(** A draw from a non empty pool succeeds as soon as the index
    computation does, and takes the element at the wrapped index. *)
Lemma bra_draw_Ok {A : Type} (beta : float) (arr : list A) (pos : nat) (r : Z) :
  log_index (tape pos) beta = Ok r →
  arr ≠ [] →
  ∃ x, arr !! Z.to_nat (r mod Z.of_nat (length arr)) = Some x ∧
       bra_draw beta arr pos
       = Ok (x, delete (Z.to_nat (r mod Z.of_nat (length arr))) arr).
Proof.
  intros Hr Hne. unfold bra_draw. rewrite Hr. simpl.
  destruct (lookup_lt_is_Some_2 arr (Z.to_nat (r mod Z.of_nat (length arr))))
    as [x Hx].
  { apply mod_index_lt. destruct arr; [done | simpl; lia]. }
  exists x. split; [done |].
  destruct arr as [| a arr']; [done |].
  change (length (a :: arr')) with (S (length arr')) at 1.
  cbv iota beta. by apply pop_lookup.
Qed.

Lemma bra_draw_inv {A : Type} (beta : float) (arr arr' : list A) (pos : nat) (x : A) :
  bra_draw beta arr pos = Ok (x, arr') →
  ∃ i, arr !! i = Some x ∧ arr' = delete i arr.
Proof.
  unfold bra_draw. destruct (log_index (tape pos) beta) as [r |]; [| done].
  simpl. destruct (length arr); [done |].
  unfold pop. destruct (arr !! _) as [y |] eqn:E; [| done].
  intros [= <- <-]. eauto.
Qed.




(** ** Construction of the dummy solution *)

Lemma build_pallet_refused (s : Solver) (pl : list nat) (st : Store) (o : OrderLine) :
  refused s o → build_pallet s pl st o = Raise AssertionError.
Proof.
  unfold refused, build_pallet, pack.
  destruct (dubePacker _ _) as [[done pc] lm]. simpl. by intros ->.
Qed.

Lemma build_pallet_cases (s : Solver) (pl : list nat) (st : Store) (o : OrderLine) :
  build_pallet s pl st o = Raise AssertionError ∨
  ∃ P, build_pallet s pl st o
       = Ok (pl ++ [length (pallets st)],
             {| pallets := pallets st ++ [P];
                ol_pallet := <[ol_id o := length (pallets st)]> (ol_pallet st);
                packer_calls :=
                  packer_calls st
                  ++ [(Pallet_new (self_pallet_size s) (self_pallet_max_weight s),
                       Line o)] |}) ∧
       maxWeight P = self_pallet_max_weight s ∧
       maxVolume P = self_max_volume s ∧
       weight P = ol_weight o ∧
       volume P = ol_volume o ∧
       orderlines P = {[ol_id o]} ∧
       active P = true ∧
       (dubePacker (Pallet_new (self_pallet_size s) (self_pallet_max_weight s))
                   (Line o)) = (true, cases P, layersMap P).
Proof.
  unfold build_pallet, pack.
  destruct (dubePacker _ _) as [[done pc] lm]. simpl.
  destruct done; [right | by left].
  eexists. split; [reflexivity |]. simpl. repeat split; try done.
  by rewrite (left_id_L ∅ (∪)).
Qed.

Lemma dummy_loop_refused (s : Solver) (l : list OrderLine) :
  ∀ acc, Exists (refused s) l →
    foldM (λ acc orderline, build_pallet s acc.1 acc.2 orderline) acc l
    = Raise AssertionError.
Proof.
  induction l as [| o l IH]; intros acc Hex.
  - by apply Exists_nil in Hex.
  - simpl. apply Exists_cons in Hex as [Ho | Hl].
    + by rewrite (build_pallet_refused s _ _ o Ho).
    + destruct (build_pallet_cases s acc.1 acc.2 o) as [-> | (P & -> & _)]; [done |].
      simpl. by apply IH.
Qed.

(** C9. When the Packing Oracle refuses to pack a single order line of
    the solver into a fresh empty pallet, [heuristic] raises
    AssertionError, and so does [sequential]: neither returns a
    solution. *)
Theorem construction_failure_is_fatal (s : Solver) (beta : float) (st : Store)
    (pos : nat) (o : OrderLine) :
  o ∈ self_orderlines s →
  refused s o →
  heuristic s beta st pos = Raise AssertionError ∧
  sequential s st = Raise AssertionError.
Proof.
  intros Hin Href.
  assert (Hd : dummy_solution s st = Raise AssertionError).
  { apply dummy_loop_refused. apply Exists_exists. eauto. }
  unfold heuristic, sequential. by rewrite Hd.
Qed.

(** ** Capacity *)

Lemma deref_lt (st : Store) (p : nat) :
  (p < length (pallets st))%nat → pallets st !! p = Some (deref st p).
Proof. apply list_lookup_lookup_total_lt. Qed.

Lemma deref_ge (st : Store) (p : nat) :
  (length (pallets st) ≤ p)%nat → deref st p = inhabitant.
Proof.
  intros H. unfold deref. rewrite list_lookup_total_alt.
  by rewrite (lookup_ge_None_2 _ _ H).
Qed.

Lemma store_ok_deref (s : Solver) (st : Store) (p : nat) :
  store_ok s st → (p < length (pallets st))%nat → cap_ok s (deref st p).
Proof.
  intros Hok Hp. unfold store_ok in Hok. rewrite Forall_lookup in Hok.
  eapply Hok. by apply deref_lt.
Qed.

Lemma Forall_cap_insert (s : Solver) (l : list Pallet) (p : nat) (P : Pallet) :
  Forall (cap_ok s) l → ((p < length l)%nat → cap_ok s P) →
  Forall (cap_ok s) (<[p := P]> l).
Proof.
  intros Hl HP. destruct (decide (p < length l)%nat) as [Hlt | Hge].
  - apply Forall_insert; auto.
  - rewrite list_insert_ge; [done | lia].
Qed.

Lemma list_remove_Ok {A : Type} `{EqDecision A} (x : A) (l l' : list A) :
  list_remove x l = Ok l' →
  ∃ l1 l2, l = l1 ++ x :: l2 ∧ l' = l1 ++ l2 ∧ x ∉ l1.
Proof.
  revert l'. induction l as [| y l IH]; intros l'; simpl; [done |].
  destruct (decide (y = x)) as [-> | Hne].
  - intros [= <-]. exists [], l. split_and!; [done | done | apply not_elem_of_nil].
  - destruct (list_remove x l) as [l'' |]; [| done]. simpl. intros [= <-].
    destruct (IH l'' eq_refl) as (l1 & l2 & -> & -> & Hnin).
    exists (y :: l1), l2. split_and!; [done | done |].
    apply not_elem_of_cons. by split.
Qed.

Lemma list_remove_elem {A : Type} `{EqDecision A} (x : A) (l : list A) :
  x ∈ l → is_Ok (list_remove x l).
Proof.
  induction l as [| y l IH]; [by intros ?%elem_of_nil |]. intros Hin. simpl.
  destruct (decide (y = x)); [by eexists |].
  destruct IH as [l' ->]; [| by eexists].
  apply elem_of_cons in Hin as [-> | Hin]; done.
Qed.

Lemma list_remove_subseteq {A : Type} `{EqDecision A} (x : A) (l l' : list A) :
  list_remove x l = Ok l' → l' ⊆ l.
Proof. pure_ctx.
  intros (l1 & l2 & -> & -> & _)%list_remove_Ok.
  intros y. rewrite !elem_of_app, elem_of_cons. tauto.
Qed.

Lemma valid_list_subseteq (pl pl' : list nat) (st st' : Store) :
  valid_list pl st → pl' ⊆ pl → length (pallets st) = length (pallets st') →
  valid_list pl' st'.
Proof.
  unfold valid_list. rewrite !Forall_forall. intros H Hsub <- p Hp. auto.
Qed.

Lemma build_pallet_cap (s : Solver) (o : OrderLine) (pl pl' : list nat)
    (st st' : Store) :
  ol_weight o ≤ self_pallet_max_weight s ∧ ol_volume o ≤ self_max_volume s →
  store_ok s st → valid_list pl st →
  build_pallet s pl st o = Ok (pl', st') →
  store_ok s st' ∧ valid_list pl' st'.
Proof.
  intros [Hw Hv] Hok Hval.
  destruct (build_pallet_cases s pl st o)
    as [-> | (P & -> & HmW & HmV & HW & HV & _)]; [done |].
  intros [= <- <-]. split.
  - unfold store_ok. simpl. apply Forall_app. split; [done |].
    apply Forall_singleton. unfold cap_ok. split_and!; [done | done | lia | lia].
  - unfold valid_list in *. simpl. rewrite length_app. simpl.
    apply Forall_app. split.
    + eapply Forall_impl; [exact Hval |]. simpl. lia.
    + apply Forall_singleton. lia.
Qed.

Lemma dummy_loop_cap (s : Solver) (l : list OrderLine) :
  ∀ acc res,
    Forall (λ o, ol_weight o ≤ self_pallet_max_weight s ∧
                 ol_volume o ≤ self_max_volume s) l →
    store_ok s acc.2 → valid_list acc.1 acc.2 →
    foldM (λ acc orderline, build_pallet s acc.1 acc.2 orderline) acc l = Ok res →
    store_ok s res.2 ∧ valid_list res.1 res.2.
Proof.
  induction l as [| o l IH]; intros acc res Hfit Hok Hval; simpl.
  - by intros [= <-].
  - apply Forall_cons in Hfit as [Ho Hl].
    destruct (build_pallet s acc.1 acc.2 o) as [[pl' st'] |] eqn:Hb; [| done].
    simpl. apply build_pallet_cap in Hb as [Hok' Hval']; [| done ..].
    by apply IH.
Qed.

(** A successful merge keeps the store within capacity when the sum of
    the two loads fits the host. *)
Lemma absorb_cap (s : Solver) (host hosted : nat) (pc : list Case) (lm : LayersMap)
    (pl pl' : list nat) (st st' : Store) :
  store_ok s st → valid_list pl st →
  ((host < length (pallets st))%nat →
     weight (deref st host) + weight (deref st hosted) ≤ maxWeight (deref st host) ∧
     volume (deref st host) + volume (deref st hosted) ≤ maxVolume (deref st host)) →
  absorb host hosted pc lm pl st = Ok (pl', st') →
  store_ok s st' ∧ valid_list pl' st'.
Proof.
  intros Hok Hval Hfit. unfold absorb.
  destruct (list_remove hosted pl) as [pl'' |] eqn:Hrm; [| done].
  simpl. intros [= <- <-]. split.
  - unfold store_ok. simpl. apply Forall_cap_insert; [done |].
    intros Hlt. destruct (Hfit Hlt) as [Hw Hv].
    destruct (store_ok_deref s st host Hok Hlt) as (HmW & HmV & _ & _).
    unfold cap_ok. simpl. by split_and!.
  - eapply valid_list_subseteq; [exact Hval | by eapply list_remove_subseteq |].
    simpl. by rewrite length_insert.
Qed.

Lemma merge_edge_cap (s : Solver) (e : Edge) (pl pl' : list nat) (st st' : Store) :
  store_ok s st → valid_list pl st →
  merge_edge pl st e = Ok (pl', st') →
  store_ok s st' ∧ valid_list pl' st'.
Proof.
  intros Hok Hval. unfold merge_edge.
  destruct (pallet_of st (origin e)) as [host |]; [| done]. rbind.
  destruct (pallet_of st (end_ e)) as [hosted |]; [| done]. rbind.
  destruct (decide (host = hosted)); [by intros [= <- <-] |].
  destruct (volume _ + _ >? _) eqn:Hvol; [intros ?; by simplify_eq |].
  destruct (weight _ + _ >? _) eqn:Hwei; [intros ?; by simplify_eq |].
  unfold pack. destruct (dubePacker _ _) as [[done pc] lm].
  set (st1 := {| pallets := pallets st; ol_pallet := ol_pallet st;
                 packer_calls := _ |}).
  assert (Hok1 : store_ok s st1) by done.
  assert (Hval1 : valid_list pl st1) by done.
  destruct done.
  { apply absorb_cap; [done | done |]. intros _. unfold deref, st1. simpl.
    fold (deref st host) (deref st hosted). lia. }
  destruct (dubePacker _ _) as [[done' pc'] lm'].
  set (st2 := {| pallets := pallets st1; ol_pallet := ol_pallet st1;
                 packer_calls := _ |}).
  destruct done'; [| by intros [= <- <-]].
  apply absorb_cap; [done | done |]. intros Hlt.
  change (deref st2 ?p) with (deref st p).
  pose proof (store_ok_deref s st hosted Hok Hlt) as (HmW & HmV & HW & HV).
  destruct (decide (host < length (pallets st))%nat) as [Hh | Hh].
  - pose proof (store_ok_deref s st host Hok Hh) as (HmW' & HmV' & _ & _). lia.
  - rewrite (deref_ge st host) in * by lia. simpl in *. lia.
Qed.

Lemma merging_cap (s : Solver) (beta : float) (n : nat) :
  ∀ arr pos pl st pl' st' pos',
    store_ok s st → valid_list pl st →
    merging beta n arr pos pl st = Ok (pl', st', pos') →
    store_ok s st' ∧ valid_list pl' st'.
Proof.
  induction n as [| n IH]; intros arr pos pl st pl' st' pos' Hok Hval; simpl.
  - by intros [= <- <- <-].
  - destruct (bra_draw beta arr pos) as [[e arr'] |]; [| done]. simpl.
    destruct (merge_edge pl st e) as [[pl1 st1] |] eqn:Hm; [| done]. simpl.
    apply (merge_edge_cap s) in Hm as [Hok1 Hval1]; [| done ..].
    by apply IH.
Qed.

Lemma insert_sorted_perm {A : Type} (before : A → A → bool) (x : A) (l : list A) :
  insert_sorted before x l ≡ₚ x :: l.
Proof.
  induction l as [| y l IH]; simpl; [done |].
  destruct (before y x); [| done]. rewrite IH. apply Permutation_swap.
Qed.

Lemma sorted_perm {A : Type} (before : A → A → bool) (l : list A) :
  sorted before l ≡ₚ l.
Proof.
  induction l as [| x l IH]; simpl; [done |].
  rewrite insert_sorted_perm. by rewrite IH.
Qed.

Lemma keyed_loop_fst (st : Store) (l : list nat) :
  ∀ acc res,
    foldM (λ acc p, k ← strength_key st p; Ok (acc ++ [(p, k)])) acc l = Ok res →
    res.*1 = acc.*1 ++ l.
Proof.
  induction l as [| p l IH]; intros acc res; simpl.
  - intros [= <-]. by rewrite app_nil_r.
  - destruct (strength_key st p) as [k |]; [| done]. rbind.
    intros ->%IH. rewrite fmap_app. simpl. by rewrite <- app_assoc.
Qed.

Lemma sort_by_strength_perm (st : Store) (pl pl' : list nat) :
  sort_by_strength st pl = Ok pl' → pl' ≡ₚ pl.
Proof.
  unfold sort_by_strength.
  destruct (foldM _ _ _) as [keyed |] eqn:Hk; [| done]. rbind.
  intros [= <-]. apply keyed_loop_fst in Hk. simpl in Hk. rewrite <- Hk.
  apply fmap_Permutation, sorted_perm.
Qed.

Lemma merge_pair_cap (s : Solver) (st : Store) (ij : nat * nat) :
  store_ok s st →
  store_ok s (merge_pair st ij) ∧
  length (pallets (merge_pair st ij)) = length (pallets st).
Proof.
  intros Hok. unfold merge_pair.
  destruct (active _ && active _); [| done].
  destruct (volume _ + _ >? _) eqn:Hvol; [done |].
  destruct (weight _ + _ >? _) eqn:Hwei; [done |].
  unfold pack. destruct (dubePacker _ _) as [[done pc] lm].
  destruct done; [| done]. simpl. split; [| by rewrite !length_insert].
  unfold store_ok. simpl. apply Forall_cap_insert.
  - apply Forall_cap_insert; [done |]. intros Hlt.
    destruct (store_ok_deref s st ij.1 Hok Hlt) as (HmW & HmV & _ & _).
    unfold cap_ok. simpl. split_and!; [done | done | lia | lia].
  - rewrite length_insert. intros Hlt.
    destruct (store_ok_deref s st ij.2 Hok Hlt) as (HmW & HmV & HW & HV).
    unfold cap_ok. by simpl.
Qed.

Lemma merge_pairs_cap (s : Solver) (l : list (nat * nat)) :
  ∀ st, store_ok s st →
    store_ok s (foldl merge_pair st l) ∧
    length (pallets (foldl merge_pair st l)) = length (pallets st).
Proof.
  induction l as [| ij l IH]; intros st Hok; simpl; [done |].
  destruct (merge_pair_cap s st ij Hok) as [Hok' Hlen].
  destruct (IH _ Hok') as [Hok'' Hlen']. split; [done | lia].
Qed.

(** C1. Starting from a store whose pallets have the configuration of
    the solver and are within their bounds, and with order lines that
    each fit an empty pallet by weight and by volume, every pallet of a
    solution returned by [heuristic] or by [sequential] exists, has the
    configured bounds, and carries a weight and a volume within them. *)
Theorem capacity_invariant (s : Solver) (beta : float) (st : Store) (pos : nat) :
  store_ok s st →
  lines_fit s →
  (∀ sol st' pos', heuristic s beta st pos = Ok (sol, st', pos') →
     Forall (λ p, within_capacity st' p ∧ cap_ok s (deref st' p)) sol) ∧
  (∀ sol st', sequential s st = Ok (sol, st') →
     Forall (λ p, within_capacity st' p ∧ cap_ok s (deref st' p)) sol).
Proof.
  intros Hok Hfit.
  assert (Hfinal : ∀ sol st', store_ok s st' → valid_list sol st' →
            Forall (λ p, within_capacity st' p ∧ cap_ok s (deref st' p)) sol).
  { intros sol st' Hok' Hval. unfold valid_list in Hval.
    eapply Forall_impl; [exact Hval |]. intros p Hp. simpl in Hp.
    pose proof (store_ok_deref s st' p Hok' Hp) as Hc. split; [| done].
    destruct Hc as (_ & _ & HW & HV). by split_and!. }
  split.
  - intros sol st' pos'. unfold heuristic, dummy_solution.
    destruct (foldM _ _ _) as [[pl st1] |] eqn:Hd; [| done]. rbind.
    apply (dummy_loop_cap s) in Hd as [Hok1 Hval1]; [| done | done | by constructor].
    intros Hm. apply (merging_cap s) in Hm as [Hok' Hval']; [| done ..].
    by apply Hfinal.
  - intros sol st'. unfold sequential, dummy_solution.
    destruct (foldM _ _ _) as [[pl st1] |] eqn:Hd; [| done]. rbind.
    apply (dummy_loop_cap s) in Hd as [Hok1 Hval1]; [| done | done | by constructor].
    simpl in Hok1, Hval1.
    destruct (sort_by_strength st1 pl) as [pl' |] eqn:Hs; [| done]. rbind.
    intros [= <- <-]. apply sort_by_strength_perm in Hs.
    destruct (merge_pairs_cap s (permutations2 pl') st1 Hok1) as [Hok2 Hlen].
    apply Hfinal; [done |]. unfold valid_list in *. rewrite Hlen.
    apply Forall_forall. intros p [_ Hp]%list_elem_of_filter.
    rewrite Forall_forall in Hval1. apply Hval1. by rewrite <- Hs.
Qed.

(** ** A merge that fails in both orientations *)

(** C8. An edge whose two pallets differ and pass the capacity checks,
    and for which the Packing Oracle fails in the forward orientation:
    the oracle is invoked once more, with host and hosted swapped, and
    not again.  If that attempt fails too, the body of the loop leaves
    the working list, every pallet and every binding of an order line
    as they were, and the sweep goes on with the next draw of the
    generator. *)
Theorem failed_merge_atomic (pl : list nat) (st : Store) (e : Edge)
    (host hosted : nat) :
  pallet_of st (origin e) = Ok host →
  pallet_of st (end_ e) = Ok hosted →
  host ≠ hosted →
  volume (deref st host) + volume (deref st hosted) ≤ maxVolume (deref st host) →
  weight (deref st host) + weight (deref st hosted) ≤ maxWeight (deref st host) →
  (dubePacker (deref st host) (Load (deref st hosted))).1.1 = false →
  let attempts := [(deref st host, Load (deref st hosted));
                   (deref st hosted, Load (deref st host))] in
  (∀ pl' st', merge_edge pl st e = Ok (pl', st') →
     packer_calls st' = packer_calls st ++ attempts) ∧
  ((dubePacker (deref st hosted) (Load (deref st host))).1.1 = false →
     merge_edge pl st e = Ok (pl, with_calls st attempts) ∧
     pallets (with_calls st attempts) = pallets st ∧
     ol_pallet (with_calls st attempts) = ol_pallet st ∧
     ∀ beta n arr arr' pos,
       bra_draw beta arr pos = Ok (e, arr') →
       merging beta (S n) arr pos pl st
       = merging beta n arr' (S pos) pl (with_calls st attempts)).
Proof.
  intros Ha Hb Hne Hvol Hwei Hfwd attempts.
  assert (Hstep : merge_edge pl st e
            = let '(done, pc, lm) :=
                dubePacker (deref st hosted) (Load (deref st host)) in
              if done
              then absorb hosted host pc lm pl (with_calls st attempts)
              else Ok (pl, with_calls st attempts)).
  { unfold merge_edge. rewrite Ha, Hb. rbind.
    destruct (decide (host = hosted)); [done |].
    destruct (volume _ + _ >? _) eqn:E1; [lia |].
    destruct (weight _ + _ >? _) eqn:E2; [lia |].
    unfold pack. destruct (dubePacker (deref st host) _) as [[done pc] lm].
    simpl in Hfwd. subst done.
    change (deref {| pallets := pallets st; ol_pallet := _; packer_calls := _ |} ?p)
      with (deref st p).
    destruct (dubePacker (deref st hosted) _) as [[done' pc'] lm'].
    unfold with_calls, attempts. cbn [pallets ol_pallet packer_calls].
    by rewrite <- app_assoc. }
  split.
  - intros pl' st'. rewrite Hstep.
    destruct (dubePacker (deref st hosted) _) as [[done' pc'] lm'].
    destruct done'; [| by intros [= <- <-]].
    unfold absorb. destruct (list_remove host pl); [| done]. rbind.
    by intros [= <- <-].
  - intros Hbwd. rewrite Hstep.
    destruct (dubePacker (deref st hosted) _) as [[done' pc'] lm'].
    simpl in Hbwd. subst done'. split_and!; [done | done | done |].
    intros beta n arr arr' pos Hdraw.
    cbn [merging]. rewrite Hdraw. rbind. by rewrite Hstep.
Qed.

(** ** The working list and the bindings of the order lines *)

Lemma rebind_lookup (host : nat) (lines : gset nat) (m : gmap nat nat) (i : nat) :
  rebind host lines m !! i = if decide (i ∈ lines) then Some host else m !! i.
Proof.
  assert (H : (i ∈ lines → rebind host lines m !! i = Some host) ∧
              (i ∉ lines → rebind host lines m !! i = m !! i)).
  { unfold rebind.
    apply (set_fold_ind_L
             (λ r X, (i ∈ X → r !! i = Some host) ∧ (i ∉ X → r !! i = m !! i))).
    - split; [by intros ?%not_elem_of_empty | done].
    - intros x X r Hx [IH1 IH2]. destruct (decide (x = i)) as [-> | Hne].
      + rewrite lookup_insert_eq. split; [done |].
        intros []. apply elem_of_union_l. by apply elem_of_singleton.
      + rewrite lookup_insert_ne by done. split.
        * intros [?%elem_of_singleton | ?]%elem_of_union; [done | auto].
        * intros Hn. apply IH2. intros ?. apply Hn. by apply elem_of_union_r. }
  destruct H as [H1 H2]. destruct (decide (i ∈ lines)); auto.
Qed.

Lemma deref_insert_eq (st : Store) (p : nat) (P : Pallet) :
  (p < length (pallets st))%nat → <[p := P]> (pallets st) !!! p = P.
Proof. apply list_lookup_total_insert_eq. Qed.

Lemma deref_insert_ne (st : Store) (p q : nat) (P : Pallet) :
  p ≠ q → <[p := P]> (pallets st) !!! q = deref st q.
Proof. intros. by apply list_lookup_total_insert_ne. Qed.

(** The construction of one pallet keeps the agreement, for the order
    lines built so far. *)
Lemma build_pallet_wf (s : Solver) (ids : list nat) (base : nat) (o : OrderLine)
    (pl pl' : list nat) (st st' : Store) :
  wf_state ids base pl st →
  ol_id o ∉ ids →
  build_pallet s pl st o = Ok (pl', st') →
  wf_state (ids ++ [ol_id o]) base pl' st'.
Proof.
  intros [Hst Hbase Hnd Hval Hbd Hmem Hlin Hne] Hfresh.
  destruct (build_pallet_cases s pl st o)
    as [-> | (P & -> & _ & _ & _ & _ & HP & _)]; [done |].
  intros [= <- <-].
  set (addr := length (pallets st)).
  assert (Hnew : addr ∉ pl).
  { intros Hin. apply Hval in Hin. unfold addr in Hin. lia. }
  assert (Hold : ∀ p, p ∈ pl →
            deref {| pallets := pallets st ++ [P];
                     ol_pallet := <[ol_id o := addr]> (ol_pallet st);
                     packer_calls := packer_calls st ++
                       [(Pallet_new (self_pallet_size s) (self_pallet_max_weight s),
                         Line o)] |} p = deref st p).
  { intros p Hp. unfold deref. simpl. apply Hval in Hp.
    rewrite !list_lookup_total_alt. by rewrite lookup_app_l by lia. }
  assert (Hadd : deref {| pallets := pallets st ++ [P];
                     ol_pallet := <[ol_id o := addr]> (ol_pallet st);
                     packer_calls := packer_calls st ++
                       [(Pallet_new (self_pallet_size s) (self_pallet_max_weight s),
                         Line o)] |} addr = P).
  { unfold deref, addr. simpl. rewrite list_lookup_total_alt.
    by rewrite list_lookup_middle. }
  split.
  - intros i p. simpl. rewrite length_app. simpl.
    destruct (decide (i = ol_id o)) as [-> | Hi].
    + rewrite lookup_insert_eq. intros [= <-]. unfold addr. lia.
    + rewrite lookup_insert_ne by done. intros H%Hst. lia.
  - simpl. rewrite length_app. lia.
  - apply NoDup_app. split_and!; [done | | apply NoDup_singleton].
    intros p Hp ->%list_elem_of_singleton. done.
  - intros p [Hp | ->%list_elem_of_singleton]%elem_of_app; simpl;
      rewrite length_app; simpl.
    + apply Hval in Hp. lia.
    + unfold addr. lia.
  - intros i [Hi | ->%list_elem_of_singleton]%elem_of_app; simpl.
    + destruct (Hbd i Hi) as (p & Hp & Hin). exists p.
      rewrite lookup_insert_ne by (by intros <-).
      split; [done |]. apply elem_of_app. by left.
    + exists addr. rewrite lookup_insert_eq. split; [done |].
      apply elem_of_app. right. by apply list_elem_of_singleton.
  - intros p i [Hp | ->%list_elem_of_singleton]%elem_of_app.
    + rewrite (Hold p Hp). cbn [ol_pallet].
      destruct (decide (i = ol_id o)) as [-> | Hi].
      * rewrite lookup_insert_eq. split.
        -- intros Hin. by apply Hlin in Hin.
        -- intros [= <-]. done.
      * rewrite lookup_insert_ne by done. by apply Hmem.
    + rewrite Hadd, HP. cbn [ol_pallet]. rewrite elem_of_singleton.
      destruct (decide (i = ol_id o)) as [-> | Hi].
      * by rewrite lookup_insert_eq.
      * rewrite lookup_insert_ne by done. split; [done |].
        intros H%Hst. unfold addr in H. lia.
  - intros p i [Hp | ->%list_elem_of_singleton]%elem_of_app.
    + rewrite (Hold p Hp). intros Hin. apply elem_of_app. left. eauto.
    + rewrite Hadd, HP. intros ->%elem_of_singleton.
      apply elem_of_app. right. by apply list_elem_of_singleton.
  - intros p [Hp | ->%list_elem_of_singleton]%elem_of_app.
    + rewrite (Hold p Hp). auto.
    + rewrite Hadd, HP. exists (ol_id o). by apply elem_of_singleton.
Qed.

Lemma dummy_loop_wf (s : Solver) (base : nat) (l : list OrderLine) :
  ∀ ids acc res,
    wf_state ids base acc.1 acc.2 →
    NoDup (ids ++ (ol_id <$> l)) →
    foldM (λ acc orderline, build_pallet s acc.1 acc.2 orderline) acc l = Ok res →
    wf_state (ids ++ (ol_id <$> l)) base res.1 res.2.
Proof.
  induction l as [| o l IH]; intros ids acc res Hwf Hnd.
  - simpl. intros [= <-]. by rewrite app_nil_r.
  - rewrite fmap_cons, (cons_middle (ol_id o)), app_assoc in Hnd |- *.
    cbn [foldM].
    destruct (build_pallet s acc.1 acc.2 o) as [[pl' st'] |] eqn:Hb; [| done].
    rbind. intros Hrest.
    apply (build_pallet_wf s ids base) in Hb; [| done |].
    + by apply (IH _ (pl', st')).
    + apply NoDup_app in Hnd as (Hnd & _ & _).
      apply NoDup_app in Hnd as (_ & Hdisj & _). intros Hin.
      apply (Hdisj _ Hin). by apply list_elem_of_singleton.
Qed.

Lemma wf_state_init (st : Store) :
  store_wf st → wf_state [] (length (pallets st)) [] st.
Proof.
  intros Hst. split; try done.
  - apply NoDup_nil_2.
  - by intros p ?%elem_of_nil.
  - by intros i ?%elem_of_nil.
  - by intros p i ?%elem_of_nil.
  - by intros p i ?%elem_of_nil.
  - by intros p ?%elem_of_nil.
Qed.

Lemma dummy_solution_wf (s : Solver) (st : Store) (pl : list nat) (st' : Store) :
  NoDup (line_ids s) → store_wf st →
  dummy_solution s st = Ok (pl, st') →
  wf_state (line_ids s) (length (pallets st)) pl st'.
Proof.
  intros Hnd Hst Hd.
  apply (dummy_loop_wf s (length (pallets st)) _ [] ([], st) (pl, st'));
    [by apply wf_state_init | done | done].
Qed.

Lemma wf_state_same (ids : list nat) (base : nat) (pl : list nat) (st st1 : Store) :
  pallets st1 = pallets st → ol_pallet st1 = ol_pallet st →
  wf_state ids base pl st → wf_state ids base pl st1.
Proof.
  destruct st, st1. simpl. intros -> ->. intros []. by split.
Qed.

Lemma list_remove_NoDup {A : Type} `{EqDecision A} (x : A) (l l' : list A) :
  NoDup l → list_remove x l = Ok l' →
  NoDup l' ∧ (∀ p, p ∈ l' ↔ p ∈ l ∧ p ≠ x) ∧ l ≡ₚ x :: l'.
Proof. pure_ctx.
  intros Hnd (l1 & l2 & -> & -> & Hx)%list_remove_Ok.
  apply NoDup_app in Hnd as (Hnd1 & Hdisj & Hnd2).
  apply NoDup_cons in Hnd2 as [Hx2 Hnd2].
  split_and!.
  - apply NoDup_app. split_and!; [done | | done].
    intros p Hp1 Hp2. apply (Hdisj p Hp1). by right.
  - intros p. rewrite !elem_of_app, elem_of_cons. split.
    + intros [Hp | Hp]; (split; [tauto |]); by intros ->.
    + tauto.
  - by rewrite Permutation_middle.
Qed.

(** A successful merge of two different pallets of the working list
    keeps the agreement of the list and the store. *)
Lemma absorb_wf (ids : list nat) (base : nat) (host hosted : nat) (pc : list Case)
    (lm : LayersMap) (pl pl' : list nat) (st st' : Store) :
  wf_state ids base pl st →
  host ∈ pl → hosted ∈ pl → host ≠ hosted →
  absorb host hosted pc lm pl st = Ok (pl', st') →
  wf_state ids base pl' st'.
Proof. pure_ctx.
  intros [Hst Hbase Hnd Hval Hbd Hmem Hlin Hne] Hh Hd Hneq. unfold absorb.
  destruct (list_remove hosted pl) as [pl'' |] eqn:Hrm; [| done]. rbind.
  intros [= <- <-].
  destruct (list_remove_NoDup hosted pl pl'' Hnd Hrm) as (Hnd' & Hin' & _).
  set (H' := {| maxWeight := _ |}).
  set (st' := {| pallets := _ |}).
  assert (Hhost : deref st' host = H').
  { unfold deref, st'. simpl. apply deref_insert_eq. by apply Hval. }
  assert (Hother : ∀ p, p ≠ host → deref st' p = deref st p).
  { intros p Hp. unfold deref at 1, st'. simpl. by apply deref_insert_ne. }
  assert (Hbind : ∀ i, ol_pallet st' !! i
                       = if decide (i ∈ orderlines (deref st hosted))
                         then Some host else ol_pallet st !! i).
  { intros i. unfold st'. simpl. apply rebind_lookup. }
  split.
  - intros i p. rewrite Hbind. unfold st'. simpl. rewrite length_insert.
    case_decide; [intros [= <-]; by apply Hval | apply Hst].
  - unfold st'. simpl. by rewrite length_insert.
  - done.
  - intros p [Hp _]%Hin'. unfold st'. simpl. rewrite length_insert. auto.
  - intros i Hi. destruct (Hbd i Hi) as (p & Hp & Hpin). rewrite Hbind.
    case_decide as Hc.
    + exists host. split; [done |]. by apply Hin'.
    + exists p. split; [done |]. apply Hin'. split; [done |].
      intros ->. apply Hc. by apply Hmem.
  - intros p i [Hp Hpne]%Hin'. rewrite Hbind.
    destruct (decide (p = host)) as [-> | Hph].
    + rewrite Hhost. unfold H'. simpl. rewrite elem_of_union.
      case_decide as Hc; [tauto |]. rewrite (Hmem host i Hh). tauto.
    + rewrite (Hother p Hph). rewrite (Hmem p i Hp).
      case_decide as Hc; [| done].
      apply (Hmem hosted i Hd) in Hc. rewrite Hc.
      split; intros [= ?]; congruence.
  - intros p i [Hp Hpne]%Hin'.
    destruct (decide (p = host)) as [-> | Hph].
    + rewrite Hhost. unfold H'. simpl. rewrite elem_of_union.
      intros [? | ?]; eauto.
    + rewrite (Hother p Hph). eauto.
  - intros p [Hp Hpne]%Hin'.
    destruct (decide (p = host)) as [-> | Hph].
    + rewrite Hhost. unfold H'. simpl. destruct (Hne host Hh) as [i Hi].
      exists i. apply elem_of_union. by left.
    + rewrite (Hother p Hph). auto.
Qed.

Lemma pallet_of_bound (s : Solver) (base : nat) (pl : list nat) (st : Store)
    (o : OrderLine) :
  wf_state (line_ids s) base pl st → o ∈ self_orderlines s →
  ∃ p, pallet_of st o = Ok p ∧ p ∈ pl.
Proof.
  intros Hwf Ho. destruct (wf_bound _ _ _ _ Hwf (ol_id o)) as (p & Hp & Hin).
  { unfold line_ids. apply list_elem_of_fmap. eauto. }
  exists p. unfold pallet_of. by rewrite Hp.
Qed.

Lemma merge_edge_wf (s : Solver) (base : nat) (e : Edge) (pl pl' : list nat)
    (st st' : Store) :
  solver_wf s → wf_state (line_ids s) base pl st → e ∈ self_edges s →
  merge_edge pl st e = Ok (pl', st') →
  wf_state (line_ids s) base pl' st'.
Proof.
  intros [_ Hedges] Hwf He. destruct (Hedges e He) as [Ho Hd].
  destruct (pallet_of_bound s base pl st _ Hwf Ho) as (host & Hhost & Hhin).
  destruct (pallet_of_bound s base pl st _ Hwf Hd) as (hosted & Hhosted & Hdin).
  unfold merge_edge. rewrite Hhost, Hhosted. rbind.
  destruct (decide (host = hosted)); [intros ?; by simplify_eq |].
  destruct (volume _ + _ >? _); [intros ?; by simplify_eq |].
  destruct (weight _ + _ >? _); [intros ?; by simplify_eq |].
  unfold pack. destruct (dubePacker _ _) as [[done pc] lm].
  destruct done.
  { apply absorb_wf; [| done ..]. by apply (wf_state_same _ _ _ st). }
  destruct (dubePacker _ _) as [[done' pc'] lm'].
  destruct done'.
  - apply absorb_wf; [| done ..]. by apply (wf_state_same _ _ _ st).
  - intros [= <- <-]. by apply (wf_state_same _ _ _ st).
Qed.

(** The agreement holds in every state the merging loop can be in. *)
Lemma reachable_wf (s : Solver) (st0 : Store) (pl : list nat) (st : Store) :
  solver_wf s → store_wf st0 → reachable s st0 pl st →
  wf_state (line_ids s) (length (pallets st0)) pl st.
Proof.
  intros Hs Hst. induction 1 as [pl st Hd | pl st e pl' st' _ IH He Hm].
  - apply (dummy_solution_wf s st0); [apply Hs | done | done].
  - by apply (merge_edge_wf s _ e pl pl' st st').
Qed.

Lemma bra_draw_elem {A : Type} (beta : float) (arr arr' : list A) (pos : nat) (x : A) :
  bra_draw beta arr pos = Ok (x, arr') → x ∈ arr ∧ arr' ⊆ arr.
Proof.
  intros (i & Hi & ->)%bra_draw_inv. split.
  - by eapply list_elem_of_lookup_2.
  - apply sublist_subseteq, sublist_delete.
Qed.

(** The states of a run of the merging loop are reachable states. *)
Lemma merging_reachable (s : Solver) (st0 : Store) (beta : float) (n : nat) :
  ∀ arr pos pl st pl' st' pos',
    arr ⊆ self_edges s →
    reachable s st0 pl st →
    merging beta n arr pos pl st = Ok (pl', st', pos') →
    reachable s st0 pl' st'.
Proof.
  induction n as [| n IH]; intros arr pos pl st pl' st' pos' Harr Hr; simpl.
  - by intros [= <- <- <-].
  - destruct (bra_draw beta arr pos) as [[e arr'] |] eqn:Hd; [| done]. rbind.
    apply bra_draw_elem in Hd as [He Hsub].
    destruct (merge_edge pl st e) as [[pl1 st1] |] eqn:Hm; [| done]. rbind.
    apply IH; [by etrans |]. eapply reach_merge; eauto.
Qed.

(** ** Successful merges *)

Lemma elem_of_all_lines (pl : list nat) (st : Store) (i : nat) :
  i ∈ all_lines pl st ↔ ∃ p, p ∈ pl ∧ i ∈ orderlines (deref st p).
Proof.
  unfold all_lines. rewrite elem_of_union_list. split.
  - intros (X & (p & -> & Hp)%list_elem_of_fmap & Hi). eauto.
  - intros (p & Hp & Hi). exists (orderlines (deref st p)). split; [| done].
    apply list_elem_of_fmap. eauto.
Qed.

(** What a successful merge of two different pallets of the working
    list does. *)
Lemma absorb_spec (ids : list nat) (base : nat) (host hosted : nat) (pc : list Case)
    (lm : LayersMap) (pl : list nat) (st : Store) :
  wf_state ids base pl st →
  host ∈ pl → hosted ∈ pl → host ≠ hosted →
  ∃ pl' st',
    absorb host hosted pc lm pl st = Ok (pl', st') ∧
    wf_state ids base pl' st' ∧
    all_lines pl' st' = all_lines pl st ∧
    weight (deref st' host) = weight (deref st host) + weight (deref st hosted) ∧
    volume (deref st' host) = volume (deref st host) + volume (deref st hosted) ∧
    orderlines (deref st' host)
      = orderlines (deref st host) ∪ orderlines (deref st hosted) ∧
    cases (deref st' host) = pc ∧
    layersMap (deref st' host) = lm ∧
    (∀ p, p ≠ host → deref st' p = deref st p) ∧
    (host ∈ pl' ∧ (hosted ∉ pl') ∧ pl ≡ₚ (hosted :: pl')) ∧
    (∀ i, ol_pallet st' !! i
          = if decide (i ∈ orderlines (deref st hosted))
            then Some host else ol_pallet st !! i) ∧
    packer_calls st' = packer_calls st ∧
    maxWeight (deref st' host) = maxWeight (deref st host) ∧
    maxVolume (deref st' host) = maxVolume (deref st host).
Proof.
  intros Hwf Hh Hd Hneq.
  destruct (list_remove_elem hosted pl Hd) as [pl' Hrm].
  destruct (list_remove_NoDup hosted pl pl' (wf_nodup _ _ _ _ Hwf) Hrm)
    as (Hnd' & Hin' & Hperm).
  pose proof (absorb_wf ids base host hosted pc lm pl pl') as Hwf'.
  unfold absorb in *. rewrite Hrm in *. revert Hwf'. rbind.
  set (H' := {| maxWeight := _ |}).
  set (st' := {| pallets := _ |}).
  intros Hwf'. specialize (Hwf' st st' Hwf Hh Hd Hneq eq_refl).
  assert (Hhost : deref st' host = H').
  { unfold deref, st'. simpl. apply deref_insert_eq.
    by apply (wf_valid _ _ _ _ Hwf). }
  assert (Hother : ∀ p, p ≠ host → deref st' p = deref st p).
  { intros p Hp. unfold deref at 1, st'. simpl. by apply deref_insert_ne. }
  assert (Hbind : ∀ i, ol_pallet st' !! i
                       = if decide (i ∈ orderlines (deref st hosted))
                         then Some host else ol_pallet st !! i).
  { intros i. unfold st'. simpl. apply rebind_lookup. }
  assert (Hhin' : host ∈ pl') by by apply Hin'.
  exists pl', st'. split_and!; try done; try by rewrite Hhost.
  - apply set_eq. intros i. rewrite !elem_of_all_lines. split.
    + intros (p & Hp & Hi).
      apply (wf_member _ _ _ _ Hwf' p i Hp) in Hi. rewrite Hbind in Hi.
      case_decide as Hc; [by eauto |].
      exists p. split; [by apply Hin' |].
      apply (wf_member _ _ _ _ Hwf); [by apply Hin' | done].
    + intros (q & Hq & Hi).
      destruct (decide (i ∈ orderlines (deref st hosted))) as [Hc | Hc].
      * exists host. split; [done |].
        apply (wf_member _ _ _ _ Hwf'); [done |].
        rewrite Hbind. by rewrite decide_True.
      * assert (q ≠ hosted) by (by intros ->).
        exists q. split; [by apply Hin' |].
        apply (wf_member _ _ _ _ Hwf'); [by apply Hin' |].
        rewrite Hbind. rewrite decide_False by done.
        by apply (wf_member _ _ _ _ Hwf).
  - intros [_ ?]%Hin'. done.
Qed.

(** C2. In a state the merging loop can be in, for an edge of the
    solver whose two pallets differ and pass the capacity checks and
    that the Packing Oracle accepts in the forward orientation or, that
    failing, in the reverse one: the body of the loop returns; the order
    lines found on the pallets of the working list are the same set as
    before and each order line of the solver is on exactly one pallet of
    the list; the weight and the volume of the surviving pallet are the
    sums of those of the two pallets and it holds the order lines of
    both; the absorbed pallet has left the working list, which is
    otherwise unchanged; every order line that was on the absorbed
    pallet is bound to the surviving one. *)
Theorem merge_conservation (s : Solver) (st0 : Store) (pl : list nat) (st : Store)
    (e : Edge) (a b : nat) :
  solver_wf s → store_wf st0 →
  reachable s st0 pl st → e ∈ self_edges s →
  pallet_of st (origin e) = Ok a →
  pallet_of st (end_ e) = Ok b →
  a ≠ b →
  volume (deref st a) + volume (deref st b) ≤ maxVolume (deref st a) →
  weight (deref st a) + weight (deref st b) ≤ maxWeight (deref st a) →
  let forward := (dubePacker (deref st a) (Load (deref st b))).1.1 in
  let reverse := (dubePacker (deref st b) (Load (deref st a))).1.1 in
  forward = true ∨ reverse = true →
  let host := if forward then a else b in
  let hosted := if forward then b else a in
  ∃ pl' st',
    merge_edge pl st e = Ok (pl', st') ∧
    all_lines pl' st' = all_lines pl st ∧
    (∀ o, o ∈ self_orderlines s →
       ∃ p, (p ∈ pl' ∧ ol_id o ∈ orderlines (deref st' p)) ∧
            ∀ q, q ∈ pl' → ol_id o ∈ orderlines (deref st' q) → q = p) ∧
    weight (deref st' host) = weight (deref st a) + weight (deref st b) ∧
    volume (deref st' host) = volume (deref st a) + volume (deref st b) ∧
    orderlines (deref st' host) = orderlines (deref st a) ∪ orderlines (deref st b) ∧
    host ∈ pl' ∧ (hosted ∉ pl') ∧ pl ≡ₚ (hosted :: pl') ∧
    (∀ i, i ∈ orderlines (deref st hosted) → ol_pallet st' !! i = Some host).
Proof.
  intros Hs Hst0 Hreach He Ha Hb Hne Hvol Hwei forward reverse Hsucc host hosted.
  pose proof (reachable_wf s st0 pl st Hs Hst0 Hreach) as Hwf.
  destruct Hs as [Hnd Hedges]. destruct (Hedges e He) as [Ho Hd].
  destruct (pallet_of_bound s _ pl st _ Hwf Ho) as (a' & Ha' & Hain).
  destruct (pallet_of_bound s _ pl st _ Hwf Hd) as (b' & Hb' & Hbin).
  assert (a' = a) as -> by congruence. assert (b' = b) as -> by congruence.
  assert (Hexactly : ∀ pl' st', wf_state (line_ids s) (length (pallets st0)) pl' st' →
            ∀ o, o ∈ self_orderlines s →
              ∃ p, (p ∈ pl' ∧ ol_id o ∈ orderlines (deref st' p)) ∧
                   ∀ q, q ∈ pl' → ol_id o ∈ orderlines (deref st' q) → q = p).
  { intros pl' st' Hwf' o Hin.
    destruct (wf_bound _ _ _ _ Hwf' (ol_id o)) as (p & Hp & Hpin).
    { unfold line_ids. apply list_elem_of_fmap. eauto. }
    exists p. split.
    - split; [done |]. by apply (wf_member _ _ _ _ Hwf').
    - intros q Hq Hi. apply (wf_member _ _ _ _ Hwf' q _ Hq) in Hi. congruence. }
  unfold merge_edge. rewrite Ha, Hb. rbind.
  destruct (decide (a = b)); [done |].
  destruct (volume _ + _ >? _) eqn:E1; [lia |].
  destruct (weight _ + _ >? _) eqn:E2; [lia |].
  unfold pack. subst forward reverse host hosted.
  destruct (dubePacker (deref st a) _) as [[done pc] lm]. simpl in *.
  destruct done.
  - set (st1 := {| pallets := pallets st; ol_pallet := _; packer_calls := _ |}).
    destruct (absorb_spec (line_ids s) (length (pallets st0)) a b pc lm pl st1)
      as (pl' & st' & Habs & Hwf' & Hall & HW & HV & HO & _ & _ & _ &
          (Hin1 & Hin2 & Hperm) & Hbind & _);
      [by apply (wf_state_same _ _ _ st) | done ..|].
    exists pl', st'. split_and!; try done.
    + by apply Hexactly.
    + intros i Hi. rewrite Hbind. by rewrite decide_True.
  - change (deref {| pallets := pallets st; ol_pallet := _; packer_calls := _ |} ?p)
      with (deref st p).
    destruct (dubePacker (deref st b) _) as [[done' pc'] lm']. simpl in *.
    destruct Hsucc as [? | ->]; [done |].
    set (st2 := {| pallets := pallets st; ol_pallet := _; packer_calls := _ |}).
    destruct (absorb_spec (line_ids s) (length (pallets st0)) b a pc' lm' pl st2)
      as (pl' & st' & Habs & Hwf' & Hall & HW & HV & HO & _ & _ & _ &
          (Hin1 & Hin2 & Hperm) & Hbind & _);
      [by apply (wf_state_same _ _ _ st) | done ..|].
    exists pl', st'. split_and!; try done.
    + by apply Hexactly.
    + rewrite HW. change (deref st2 ?p) with (deref st p). lia.
    + rewrite HV. change (deref st2 ?p) with (deref st p). lia.
    + rewrite HO. change (deref st2 ?p) with (deref st p).
      apply (comm_L (∪)).
    + intros i Hi. rewrite Hbind. by rewrite decide_True.
Qed.

(** ** The search driver *)

Lemma non_increasing_cons (x y : Z) (l : list Z) :
  y ≤ x → non_increasing (y :: l) → non_increasing (x :: y :: l).
Proof.
  intros Hxy Hl [| i] a b; simpl.
  - intros [= <-] [= <-]. done.
  - apply Hl.
Qed.

(** One iteration of the loop of the driver, when the clock allows it
    and the heuristic and the cost evaluation return. *)
Lemma search_step (fuel : nat) (s : Solver) (maxtime lo hi start : float)
    (best : list nat) (bestcost : Z) (iterations : nat) (history : list Z)
    (st : Store) (pos tick : nat) (newsol : list nat) (st' : Store) (pos' : nat)
    (newcost : Z) :
  elapsed_lt (clock tick) start maxtime = true →
  heuristic s (uniform lo hi (tape pos)) st (S pos) = Ok (newsol, st', pos') →
  getCost (deref st' <$> newsol) (self_dists s) = Ok newcost →
  search (S fuel) s maxtime lo hi start best bestcost iterations history st pos tick
  = search fuel s maxtime lo hi start
      (if newcost <? bestcost then newsol else best)
      (if newcost <? bestcost then newcost else bestcost)
      (S iterations)
      (history ++ [if newcost <? bestcost then newcost else bestcost])
      st' pos' (S tick).
Proof. intros Ht Hh Hc. cbn [search]. by rewrite Ht, Hh, Hc. Qed.

Lemma min_if (a b : Z) : (if b <? a then b else a) = Z.min a b.
Proof. pure_ctx. destruct (b <? a) eqn:E; [apply Z.ltb_lt in E | apply Z.ltb_ge in E]; lia. Qed.

Lemma best_costs_length (bestcost : Z) (costs : list Z) :
  length (best_costs bestcost costs) = length costs.
Proof. pure_ctx.
  revert bestcost. induction costs as [| c costs IH]; intros bestcost; simpl; [done |].
  by rewrite IH.
Qed.

Lemma best_costs_non_increasing (bestcost : Z) (costs : list Z) :
  non_increasing (bestcost :: best_costs bestcost costs).
Proof. pure_ctx.
  revert bestcost. induction costs as [| c costs IH]; intros bestcost; simpl.
  - intros i x y _ Hy. by destruct i.
  - apply non_increasing_cons; [lia | apply IH].
Qed.

Lemma best_costs_last (bestcost : Z) (costs : list Z) :
  last (bestcost :: best_costs bestcost costs) = Some (foldl Z.min bestcost costs).
Proof. pure_ctx.
  revert bestcost. induction costs as [| c costs IH]; intros bestcost; [done |].
  cbn [best_costs foldl]. rewrite last_cons_cons. apply IH.
Qed.

(** The loop of the driver that ends has made the iterations the clock
    allowed, one run of the heuristic each, and has kept the books
    accordingly. *)
Lemma search_trace (s : Solver) (maxtime lo hi start : float) (fuel : nat) :
  ∀ best bestcost iterations history st pos tick out,
    search fuel s maxtime lo hi start best bestcost iterations history st pos tick
    = Some (Ok out) →
    ∃ runs,
      budget_lasts start maxtime tick (length runs) ∧
      iterations_of (length runs) s lo hi st pos = Ok (runs, out_store out, out_pos out) ∧
      out_iterations out = (iterations + length runs)%nat ∧
      out_history out = history ++ best_costs bestcost runs.*2 ∧
      out_bestcost out = foldl Z.min bestcost runs.*2 ∧
      out_best out = best_solution best bestcost runs ∧
      (length runs < fuel)%nat.
Proof.
  induction fuel as [| fuel IH];
    intros best bestcost iterations history st pos tick out; [done |].
  cbn [search]. destruct (elapsed_lt (clock tick) start maxtime) eqn:Ht.
  - destruct (heuristic _ _ _ _) as [[[newsol st'] pos'] |] eqn:Hh; [| done].
    destruct (getCost _ _) as [newcost |] eqn:Hc; [| done].
    intros (runs & [Hin Hout] & Hruns & Hn & Hhist & Hcost & Hbest & Hfuel)%IH.
    exists ((newsol, newcost) :: runs). cbn [length fmap list_fmap snd].
    split_and!.
    + split.
      * intros [| i] Hi; [by rewrite Nat.add_0_r |].
        replace (tick + S i)%nat with (S tick + i)%nat by lia. apply Hin. lia.
      * by replace (tick + S (length runs))%nat with (S tick + length runs)%nat by lia.
    + cbn [iterations_of]. rewrite Hh. rbind. rewrite Hc. rbind. by rewrite Hruns.
    + lia.
    + rewrite Hhist, <- app_assoc. cbn [best_costs app]. by rewrite !min_if.
    + rewrite Hcost. cbn [foldl]. by rewrite min_if.
    + rewrite Hbest. cbn [best_solution]. by destruct (newcost <? bestcost).
    + lia.
  - intros [= <-]. exists []. cbn. split_and!; try done.
    + split; [intros i Hi; lia | by rewrite Nat.add_0_r].
    + by rewrite app_nil_r.
    + lia.
Qed.

(** Conversely, the loop ends, with these books, when the budget lasts
    for [n] iterations whose runs return and the fuel is above [n]. *)
Lemma search_complete (s : Solver) (maxtime lo hi start : float) :
  ∀ runs best bestcost iterations history st pos tick stN posN fuel,
    budget_lasts start maxtime tick (length runs) →
    iterations_of (length runs) s lo hi st pos = Ok (runs, stN, posN) →
    (length runs < fuel)%nat →
    search fuel s maxtime lo hi start best bestcost iterations history st pos tick
    = Some (Ok {| out_best := best_solution best bestcost runs;
                  out_bestcost := foldl Z.min bestcost runs.*2;
                  out_iterations := iterations + length runs;
                  out_history := history ++ best_costs bestcost runs.*2;
                  out_store := stN;
                  out_pos := posN;
                  out_tick := S (tick + length runs) |}).
Proof.
  induction runs as [| [sol c] runs IH];
    intros best bestcost iterations history st pos tick stN posN fuel [Hin Hout] Hruns Hfuel;
    (destruct fuel as [| fuel]; [cbn [length] in Hfuel; lia |]); cbn [search].
  - cbn [length] in Hout. rewrite Nat.add_0_r in Hout. rewrite Hout.
    cbn [iterations_of] in Hruns. injection Hruns as <- <-.
    cbn. by rewrite app_nil_r, !Nat.add_0_r.
  - cbn [length] in *.
    assert (Ht : elapsed_lt (clock tick) start maxtime = true).
    { rewrite <- (Nat.add_0_r tick). apply Hin. lia. }
    rewrite Ht.
    cbn [iterations_of] in Hruns.
    destruct (heuristic _ _ _ _) as [[[newsol st'] pos'] |]; [| done].
    revert Hruns. rbind.
    destruct (getCost _ _) as [newcost |]; [| done]. rbind.
    destruct (iterations_of _ _ _ _ _ _) as [[[rest st''] pos''] |] eqn:Hrest; [| done].
    rbind. intros [= -> -> -> -> ->].
    rewrite (IH _ _ _ _ st' pos' (S tick) stN posN fuel); [| | done | lia].
    + cbn [best_solution fmap list_fmap snd foldl best_costs].
      do 2 f_equal. rewrite <- app_assoc. cbn [app].
      replace (S iterations + length runs)%nat with (iterations + S (length runs))%nat
        by lia.
      replace (S (S tick + length runs)) with (S (tick + S (length runs))) by lia.
      destruct (c <? bestcost) eqn:E;
        [ apply Z.ltb_lt in E; rewrite !(Z.min_r bestcost c) by lia
        | apply Z.ltb_ge in E; rewrite !(Z.min_l bestcost c) by lia ]; done.
    + split.
      * intros i Hi. replace (S tick + i)%nat with (tick + S i)%nat by lia.
        apply Hin. lia.
      * by replace (S tick + length runs)%nat with (tick + S (length runs))%nat by lia.
Qed.

(** What a call of the driver that returns has done. *)
Lemma call_trace (s : Solver) (maxtime : float) (betarange : float * float)
    (fuel : nat) (st : Store) (pos tick : nat) (out : Outcome) :
  __call__ fuel s maxtime betarange st pos tick = Some (Ok out) →
  ∃ seed st' pos' seedcost runs,
    heuristic s greedy_beta st pos = Ok (seed, st', pos') ∧
    getCost (deref st' <$> seed) (self_dists s) = Ok seedcost ∧
    budget_lasts (clock tick) maxtime (S tick) (length runs) ∧
    iterations_of (length runs) s betarange.1 betarange.2 st' pos'
    = Ok (runs, out_store out, out_pos out) ∧
    out_iterations out = length runs ∧
    out_history out = self_history s ++ best_costs seedcost runs.*2 ∧
    out_bestcost out = foldl Z.min seedcost runs.*2 ∧
    out_best out = best_solution seed seedcost runs.
Proof.
  unfold __call__.
  destruct (heuristic s greedy_beta st pos) as [[[seed st'] pos'] |]; [| done].
  destruct (getCost _ _) as [seedcost |] eqn:Hcost; [| done].
  intros (runs & Hb & Hruns & Hn & Hh & Hc & Hbest & _)%search_trace.
  exists seed, st', pos', seedcost, runs. by split_and!.
Qed.

(** C7. In the loop of the driver the best solution and its cost are
    replaced by the new ones exactly when the new cost is strictly
    lower, and the current best cost is appended to the history, one
    entry per iteration.  A call of [__call__] that returns has made as
    many iterations as the clock allowed: the readings of the clock
    after the start were within the budget for each of them and the next
    one was not.  Each iteration is one run of the heuristic with a beta
    drawn from the range; the iteration count returned is their number,
    the entries appended to the history are the best cost known after
    each run, one per run, the sequence made of the cost of the seeding
    solution followed by these entries is non increasing and ends with
    the best cost returned, which is the least of all the costs, and the
    solution returned is the first one that reached it.  Conversely, when
    the budget lasts for that many iterations and their runs return, the
    call returns, with these results. *)
Theorem driver_monotone (s : Solver) (maxtime : float) (betarange : float * float) :
  (∀ fuel start best bestcost iterations history st pos tick newsol st' pos' newcost,
     elapsed_lt (clock tick) start maxtime = true →
     heuristic s (uniform betarange.1 betarange.2 (tape pos)) st (S pos)
       = Ok (newsol, st', pos') →
     getCost (deref st' <$> newsol) (self_dists s) = Ok newcost →
     ∃ best' bestcost',
       search (S fuel) s maxtime betarange.1 betarange.2 start
              best bestcost iterations history st pos tick
       = search fuel s maxtime betarange.1 betarange.2 start
                best' bestcost' (S iterations) (history ++ [bestcost']) st' pos' (S tick) ∧
       (newcost < bestcost → best' = newsol ∧ bestcost' = newcost) ∧
       (¬ newcost < bestcost → best' = best ∧ bestcost' = bestcost)) ∧
  (∀ fuel st pos tick out,
     __call__ fuel s maxtime betarange st pos tick = Some (Ok out) →
     ∃ seed st' pos' seedcost runs new,
       heuristic s greedy_beta st pos = Ok (seed, st', pos') ∧
       getCost (deref st' <$> seed) (self_dists s) = Ok seedcost ∧
       budget_lasts (clock tick) maxtime (S tick) (length runs) ∧
       iterations_of (length runs) s betarange.1 betarange.2 st' pos'
       = Ok (runs, out_store out, out_pos out) ∧
       new = best_costs seedcost runs.*2 ∧
       out_iterations out = length runs ∧
       out_history out = self_history s ++ new ∧
       length new = out_iterations out ∧
       non_increasing (seedcost :: new) ∧
       last (seedcost :: new) = Some (out_bestcost out) ∧
       out_bestcost out = foldl Z.min seedcost runs.*2 ∧
       out_best out = best_solution seed seedcost runs) ∧
  (∀ st pos tick seed st' pos' seedcost runs stN posN fuel,
     heuristic s greedy_beta st pos = Ok (seed, st', pos') →
     getCost (deref st' <$> seed) (self_dists s) = Ok seedcost →
     budget_lasts (clock tick) maxtime (S tick) (length runs) →
     iterations_of (length runs) s betarange.1 betarange.2 st' pos'
     = Ok (runs, stN, posN) →
     (length runs < fuel)%nat →
     ∃ out,
       __call__ fuel s maxtime betarange st pos tick = Some (Ok out) ∧
       out_iterations out = length runs ∧
       out_history out = self_history s ++ best_costs seedcost runs.*2 ∧
       out_bestcost out = foldl Z.min seedcost runs.*2 ∧
       out_best out = best_solution seed seedcost runs ∧
       out_store out = stN).
Proof.
  split_and!.
  - intros fuel start best bestcost iterations history st pos tick newsol st' pos'
      newcost Ht Hh Hc.
    eexists _, _. split; [by apply search_step |].
    destruct (newcost <? bestcost) eqn:E.
    + apply Z.ltb_lt in E. split; [done | lia].
    + apply Z.ltb_ge in E. split; [lia | done].
  - intros fuel st pos tick out
      (seed & st' & pos' & seedcost & runs & Hs & Hc & Hb & Hr & Hn & Hh & Hcost & Hbest)
        %call_trace.
    exists seed, st', pos', seedcost, runs, (best_costs seedcost runs.*2).
    split_and!; try done.
    + by rewrite best_costs_length, length_fmap.
    + apply best_costs_non_increasing.
    + by rewrite best_costs_last, Hcost.
  - intros st pos tick seed st' pos' seedcost runs stN posN fuel Hs Hc Hb Hr Hfuel.
    eexists. unfold __call__. rewrite Hs, Hc.
    split; [by apply search_complete |]. by cbn.
Qed.

(** C10. A call of [__call__] that returns leaves in [self.history] the
    entries that were there, unchanged and in front, followed by one
    entry per iteration of the loop and nothing else: as many entries as
    the clock allowed iterations (the readings after the start that were
    within the budget), which is the iteration count returned, each the
    best cost known after the run of that iteration.  The cost of the
    seeding solution is not appended: with no iteration the history is
    as it was.  The entries of a second call on the same solver come
    after those of the first. *)
Theorem history_accumulates (s : Solver) (maxtime : float) (betarange : float * float)
    (fuel : nat) (st : Store) (pos tick : nat) (out : Outcome) :
  __call__ fuel s maxtime betarange st pos tick = Some (Ok out) →
  ∃ seed st' pos' seedcost runs new,
    heuristic s greedy_beta st pos = Ok (seed, st', pos') ∧
    getCost (deref st' <$> seed) (self_dists s) = Ok seedcost ∧
    budget_lasts (clock tick) maxtime (S tick) (length runs) ∧
    iterations_of (length runs) s betarange.1 betarange.2 st' pos'
    = Ok (runs, out_store out, out_pos out) ∧
    new = best_costs seedcost runs.*2 ∧
    out_iterations out = length runs ∧
    out_history out = self_history s ++ new ∧
    length new = out_iterations out ∧
    (out_iterations out = 0%nat → out_history out = self_history s) ∧
    ∀ maxtime2 betarange2 fuel2 st2 pos2 tick2 out2,
      __call__ fuel2 (self_after s out) maxtime2 betarange2 st2 pos2 tick2
        = Some (Ok out2) →
      ∃ seedcost2 (runs2 : list (list nat * Z)) new2,
        budget_lasts (clock tick2) maxtime2 (S tick2) (length runs2) ∧
        new2 = best_costs seedcost2 runs2.*2 ∧
        out_iterations out2 = length runs2 ∧
        out_history out2 = self_history s ++ new ++ new2 ∧
        length new2 = out_iterations out2.
Proof.
  intros (seed & st' & pos' & seedcost & runs & Hs & Hc & Hb & Hr & Hn & Hh & _)%call_trace.
  exists seed, st', pos', seedcost, runs, (best_costs seedcost runs.*2).
  split_and!; try done.
  - by rewrite best_costs_length, length_fmap.
  - rewrite Hh, Hn. destruct runs; [| done]. intros _. cbn. by rewrite app_nil_r.
  - intros maxtime2 betarange2 fuel2 st2 pos2 tick2 out2
      (seed2 & st2' & pos2' & seedcost2 & runs2 & _ & _ & Hb2 & _ & Hn2 & Hh2 & _)
        %call_trace.
    exists seedcost2, runs2, (best_costs seedcost2 runs2.*2).
    split_and!; try done.
    + rewrite Hh2. cbn [self_after self_history]. by rewrite Hh, <- app_assoc.
    + by rewrite best_costs_length, length_fmap.
Qed.

(** ** The cost of a solution *)

Lemma insert_sorted_filter {A : Type} (key : A → Z) (v : Z) (x : A) (l : list A) :
  filter (λ e, key e = v) (insert_sorted (λ y x, key y <? key x) x l)
  = filter (λ e, key e = v) (x :: l).
Proof.
  induction l as [| y l IH]; simpl; [done |].
  destruct (key y <? key x) eqn:E; [| done].
  apply Z.ltb_lt in E. rewrite !filter_cons in *.
  destruct (decide (key y = v)), (decide (key x = v)); try lia; by rewrite IH.
Qed.

Lemma insert_sorted_sorted {A : Type} (key : A → Z) (x : A) (l : list A) :
  StronglySorted (λ a b, key a ≤ key b) l →
  StronglySorted (λ a b, key a ≤ key b) (insert_sorted (λ y x, key y <? key x) x l).
Proof.
  induction 1 as [| y l Hl IH Hy]; simpl.
  - repeat constructor.
  - destruct (key y <? key x) eqn:E.
    + apply Z.ltb_lt in E. constructor; [done |].
      rewrite insert_sorted_perm. constructor; [lia | done].
    + apply Z.ltb_ge in E. constructor; [by constructor |].
      constructor; [done |]. eapply Forall_impl; [exact Hy |]. simpl. lia.
Qed.

(** [sorted] with an ascending key sorts, and is stable. *)
Lemma sorted_stable {A : Type} (key : A → Z) (l : list A) :
  StronglySorted (λ a b, key a ≤ key b) (sorted (λ y x, key y <? key x) l) ∧
  ∀ v, filter (λ e, key e = v) (sorted (λ y x, key y <? key x) l)
       = filter (λ e, key e = v) l.
Proof.
  induction l as [| x l [IH1 IH2]]; simpl.
  - split; [constructor | done].
  - split; [by apply insert_sorted_sorted |].
    intros v. rewrite insert_sorted_filter, !filter_cons. by rewrite IH2.
Qed.

(** Two sorted lists with the same entries, layer by layer and in the
    same order within a layer, are equal. *)
Lemma stable_sort_unique {A : Type} (key : A → Z) (l1 : list A) :
  ∀ l2,
    StronglySorted (λ a b, key a ≤ key b) l1 →
    StronglySorted (λ a b, key a ≤ key b) l2 →
    (∀ v, filter (λ e, key e = v) l1 = filter (λ e, key e = v) l2) →
    l1 = l2.
Proof.
  induction l1 as [| x l1 IH]; intros l2 H1 H2 Hf.
  - destruct l2 as [| y l2]; [done |].
    specialize (Hf (key y)). rewrite filter_nil, filter_cons_True in Hf; done.
  - destruct l2 as [| y l2].
    { specialize (Hf (key x)). rewrite filter_nil, filter_cons_True in Hf; done. }
    apply StronglySorted_inv in H1 as [H1 Hx].
    apply StronglySorted_inv in H2 as [H2 Hy].
    assert (Hxin : x ∈ y :: l2).
    { assert (Hin : x ∈ filter (λ e, key e = key x) (y :: l2)).
      { rewrite <- Hf, filter_cons_True by done. by left. }
      by apply list_elem_of_filter in Hin as [_ ?]. }
    assert (Hyin : y ∈ x :: l1).
    { assert (Hin : y ∈ filter (λ e, key e = key y) (x :: l1)).
      { rewrite Hf, filter_cons_True by done. by left. }
      by apply list_elem_of_filter in Hin as [_ ?]. }
    assert (Hk : key x = key y).
    { rewrite Forall_forall in Hx, Hy.
      apply elem_of_cons in Hxin as [-> | Hxin]; [done |].
      apply elem_of_cons in Hyin as [-> | Hyin]; [done |].
      specialize (Hx _ Hyin). specialize (Hy _ Hxin). simpl in *. lia. }
    assert (x = y) as <-.
    { specialize (Hf (key x)).
      rewrite filter_cons_True, (filter_cons_True _ y) in Hf by done.
      congruence. }
    f_equal. apply IH; [done | done |]. intros v. specialize (Hf v).
    rewrite !filter_cons in Hf. destruct (decide (key x = v)); congruence.
Qed.

Lemma dict_set_fresh (k : OrderLine) (v : Z) (d : LayersMap) :
  ol_id k ∉ (λ e, ol_id e.1) <$> d → dict_set k v d = d ++ [(k, v)].
Proof.
  induction d as [| [k' v'] d IH]; simpl; [done |].
  intros Hn. apply not_elem_of_cons in Hn as [Hne Hn].
  rewrite decide_False by done. by rewrite IH.
Qed.

Lemma dict_loop (l : list (OrderLine * Z)) :
  ∀ acc, NoDup ((λ e, ol_id e.1) <$> acc ++ l) →
    foldl (λ d kv, dict_set kv.1 kv.2 d) acc l = acc ++ l.
Proof.
  induction l as [| [k v] l IH]; intros acc Hnd; simpl.
  - by rewrite app_nil_r.
  - rewrite cons_middle, app_assoc in Hnd |- *.
    rewrite dict_set_fresh; [by apply IH |].
    rewrite !fmap_app in Hnd. apply NoDup_app in Hnd as (Hnd & _ & _).
    apply NoDup_app in Hnd as (_ & Hdisj & _). intros Hin.
    apply (Hdisj _ Hin). simpl. by left.
Qed.

(** The items of a dict make the same dict. *)
Lemma dict_id (l : list (OrderLine * Z)) :
  NoDup ((λ e, ol_id e.1) <$> l) → dict l = l.
Proof. intros Hnd. unfold dict. by rewrite dict_loop. Qed.

Lemma sort_orderlines_sorted (P : Pallet) :
  NoDup ((λ e, ol_id e.1) <$> layersMap P) →
  sort_orderlines P = (sorted (λ y x : OrderLine * Z, y.2 <? x.2) (layersMap P)).*1.
Proof.
  intros Hnd. unfold sort_orderlines. rewrite dict_id; [done |].
  by rewrite sorted_perm.
Qed.

Lemma sort_orderlines_visiting (P : Pallet) :
  NoDup ((λ e, ol_id e.1) <$> layersMap P) →
  is_visiting_order (layersMap P) (sort_orderlines P).
Proof.
  intros Hnd. eexists. split; [by apply sort_orderlines_sorted |].
  apply (sorted_stable (λ e : OrderLine * Z, e.2)).
Qed.

Lemma visiting_order_unique (lm : LayersMap) (order1 order2 : list OrderLine) :
  is_visiting_order lm order1 → is_visiting_order lm order2 → order1 = order2.
Proof.
  intros (e1 & -> & Hs1 & Hf1) (e2 & -> & Hs2 & Hf2). f_equal.
  apply (stable_sort_unique (λ e : OrderLine * Z, e.2)); [done | done |].
  intros v. by rewrite Hf1, Hf2.
Qed.

Lemma dist_at_distance (dists : list (list Z)) (i j : nat) :
  is_Ok (dist_at dists i j) → dist_at dists i j = Ok (distance dists i j).
Proof. intros [d Hd]. unfold distance. by rewrite Hd. Qed.

Lemma legs_loop (dists : list (list Z)) (s : list OrderLine) :
  ∀ acc,
    (∀ i j, i ∈ location <$> s → j ∈ location <$> s → is_Ok (dist_at dists i j)) →
    foldM (λ acc ij, d ← dist_at dists (location ij.1) (location ij.2); Ok (acc + d))
          acc (zip (removelast s) (tail s))
    = Ok (acc + consecutive dists (location <$> s)).
Proof.
  induction s as [| a s IH]; intros acc Hc.
  - simpl. f_equal. lia.
  - destruct s as [| b s].
    + simpl. f_equal. lia.
    + change (zip (removelast (a :: b :: s)) (tail (a :: b :: s)))
        with ((a, b) :: zip (removelast (b :: s)) (tail (b :: s))).
      cbn [foldM fst snd].
      rewrite (dist_at_distance dists (location a) (location b)).
      2:{ apply Hc; rewrite !fmap_cons; [by left | right; by left]. }
      rbind. rewrite IH.
      * rewrite !fmap_cons. cbn [consecutive]. f_equal. lia.
      * intros i j Hi Hj. apply Hc; rewrite fmap_cons; by right.
Qed.

Lemma pallet_cost_reference (dists : list (list Z)) (P : Pallet) :
  costable dists P →
  pallet_cost dists P = Ok (route_cost dists (sort_orderlines P)).
Proof.
  intros (Hne & Hnd & Hcov).
  assert (Hperm : sort_orderlines P ≡ₚ (layersMap P).*1).
  { rewrite sort_orderlines_sorted by done. by rewrite sorted_perm. }
  assert (Hin : ∀ o, o ∈ sort_orderlines P →
                     location o ∈ (λ e, location e.1) <$> layersMap P).
  { intros o Ho. rewrite Hperm in Ho.
    apply list_elem_of_fmap in Ho as (e & -> & He).
    apply list_elem_of_fmap. eauto. }
  unfold pallet_cost, route_cost.
  destruct (sort_orderlines P) as [| first rest] eqn:Es.
  { apply Permutation_nil_l in Hperm. by destruct (layersMap P). }
  cbn [head].
  destruct (last (first :: rest)) as [final |] eqn:El.
  2:{ by apply last_None in El. }
  assert (Hfirst : first ∈ first :: rest) by by left.
  assert (Hfinal : final ∈ first :: rest).
  { apply last_Some in El as [l' ->]. apply elem_of_app. right. by left. }
  rewrite (dist_at_distance dists 0 (location first))
    by (apply Hcov; [by left | right; by apply Hin]).
  rbind. rewrite (dist_at_distance dists (location final) 0)
    by (apply Hcov; [right; by apply Hin | by left]).
  rbind. rewrite legs_loop.
  - rbind. f_equal.
  - intros i j (oi & -> & Hi)%list_elem_of_fmap (oj & -> & Hj)%list_elem_of_fmap.
    apply Hcov; right; by apply Hin.
Qed.

Lemma getCost_loop (dists : list (list Z)) (solution : list Pallet) :
  ∀ total,
    Forall (costable dists) solution →
    foldM (λ total P, c ← pallet_cost dists P; Ok (total + c)) total solution
    = Ok (total + cost_reference dists (sort_orderlines <$> solution)).
Proof.
  induction solution as [| P sol IH]; intros total Hc; simpl.
  - f_equal. lia.
  - apply Forall_cons in Hc as [HP Hsol].
    rewrite pallet_cost_reference by done. rbind. rewrite IH by done.
    f_equal. symmetry. apply Z.add_assoc.
Qed.

(** C3. For a solution whose pallets each have a non empty layer
    assignment (a dict, over locations of the matrix): visiting orders
    as the specification defines them exist, and [getCost] returns the
    sum over the pallets of the distance from the depot to the first
    order line, from the last one to the depot, and between consecutive
    order lines of the visiting order.  For a single pallet with a
    single order line at location L this is dists[0, L] + dists[L, 0]. *)
Theorem getCost_reference (dists : list (list Z)) :
  (∀ solution,
     Forall (costable dists) solution →
     (∃ orders,
        Forall2 (λ P order, is_visiting_order (layersMap P) order) solution orders) ∧
     (∀ orders,
        Forall2 (λ P order, is_visiting_order (layersMap P) order) solution orders →
        getCost solution dists = Ok (cost_reference dists orders))) ∧
  (∀ P o layer,
     layersMap P = [(o, layer)] →
     covers dists [location o] →
     getCost [P] dists
     = Ok (distance dists 0 (location o) + distance dists (location o) 0)).
Proof.
  assert (Hmain : ∀ solution, Forall (costable dists) solution →
            (∀ orders,
               Forall2 (λ P order, is_visiting_order (layersMap P) order)
                       solution orders →
               getCost solution dists = Ok (cost_reference dists orders))).
  { intros solution Hc orders Hord.
    assert (orders = sort_orderlines <$> solution) as ->.
    { induction Hord as [| P order sol orders HP _ IH]; [done |].
      apply Forall_cons in Hc as [(_ & Hnd & _) Hc]. simpl.
      f_equal; [| by apply IH].
      eapply visiting_order_unique; [done |].
      by apply sort_orderlines_visiting. }
    unfold getCost. by rewrite getCost_loop. }
  split.
  - intros solution Hc. split; [| by apply Hmain].
    exists (sort_orderlines <$> solution).
    induction Hc as [| P sol (_ & Hnd & _) _ IH]; simpl; constructor; [| done].
    by apply sort_orderlines_visiting.
  - intros P o layer HP Hcov.
    assert (Hc : costable dists P).
    { unfold costable. rewrite HP. simpl. split_and!; [done | | done].
      apply NoDup_singleton. }
    rewrite (Hmain [P] ltac:(by constructor) [[o]]).
    + simpl. f_equal. lia.
    + constructor; [| constructor]. rewrite HP.
      exists [(o, layer)]. split_and!; [done | | done].
      repeat constructor.
Qed.

(** ** The end-to-end scenario *)

Lemma sumZ_app (l1 l2 : list Z) : sumZ (l1 ++ l2) = sumZ l1 + sumZ l2.
Proof. induction l1 as [| x l1 IH]; simpl; [done |]. rewrite IH. lia. Qed.

Lemma sumZ_perm (l1 l2 : list Z) : l1 ≡ₚ l2 → sumZ l1 = sumZ l2.
Proof. induction 1; simpl; lia. Qed.

Lemma sumZ_nonneg (l : list Z) : Forall (λ x, 0 ≤ x) l → 0 ≤ sumZ l.
Proof. induction 1; simpl; lia. Qed.

Lemma gather_cons {B : Type} (f : Pallet → list B) (p : nat) (pl : list nat)
    (st : Store) :
  gather f (p :: pl) st = f (deref st p) ++ gather f pl st.
Proof. done. Qed.

Lemma gather_app {B : Type} (f : Pallet → list B) (pl1 pl2 : list nat) (st : Store) :
  gather f (pl1 ++ pl2) st = gather f pl1 st ++ gather f pl2 st.
Proof.
  induction pl1 as [| p pl1 IH]; [done |].
  rewrite <- app_comm_cons, !gather_cons, IH. by rewrite app_assoc.
Qed.

Lemma gather_perm {B : Type} (f : Pallet → list B) (pl1 pl2 : list nat) (st : Store) :
  pl1 ≡ₚ pl2 → gather f pl1 st ≡ₚ gather f pl2 st.
Proof.
  induction 1 as [| p l1 l2 _ IH | p q l | l1 l2 l3 _ IH1 _ IH2].
  - done.
  - rewrite !gather_cons. by rewrite IH.
  - rewrite !gather_cons. rewrite !app_assoc.
    by rewrite (Permutation_app_comm (f (deref st q))).
  - by etrans.
Qed.

Lemma gather_ext {B : Type} (f : Pallet → list B) (pl : list nat) (st st' : Store) :
  (∀ p, p ∈ pl → deref st' p = deref st p) →
  gather f pl st' = gather f pl st.
Proof.
  induction pl as [| p pl IH]; intros H; [done |].
  rewrite !gather_cons. rewrite H by by left.
  rewrite IH; [done |]. intros q Hq. apply H. by right.
Qed.

Lemma gather_same {B : Type} (f : Pallet → list B) (pl : list nat) (st st1 : Store) :
  pallets st1 = pallets st → gather f pl st1 = gather f pl st.
Proof. intros H. apply gather_ext. intros p _. unfold deref. by rewrite H. Qed.

Lemma tight_state_same (s : Solver) (ls : list OrderLine) (pl : list nat)
    (st st1 : Store) :
  pallets st1 = pallets st →
  tight_state s ls pl st → tight_state s ls pl st1.
Proof.
  intros H [H1 H2 H3 H4 H5].
  assert (Hd : ∀ p, deref st1 p = deref st p) by (intros p; unfold deref; by rewrite H).
  split; try (intros p Hp; rewrite Hd; auto); by rewrite (gather_same _ _ st).
Qed.

(** The construction of one pallet keeps the account of the loads. *)
Lemma build_pallet_tight (s : Solver) (ls : list OrderLine) (base : nat)
    (o : OrderLine) (pl pl' : list nat) (st st' : Store) :
  packs_all_lines →
  0 ≤ ol_weight o ∧ 0 ≤ ol_volume o →
  wf_state (ol_id <$> ls) base pl st →
  tight_state s ls pl st →
  build_pallet s pl st o = Ok (pl', st') →
  tight_state s (ls ++ [o]) pl' st'.
Proof.
  intros Hcover [Hw Hv] Hwf [Hnn Hcap HW HV HL].
  destruct (build_pallet_cases s pl st o)
    as [-> | (P & -> & HmW & HmV & HPw & HPv & HP & _ & Hpack)]; [done |].
  intros [= <- <-].
  set (st' := {| pallets := pallets st ++ [P]; ol_pallet := _; packer_calls := _ |}).
  set (addr := length (pallets st)).
  assert (Hold : ∀ p, p ∈ pl → deref st' p = deref st p).
  { intros p Hp. unfold deref, st'. simpl. apply (wf_valid _ _ _ _ Hwf) in Hp.
    rewrite !list_lookup_total_alt. by rewrite lookup_app_l by lia. }
  assert (Hadd : deref st' addr = P).
  { unfold deref, addr, st'. simpl. rewrite list_lookup_total_alt.
    by rewrite list_lookup_middle. }
  assert (Hkeys : (layersMap P).*1 ≡ₚ [o]).
  { pose proof (Hcover (Pallet_new (self_pallet_size s) (self_pallet_max_weight s))
                  (Line o)) as Hc. by rewrite Hpack in Hc. }
  split.
  - intros p [Hp | ->%list_elem_of_singleton]%elem_of_app.
    + rewrite Hold by done. auto.
    + rewrite Hadd. lia.
  - intros p [Hp | ->%list_elem_of_singleton]%elem_of_app.
    + rewrite Hold by done. auto.
    + by rewrite Hadd.
  - rewrite gather_app, (gather_ext _ pl st) by done.
    rewrite gather_cons, Hadd. rewrite fmap_app, !sumZ_app, HW. simpl. lia.
  - rewrite gather_app, (gather_ext _ pl st) by done.
    rewrite gather_cons, Hadd. rewrite fmap_app, !sumZ_app, HV. simpl. lia.
  - rewrite gather_app, (gather_ext _ pl st) by done.
    rewrite gather_cons, Hadd. simpl. rewrite app_nil_r. by rewrite HL, Hkeys.
Qed.

Lemma build_pallet_Ok (s : Solver) (pl : list nat) (st : Store) (o : OrderLine) :
  always_packs → is_Ok (build_pallet s pl st o).
Proof.
  intros Hpack.
  destruct (build_pallet_cases s pl st o) as [Hr | (P & -> & _)]; [| by eexists].
  specialize (Hpack (Pallet_new (self_pallet_size s) (self_pallet_max_weight s))
                (Line o)).
  revert Hr. unfold build_pallet, pack.
  destruct (dubePacker _ _) as [[done pc] lm]. simpl in Hpack. by subst done.
Qed.

Lemma dummy_loop_full (s : Solver) (base : nat) (l : list OrderLine) :
  always_packs → packs_all_lines →
  ∀ ls acc,
    Forall (λ o, 0 ≤ ol_weight o ∧ 0 ≤ ol_volume o) l →
    NoDup (ol_id <$> ls ++ l) →
    wf_state (ol_id <$> ls) base acc.1 acc.2 →
    tight_state s ls acc.1 acc.2 →
    ∃ res,
      foldM (λ acc orderline, build_pallet s acc.1 acc.2 orderline) acc l = Ok res ∧
      wf_state (ol_id <$> ls ++ l) base res.1 res.2 ∧
      tight_state s (ls ++ l) res.1 res.2.
Proof.
  intros Hpack Hcover.
  induction l as [| o l IH]; intros ls acc Hpos Hnd Hwf Htight.
  - exists acc. by rewrite app_nil_r.
  - apply Forall_cons in Hpos as [Ho Hpos].
    rewrite cons_middle, app_assoc in Hnd |- *. cbn [foldM].
    destruct (build_pallet_Ok s acc.1 acc.2 o Hpack) as [[pl' st'] Hb].
    rewrite Hb. rbind.
    apply (IH (ls ++ [o]) (pl', st')); [done | done | |].
    + rewrite fmap_app. apply (build_pallet_wf s _ _ o acc.1 _ acc.2); [done | | done].
      rewrite !fmap_app in Hnd. apply NoDup_app in Hnd as (Hnd & _ & _).
      apply NoDup_app in Hnd as (_ & Hdisj & _). intros Hin.
      apply (Hdisj _ Hin). by apply list_elem_of_singleton.
    + by apply (build_pallet_tight s ls base o acc.1 pl' acc.2 st').
Qed.

(** A successful merge keeps the account of the loads, provided the
    layer assignment written on the host lists the order lines of both
    pallets. *)
Lemma absorb_tight (s : Solver) (ls : list OrderLine) (base : nat)
    (host hosted : nat) (pc : list Case) (lm : LayersMap) (pl : list nat)
    (st : Store) :
  wf_state (ol_id <$> ls) base pl st →
  tight_state s ls pl st →
  host ∈ pl → hosted ∈ pl → host ≠ hosted →
  lm.*1 ≡ₚ (layersMap (deref st host)).*1 ++ (layersMap (deref st hosted)).*1 →
  ∃ pl' st',
    absorb host hosted pc lm pl st = Ok (pl', st') ∧
    wf_state (ol_id <$> ls) base pl' st' ∧
    tight_state s ls pl' st' ∧
    (∀ i, ol_pallet st' !! i
          = if decide (i ∈ orderlines (deref st hosted))
            then Some host else ol_pallet st !! i).
Proof.
  intros Hwf [Hnn Hcap HW HV HL] Hh Hd Hneq Hlm.
  destruct (absorb_spec (ol_id <$> ls) base host hosted pc lm pl st Hwf Hh Hd Hneq)
    as (pl' & st' & Habs & Hwf' & _ & HW' & HV' & _ & _ & HL' & Hother &
        (Hin1 & Hin2 & Hperm) & Hbind & _ & HmW & HmV).
  exists pl', st'. split_and!; try done.
  apply elem_of_Permutation in Hin1 as [rest Hrest].
  assert (Hnd' : NoDup (host :: rest)).
  { rewrite <- Hrest. apply (wf_nodup _ _ _ _ Hwf'). }
  apply NoDup_cons in Hnd' as [Hnotin _].
  assert (Hpl : pl ≡ₚ hosted :: host :: rest) by by rewrite Hperm, Hrest.
  assert (Hrest_same : ∀ {B} (f : Pallet → list B),
            gather f rest st' = gather f rest st).
  { intros B f. apply gather_ext. intros p Hp. apply Hother. by intros ->. }
  assert (Horig : ∀ p, p ∈ pl' → p ≠ host → p ∈ pl ∧ deref st' p = deref st p).
  { intros p Hp Hne. split; [| by apply Hother].
    rewrite Hperm. by right. }
  split.
  - intros p Hp. destruct (decide (p = host)) as [-> | Hne].
    + rewrite HW', HV'. pose proof (Hnn host Hh). pose proof (Hnn hosted Hd). lia.
    + destruct (Horig p Hp Hne) as [Hp' ->]. auto.
  - intros p Hp. destruct (decide (p = host)) as [-> | Hne].
    + rewrite HmW, HmV. auto.
    + destruct (Horig p Hp Hne) as [Hp' ->]. auto.
  - rewrite <- HW.
    rewrite (sumZ_perm _ _ (gather_perm _ _ _ st' Hrest)).
    rewrite (sumZ_perm _ _ (gather_perm _ _ _ st Hpl)).
    rewrite !gather_cons, Hrest_same, HW'. simpl. lia.
  - rewrite <- HV.
    rewrite (sumZ_perm _ _ (gather_perm _ _ _ st' Hrest)).
    rewrite (sumZ_perm _ _ (gather_perm _ _ _ st Hpl)).
    rewrite !gather_cons, Hrest_same, HV'. simpl. lia.
  - rewrite <- HL.
    rewrite (gather_perm _ _ _ st' Hrest), (gather_perm _ _ _ st Hpl).
    rewrite !gather_cons, Hrest_same, HL', Hlm.
    rewrite !app_assoc. apply Permutation_app_tail, Permutation_app_comm.
Qed.

Lemma two_le_total (f : Pallet → Z) (pl : list nat) (st : Store) (a b : nat) :
  (∀ p, p ∈ pl → 0 ≤ f (deref st p)) →
  a ∈ pl → b ∈ pl → a ≠ b →
  f (deref st a) + f (deref st b) ≤ sumZ (gather (λ P, [f P]) pl st).
Proof.
  intros Hnn Ha Hb Hne.
  apply elem_of_Permutation in Ha as [l1 H1].
  assert (Hb1 : b ∈ l1).
  { rewrite H1 in Hb. apply elem_of_cons in Hb as [-> | Hb]; done. }
  apply elem_of_Permutation in Hb1 as [rest H2].
  assert (Hpl : pl ≡ₚ a :: b :: rest) by by rewrite H1, H2.
  rewrite (sumZ_perm _ _ (gather_perm _ _ _ st Hpl)), !gather_cons. simpl.
  assert (0 ≤ sumZ (gather (λ P, [f P]) rest st)); [| lia].
  assert (Hrest : ∀ p, p ∈ rest → 0 ≤ f (deref st p)).
  { intros p Hp. apply Hnn. rewrite Hpl. right. by right. }
  clear -Hrest. induction rest as [| p rest IH]; [done |].
  rewrite gather_cons. simpl.
  pose proof (Hrest p ltac:(by left)).
  assert (0 ≤ sumZ (gather (λ P, [f P]) rest st)); [| lia].
  apply IH. intros q Hq. apply Hrest. by right.
Qed.

(** With an oracle that always succeeds and order lines that fit one
    pallet together, the body of the merging loop joins the two ends
    of the edge; order lines on one pallet stay together. *)
Lemma merge_edge_full (s : Solver) (base : nat) (e : Edge) (pl : list nat)
    (st : Store) :
  solver_wf s → always_packs → packs_all_lines → fits_one_pallet s →
  wf_state (line_ids s) base pl st →
  tight_state s (self_orderlines s) pl st →
  e ∈ self_edges s →
  ∃ pl' st',
    merge_edge pl st e = Ok (pl', st') ∧
    wf_state (line_ids s) base pl' st' ∧
    tight_state s (self_orderlines s) pl' st' ∧
    same_pallet st' (ol_id (origin e)) (ol_id (end_ e)) ∧
    ∀ i j, same_pallet st i j → same_pallet st' i j.
Proof.
  intros [_ Hedges] Hpack Hcover (_ & HfW & HfV) Hwf Htight He.
  destruct (Hedges e He) as [Ho Hd].
  destruct (wf_bound _ _ _ _ Hwf (ol_id (origin e))) as (host & Hhost & Hhin).
  { unfold line_ids. apply list_elem_of_fmap. eauto. }
  destruct (wf_bound _ _ _ _ Hwf (ol_id (end_ e))) as (hosted & Hhosted & Hdin).
  { unfold line_ids. apply list_elem_of_fmap. eauto. }
  unfold merge_edge, pallet_of. rewrite Hhost, Hhosted. rbind.
  destruct (decide (host = hosted)) as [<- | Hne].
  { exists pl, st. split_and!; try done. by exists host. }
  pose proof (two_le_total volume pl st host hosted) as Hv.
  pose proof (two_le_total weight pl st host hosted) as Hw.
  rewrite (t_volume _ _ _ _ Htight) in Hv. rewrite (t_weight _ _ _ _ Htight) in Hw.
  destruct (t_cap _ _ _ _ Htight host Hhin) as [HmW HmV].
  destruct (volume _ + _ >? _) eqn:E1.
  { apply Z.gtb_lt in E1.
    specialize (Hv (λ p Hp, proj2 (t_nonneg _ _ _ _ Htight p Hp)) Hhin Hdin Hne).
    lia. }
  destruct (weight _ + _ >? _) eqn:E2.
  { apply Z.gtb_lt in E2.
    specialize (Hw (λ p Hp, proj1 (t_nonneg _ _ _ _ Htight p Hp)) Hhin Hdin Hne).
    lia. }
  unfold pack.
  pose proof (Hpack (deref st host) (Load (deref st hosted))) as Hdone.
  pose proof (Hcover (deref st host) (Load (deref st hosted))) as Hlm.
  destruct (dubePacker _ _) as [[done pc] lm]. simpl in Hdone, Hlm. subst done.
  set (st1 := {| pallets := pallets st; ol_pallet := _; packer_calls := _ |}).
  destruct (absorb_tight s (self_orderlines s) base host hosted pc lm pl st1)
    as (pl' & st' & Habs & Hwf' & Htight' & Hbind);
    [by apply (wf_state_same _ _ _ st) | by apply (tight_state_same _ _ _ st)
    | done .. |].
  change (deref st1 ?p) with (deref st p) in Hbind.
  change (ol_pallet st1) with (ol_pallet st) in Hbind.
  exists pl', st'. split_and!; try done.
  - exists host. rewrite !Hbind. split.
    + rewrite decide_False; [done |].
      intros Hin. apply (wf_member _ _ _ _ Hwf hosted _ Hdin) in Hin. congruence.
    + rewrite decide_True; [done |]. by apply (wf_member _ _ _ _ Hwf hosted _ Hdin).
  - intros i j (p & Hi & Hj).
    destruct (decide (p = hosted)) as [-> | Hp].
    + exists host. rewrite !Hbind.
      rewrite !decide_True; [done | |]; by apply (wf_member _ _ _ _ Hwf hosted _ Hdin).
    + exists p. rewrite !Hbind.
      rewrite !decide_False; [done | |];
        intros Hin; apply (wf_member _ _ _ _ Hwf hosted _ Hdin) in Hin; congruence.
Qed.

Lemma merging_full (s : Solver) (base : nat) (beta : float) (n : nat) :
  solver_wf s → always_packs → packs_all_lines → fits_one_pallet s →
  (∀ k, is_Ok (log_index (tape k) beta)) →
  ∀ arr pos pl st,
    length arr = n → arr ⊆ self_edges s →
    wf_state (line_ids s) base pl st →
    tight_state s (self_orderlines s) pl st →
    ∃ pl' st',
      merging beta n arr pos pl st = Ok (pl', st', (pos + n)%nat) ∧
      wf_state (line_ids s) base pl' st' ∧
      tight_state s (self_orderlines s) pl' st' ∧
      (∀ e, e ∈ arr → same_pallet st' (ol_id (origin e)) (ol_id (end_ e))) ∧
      ∀ i j, same_pallet st i j → same_pallet st' i j.
Proof.
  intros Hs Hpack Hcover Hfit Hdraw.
  induction n as [| n IH]; intros arr pos pl st Hlen Harr Hwf Htight.
  - exists pl, st. destruct arr; [| done]. simpl.
    split_and!; try done; [by rewrite Nat.add_0_r | by intros e ?%elem_of_nil].
  - cbn [merging]. destruct (Hdraw pos) as [r Hr].
    destruct (bra_draw_Ok beta arr pos r Hr) as (e & He & ->); [by destruct arr |].
    rbind. set (idx := Z.to_nat _) in *.
    assert (Hein : e ∈ self_edges s).
    { apply Harr. by eapply list_elem_of_lookup_2. }
    destruct (merge_edge_full s base e pl st) as (pl1 & st1 & -> & Hwf1 & Ht1 & Hj1 & Hk1);
      [done .. |].
    rbind.
    destruct (IH (delete idx arr) (S pos) pl1 st1) as (pl' & st' & Hm & Hwf' & Ht' & Hj' & Hk');
      [| | done | done |].
    + rewrite length_delete by eauto. lia.
    + etrans; [apply sublist_subseteq, sublist_delete | done].
    + exists pl', st'. rewrite Hm. split_and!; try done.
      * by replace (pos + S n)%nat with (S pos + n)%nat by lia.
      * intros e' He'. rewrite (delete_Permutation arr idx e He) in He'.
        apply elem_of_cons in He' as [-> | He']; auto.
      * auto.
Qed.

Lemma list_single {A : Type} (l : list A) (x : A) :
  NoDup l → x ∈ l → (∀ y, y ∈ l → y = x) → l = [x].
Proof.
  intros Hnd Hx Hall. destruct l as [| a l]; [by apply elem_of_nil in Hx |].
  assert (a = x) as -> by (apply Hall; by left).
  destruct l as [| b l]; [done |].
  assert (b = x) as -> by (apply Hall; right; by left).
  apply NoDup_cons in Hnd as [Hn _]. destruct Hn. by left.
Qed.

(** With an oracle that always succeeds, order lines that fit one pallet
    together and an edge between every two of them, [heuristic] returns
    a single pallet, which holds every order line. *)
Lemma heuristic_one_pallet (s : Solver) (beta : float) (st : Store) (pos : nat) :
  solver_wf s → store_wf st →
  always_packs → packs_all_lines →
  fits_one_pallet s → fully_connected s →
  self_orderlines s ≠ [] →
  (∀ k, is_Ok (log_index (tape k) beta)) →
  ∃ p st',
    heuristic s beta st pos = Ok ([p], st', (pos + length (self_edges s))%nat) ∧
    orderlines (deref st' p) = list_to_set (line_ids s) ∧
    (layersMap (deref st' p)).*1 ≡ₚ self_orderlines s ∧
    weight (deref st' p) = sumZ (ol_weight <$> self_orderlines s) ∧
    volume (deref st' p) = sumZ (ol_volume <$> self_orderlines s) ∧
    maxWeight (deref st' p) = self_pallet_max_weight s ∧
    maxVolume (deref st' p) = self_max_volume s.
Proof.
  intros Hs Hst Hpack Hcover Hfit Hconn Hne Hdraw.
  pose proof Hs as [Hnd Hedges]. pose proof Hfit as (Hpos & _ & _).
  destruct (dummy_loop_full s (length (pallets st)) (self_orderlines s) Hpack Hcover
              [] ([], st)) as ([pl0 st0] & Hd & Hwf0 & Ht0);
    [done | done | by apply wf_state_init | |].
  { split; try done; by intros p ?%elem_of_nil. }
  simpl in Hwf0, Ht0.
  set (savingsList := sorted (λ y x, saving y >? saving x) (self_edges s)).
  assert (Hsl : savingsList ≡ₚ self_edges s) by apply sorted_perm.
  destruct (merging_full s (length (pallets st)) beta (length savingsList)
              Hs Hpack Hcover Hfit Hdraw savingsList pos pl0 st0)
    as (pl' & st' & Hm & Hwf' & Ht' & Hjoin & _); [done | | done | done |].
  { intros e. by rewrite Hsl. }
  destruct (self_orderlines s) as [| o0 rest] eqn:Els; [done |].
  assert (Ho0 : o0 ∈ self_orderlines s) by (rewrite Els; by left).
  destruct (wf_bound _ _ _ _ Hwf' (ol_id o0)) as (p0 & Hp0 & Hp0in).
  { unfold line_ids. rewrite Els. simpl. by left. }
  assert (Hall : ∀ q, q ∈ pl' → q = p0).
  { intros q Hq.
    destruct (wf_nonempty _ _ _ _ Hwf' q Hq) as [i Hi].
    pose proof (wf_lines _ _ _ _ Hwf' q i Hq Hi) as Hid.
    apply (wf_member _ _ _ _ Hwf' q i Hq) in Hi.
    unfold line_ids in Hid. apply list_elem_of_fmap in Hid as (o & -> & Ho).
    destruct (decide (ol_id o = ol_id o0)) as [Heq | Hneq]; [congruence |].
    destruct (Hconn o o0 Ho Ho0) as (e & He & Hends); [by intros -> |].
    assert (Hesl : e ∈ savingsList) by by rewrite Hsl.
    destruct (Hjoin e Hesl) as (p & H1 & H2).
    destruct Hends as [[E1 E2] | [E1 E2]]; rewrite E1 in H1; rewrite E2 in H2;
      congruence. }
  assert (Hpl : pl' = [p0]).
  { apply list_single; [apply (wf_nodup _ _ _ _ Hwf') | done | done]. }
  subst pl'. exists p0, st'. split_and!.
  - unfold heuristic, dummy_solution. rewrite Els, Hd. rbind.
    fold savingsList. rewrite Hm. by rewrite Hsl.
  - apply set_eq. intros i. rewrite elem_of_list_to_set. split.
    + apply (wf_lines _ _ _ _ Hwf'). by left.
    + intros Hi. destruct (wf_bound _ _ _ _ Hwf' i Hi) as (p & Hp & ->%list_elem_of_singleton).
      apply (wf_member _ _ _ _ Hwf'); [by left | done].
  - pose proof (t_layers _ _ _ _ Ht') as HL.
    rewrite gather_cons in HL. simpl in HL. by rewrite app_nil_r in HL.
  - rewrite <- (t_weight _ _ _ _ Ht'), gather_cons. simpl. lia.
  - rewrite <- (t_volume _ _ _ _ Ht'), gather_cons. simpl. lia.
  - apply (t_cap _ _ _ _ Ht'). by left.
  - apply (t_cap _ _ _ _ Ht'). by left.
Qed.

Lemma visiting_order_perm (P : Pallet) (order : list OrderLine) :
  NoDup ((λ e, ol_id e.1) <$> layersMap P) →
  is_visiting_order (layersMap P) order →
  order ≡ₚ (layersMap P).*1.
Proof.
  intros Hnd Hv.
  rewrite (visiting_order_unique _ _ _ Hv (sort_orderlines_visiting P Hnd)).
  rewrite sort_orderlines_sorted by done. by rewrite sorted_perm.
Qed.

(** A call of [heuristic] that returns ends in a reachable state. *)
Lemma heuristic_reachable (s : Solver) (beta : float) (st : Store) (pos : nat)
    (sol : list nat) (st' : Store) (pos' : nat) :
  heuristic s beta st pos = Ok (sol, st', pos') → reachable s st sol st'.
Proof.
  unfold heuristic.
  destruct (dummy_solution s st) as [[pl0 st0] |] eqn:Hd; [| done]. rbind.
  apply merging_reachable; [| by apply reach_built].
  intros e. by rewrite sorted_perm.
Qed.

(** ** The exceptions of the cost *)

Lemma dist_at_IndexError (dists : list (list Z)) (i j : nat) (e : exn) :
  dist_at dists i j = Raise e → e = IndexError.
Proof.
  unfold dist_at. destruct (dists !! i) as [row |]; [| by intros [= <-]].
  destruct (row !! j); [done | by intros [= <-]].
Qed.

Lemma legs_IndexError (dists : list (list Z)) (l : list (OrderLine * OrderLine)) :
  ∀ acc e,
    foldM (λ acc ij, d ← dist_at dists (location ij.1) (location ij.2); Ok (acc + d))
          acc l = Raise e →
    e = IndexError.
Proof.
  induction l as [| ij l IH]; intros acc e; simpl; [done |].
  destruct (dist_at dists (location ij.1) (location ij.2)) as [d |] eqn:Hd.
  - rbind. apply IH.
  - rbind. intros [= <-]. by eapply dist_at_IndexError.
Qed.

(** The only exception the cost of a pallet raises is IndexError. *)
Lemma pallet_cost_IndexError (dists : list (list Z)) (P : Pallet) (e : exn) :
  pallet_cost dists P = Raise e → e = IndexError.
Proof.
  unfold pallet_cost. destruct (head _) as [first |]; [| by intros [= <-]].
  destruct (last _) as [final |]; [| by intros [= <-]].
  destruct (dist_at dists 0 (location first)) eqn:H1; rbind.
  2:{ intros [= <-]. by eapply dist_at_IndexError. }
  destruct (dist_at dists (location final) 0) eqn:H2; rbind.
  2:{ intros [= <-]. by eapply dist_at_IndexError. }
  destruct (foldM _ _ _) eqn:H3; rbind; [done |].
  intros [= <-]. by eapply legs_IndexError.
Qed.

Lemma getCost_loop_IndexError (dists : list (list Z)) (solution : list Pallet) :
  ∀ total e,
    foldM (λ total P, c ← pallet_cost dists P; Ok (total + c)) total solution = Raise e →
    e = IndexError.
Proof.
  induction solution as [| P sol IH]; intros total e; simpl; [done |].
  destruct (pallet_cost dists P) as [c |] eqn:Hc; rbind.
  - apply IH.
  - intros [= <-]. by eapply pallet_cost_IndexError.
Qed.

Lemma sort_orderlines_nil (P : Pallet) : layersMap P = [] → sort_orderlines P = [].
Proof. intros H. unfold sort_orderlines. by rewrite H. Qed.

(** [getCost] raises no other exception than IndexError, and it raises it
    as soon as one pallet of the solution has an empty layer assignment. *)
Theorem getCost_empty_layers (dists : list (list Z)) (solution : list Pallet) :
  (∀ e, getCost solution dists = Raise e → e = IndexError) ∧
  (Exists (λ P, layersMap P = []) solution →
   getCost solution dists = Raise IndexError).
Proof.
  split; [intros e; apply getCost_loop_IndexError |].
  unfold getCost. generalize 0. intros total Hex. revert total.
  induction Hex as [P sol HP | P sol _ IH]; intros total; simpl.
  - unfold pallet_cost. by rewrite (sort_orderlines_nil P HP).
  - destruct (pallet_cost dists P) as [c | e] eqn:Hc; rbind; [apply IH |].
    by rewrite (pallet_cost_IndexError _ _ _ Hc).
Qed.

(** ** What a call of [heuristic] uses and what it leaves alone *)

Lemma list_remove_length {A : Type} `{EqDecision A} (x : A) (l l' : list A) :
  list_remove x l = Ok l' → length l = S (length l').
Proof. pure_ctx.
  intros (l1 & l2 & -> & -> & _)%list_remove_Ok. rewrite !length_app. simpl. lia.
Qed.

(** The construction loop allocates one pallet per order line, at the
    end of the store, asks the oracle once for each, and leaves the
    pallets that were there as they were. *)
Lemma dummy_loop_alloc (s : Solver) (l : list OrderLine) :
  ∀ acc res,
    foldM (λ acc orderline, build_pallet s acc.1 acc.2 orderline) acc l = Ok res →
    res.1 = acc.1 ++ seq (length (pallets acc.2)) (length l) ∧
    length (pallets res.2) = (length (pallets acc.2) + length l)%nat ∧
    length (packer_calls res.2) = (length (packer_calls acc.2) + length l)%nat ∧
    ∀ p, (p < length (pallets acc.2))%nat → deref res.2 p = deref acc.2 p.
Proof.
  induction l as [| o l IH]; intros acc res.
  - simpl. intros [= <-]. rewrite app_nil_r. split_and!; try done; lia.
  - cbn [foldM].
    destruct (build_pallet_cases s acc.1 acc.2 o) as [-> | (P & -> & _)]; [done |].
    rbind. intros (H1 & H2 & H3 & H4)%IH. cbn [fst snd pallets packer_calls] in *.
    rewrite length_app in *. cbn [length] in *. split_and!.
    + rewrite H1, <- app_assoc. simpl. do 3 f_equal. lia.
    + lia.
    + lia.
    + intros p Hp. rewrite H4 by lia. unfold deref. cbn [pallets].
      rewrite !list_lookup_total_alt. by rewrite lookup_app_l by lia.
Qed.

(** The body of the merging loop asks the oracle at most twice, allocates
    nothing, never lengthens the working list, and can only change the
    pallets of the two ends of the edge. *)
Lemma merge_edge_effect (pl pl' : list nat) (st st' : Store) (e : Edge) :
  merge_edge pl st e = Ok (pl', st') →
  (length (packer_calls st) ≤ length (packer_calls st')
   ≤ length (packer_calls st) + 2)%nat ∧
  length (pallets st') = length (pallets st) ∧
  (length pl' ≤ length pl)%nat ∧
  ∀ p, pallet_of st (origin e) ≠ Ok p → pallet_of st (end_ e) ≠ Ok p →
       deref st' p = deref st p.
Proof.
  unfold merge_edge.
  destruct (pallet_of st (origin e)) as [host |]; [| done]. rbind.
  destruct (pallet_of st (end_ e)) as [hosted |]; [| done]. rbind.
  assert (Habsorb : ∀ a b pc lm st1,
            pallets st1 = pallets st →
            absorb a b pc lm pl st1 = Ok (pl', st') →
            length (packer_calls st') = length (packer_calls st1) ∧
            length (pallets st') = length (pallets st) ∧
            (length pl' ≤ length pl)%nat ∧
            ∀ p, p ≠ a → deref st' p = deref st p).
  { intros a b pc lm st1 Hsame. unfold absorb.
    destruct (list_remove b pl) as [pl'' |] eqn:Hrm; [| done]. rbind.
    intros [= <- <-]. cbn [pallets packer_calls]. rewrite length_insert.
    apply list_remove_length in Hrm. split_and!; [done | by rewrite Hsame | lia |].
    intros p Hp. unfold deref. cbn [pallets]. rewrite <- Hsame.
    by apply list_lookup_total_insert_ne. }
  destruct (decide (host = hosted));
    [intros ?; simplify_eq; split_and!; (done || lia) |].
  destruct (volume _ + _ >? _); [intros ?; simplify_eq; split_and!; (done || lia) |].
  destruct (weight _ + _ >? _); [intros ?; simplify_eq; split_and!; (done || lia) |].
  unfold pack. destruct (dubePacker _ _) as [[done pc] lm]. destruct done.
  { intros (H1 & H2 & H3 & H4)%Habsorb; [| done].
    cbn [packer_calls] in H1. rewrite length_app in H1. simpl in H1.
    split_and!; [lia | lia | done | done |].
    intros p Hp _. apply H4. by intros ->. }
  destruct (dubePacker _ _) as [[done' pc'] lm']. destruct done'.
  - intros (H1 & H2 & H3 & H4)%Habsorb; [| done].
    cbn [packer_calls] in H1. rewrite !length_app in H1. simpl in H1.
    split_and!; [lia | lia | done | done |].
    intros p _ Hp. apply H4. by intros ->.
  - intros [= <- <-]. cbn [packer_calls pallets]. rewrite !length_app. simpl.
    split_and!; (done || lia).
Qed.

Lemma merging_effect (beta : float) (n : nat) :
  ∀ arr pos pl st pl' st' pos',
    merging beta n arr pos pl st = Ok (pl', st', pos') →
    pos' = (pos + n)%nat ∧
    (length (packer_calls st) ≤ length (packer_calls st')
     ≤ length (packer_calls st) + 2 * n)%nat ∧
    length (pallets st') = length (pallets st) ∧
    (length pl' ≤ length pl)%nat.
Proof.
  induction n as [| n IH]; intros arr pos pl st pl' st' pos'; cbn [merging].
  - intros [= <- <- <-]. split_and!; (done || lia).
  - destruct (bra_draw beta arr pos) as [[e arr'] |]; [| done]. rbind.
    destruct (merge_edge pl st e) as [[pl1 st1] |] eqn:Hm; [| done]. rbind.
    apply merge_edge_effect in Hm as (H1 & H2 & H3 & _).
    intros (-> & H4 & H5 & H6)%IH. split_and!; lia.
Qed.

Lemma sorted_length {A : Type} (before : A → A → bool) (l : list A) :
  length (sorted before l) = length l.
Proof. pure_ctx. by rewrite sorted_perm. Qed.

Lemma heuristic_effect (s : Solver) (beta : float) (st : Store) (pos : nat)
    (sol : list nat) (st' : Store) (pos' : nat) :
  heuristic s beta st pos = Ok (sol, st', pos') →
  pos' = (pos + length (self_edges s))%nat ∧
  length (pallets st') = (length (pallets st) + length (self_orderlines s))%nat ∧
  (length (packer_calls st) + length (self_orderlines s)
   ≤ length (packer_calls st')
   ≤ length (packer_calls st) + length (self_orderlines s)
     + 2 * length (self_edges s))%nat ∧
  (length sol ≤ length (self_orderlines s))%nat.
Proof.
  unfold heuristic, dummy_solution.
  destruct (foldM _ _ _) as [[pl0 st0] |] eqn:Hd; [| done]. rbind.
  apply dummy_loop_alloc in Hd as (H1 & H2 & H3 & _).
  cbn [fst snd] in *.
  intros (-> & H4 & H5 & H6)%merging_effect.
  rewrite sorted_length in *. rewrite H1, length_app, length_seq in H6. simpl in H6.
  split_and!; lia.
Qed.

(** A call of [heuristic] that returns has consumed one random value per
    edge, allocated one pallet per order line, asked the oracle once per
    order line and at most twice more per edge, and returns at most as
    many pallets as there are order lines. *)
Theorem heuristic_resources (s : Solver) (beta : float) (st : Store) (pos : nat)
    (sol : list nat) (st' : Store) (pos' : nat) :
  heuristic s beta st pos = Ok (sol, st', pos') →
  pos' = (pos + length (self_edges s))%nat ∧
  length (pallets st') = (length (pallets st) + length (self_orderlines s))%nat ∧
  (length (packer_calls st) + length (self_orderlines s)
   ≤ length (packer_calls st')
   ≤ length (packer_calls st) + length (self_orderlines s)
     + 2 * length (self_edges s))%nat ∧
  (length sol ≤ length (self_orderlines s))%nat.
Proof. apply heuristic_effect. Qed.

(** Only pallets of the working list are touched by the merging loop. *)
Lemma merging_frame (s : Solver) (base : nat) (beta : float) (n : nat) :
  solver_wf s →
  ∀ arr pos pl st pl' st' pos',
    arr ⊆ self_edges s →
    wf_state (line_ids s) base pl st →
    merging beta n arr pos pl st = Ok (pl', st', pos') →
    wf_state (line_ids s) base pl' st' ∧
    ∀ p, (p < base)%nat → deref st' p = deref st p.
Proof.
  intros Hs. induction n as [| n IH]; intros arr pos pl st pl' st' pos' Harr Hwf;
    cbn [merging].
  - by intros [= <- <- <-].
  - destruct (bra_draw beta arr pos) as [[e arr'] |] eqn:Hd; [| done]. rbind.
    apply bra_draw_elem in Hd as [He Hsub].
    destruct (merge_edge pl st e) as [[pl1 st1] |] eqn:Hm; [| done]. rbind.
    pose proof (merge_edge_wf s base e pl pl1 st st1 Hs Hwf (Harr _ He) Hm) as Hwf1.
    apply merge_edge_effect in Hm as (_ & _ & _ & Hsame).
    intros [Hwf' Hframe]%IH; [| by etrans | done]. split; [done |].
    intros p Hp. rewrite Hframe by done. apply Hsame.
    + destruct Hs as [_ Hedges]. destruct (Hedges e (Harr _ He)) as [Ho _].
      destruct (pallet_of_bound s base pl st _ Hwf Ho) as (q & -> & Hq).
      apply (wf_valid _ _ _ _ Hwf) in Hq. intros [= ->]. lia.
    + destruct Hs as [_ Hedges]. destruct (Hedges e (Harr _ He)) as [_ Hd].
      destruct (pallet_of_bound s base pl st _ Hwf Hd) as (q & -> & Hq).
      apply (wf_valid _ _ _ _ Hwf) in Hq. intros [= ->]. lia.
Qed.

Lemma heuristic_fresh (s : Solver) (beta : float) (st : Store) (pos : nat)
    (sol : list nat) (st' : Store) (pos' : nat) :
  solver_wf s → store_wf st →
  heuristic s beta st pos = Ok (sol, st', pos') →
  (∀ p, (p < length (pallets st))%nat → deref st' p = deref st p) ∧
  (∀ p, p ∈ sol → (length (pallets st) ≤ p < length (pallets st'))%nat) ∧
  store_wf st'.
Proof.
  intros Hs Hst. unfold heuristic.
  destruct (dummy_solution s st) as [[pl0 st0] |] eqn:Hd; [| done]. rbind.
  pose proof (dummy_solution_wf s st pl0 st0 (proj1 Hs) Hst Hd) as Hwf0.
  unfold dummy_solution in Hd. apply dummy_loop_alloc in Hd as (_ & _ & _ & Hold).
  cbn [fst snd] in Hold.
  intros [Hwf' Hframe]%(merging_frame s (length (pallets st))); [| done | | done].
  2:{ intros e. by rewrite sorted_perm. }
  split_and!.
  - intros p Hp. rewrite Hframe by done. by apply Hold.
  - apply (wf_valid _ _ _ _ Hwf').
  - apply (wf_store _ _ _ _ Hwf').
Qed.

(** For a well formed input, [heuristic] works on pallets of its own:
    the pallets that existed before the call are left as they were, the
    pallets it returns were allocated by the call, and no order line is
    left with a reference to a missing pallet. *)
Theorem heuristic_frame (s : Solver) (beta : float) (st : Store) (pos : nat)
    (sol : list nat) (st' : Store) (pos' : nat) :
  solver_wf s → store_wf st →
  heuristic s beta st pos = Ok (sol, st', pos') →
  (∀ p, (p < length (pallets st))%nat → deref st' p = deref st p) ∧
  (∀ p, p ∈ sol → (length (pallets st) ≤ p < length (pallets st'))%nat) ∧
  store_wf st'.
Proof. apply heuristic_fresh. Qed.

(** For a well formed input, the pallets [heuristic] returns are distinct
    objects that share out the order lines of the solver: each order line
    is on the pallet it is bound to and on no other, no pallet is empty,
    and no pallet holds anything else. *)
Theorem heuristic_partition (s : Solver) (beta : float) (st : Store) (pos : nat)
    (sol : list nat) (st' : Store) (pos' : nat) :
  solver_wf s → store_wf st →
  heuristic s beta st pos = Ok (sol, st', pos') →
  NoDup sol ∧
  (∀ o, o ∈ self_orderlines s →
     ∃ p, p ∈ sol ∧ pallet_of st' o = Ok p ∧
          ∀ q, q ∈ sol → (ol_id o ∈ orderlines (deref st' q) ↔ q = p)) ∧
  (∀ p, p ∈ sol → orderlines (deref st' p) ≠ ∅) ∧
  all_lines sol st' = list_to_set (line_ids s).
Proof.
  intros Hs Hst Hrun.
  pose proof (reachable_wf s st sol st' Hs Hst (heuristic_reachable _ _ _ _ _ _ _ Hrun))
    as Hwf.
  split_and!.
  - apply (wf_nodup _ _ _ _ Hwf).
  - intros o Ho. destruct (pallet_of_bound s _ sol st' o Hwf Ho) as (p & Hp & Hin).
    exists p. split_and!; [done | done |]. intros q Hq.
    rewrite (wf_member _ _ _ _ Hwf q _ Hq). unfold pallet_of in Hp.
    destruct (ol_pallet st' !! ol_id o); [| done]. split; intros ?; congruence.
  - intros p Hp Hempty. destruct (wf_nonempty _ _ _ _ Hwf p Hp) as [i Hi].
    rewrite Hempty in Hi. by apply not_elem_of_empty in Hi.
  - apply set_eq. intros i. rewrite elem_of_all_lines, elem_of_list_to_set. split.
    + intros (p & Hp & Hi). by apply (wf_lines _ _ _ _ Hwf p).
    + intros Hi. destruct (wf_bound _ _ _ _ Hwf i Hi) as (p & Hp & Hin).
      exists p. split; [done |]. by apply (wf_member _ _ _ _ Hwf).
Qed.

(** ** The driver returns the cost of what it returns *)

Lemma fmap_deref_frame (st st' : Store) (n : nat) (l : list nat) :
  (∀ p, (p < n)%nat → deref st' p = deref st p) →
  (∀ p, p ∈ l → (p < n)%nat) →
  deref st' <$> l = deref st <$> l.
Proof. pure_ctx.
  intros Hf Hl. apply list_fmap_ext. intros i p Hp. apply Hf, Hl.
  by eapply list_elem_of_lookup_2.
Qed.

Lemma search_best_cost (s : Solver) (maxtime lo hi start : float) (fuel : nat) :
  solver_wf s →
  ∀ best bestcost iterations history st pos tick out,
    store_wf st →
    (∀ p, p ∈ best → (p < length (pallets st))%nat) →
    getCost (deref st <$> best) (self_dists s) = Ok bestcost →
    search fuel s maxtime lo hi start best bestcost iterations history st pos tick
    = Some (Ok out) →
    getCost (deref (out_store out) <$> out_best out) (self_dists s)
    = Ok (out_bestcost out) ∧
    store_wf (out_store out).
Proof.
  intros Hs. induction fuel as [| fuel IH];
    intros best bestcost iterations history st pos tick out Hst Hval Hcost; [done |].
  cbn [search]. destruct (elapsed_lt (clock tick) start maxtime).
  - destruct (heuristic _ _ _ _) as [[[newsol st'] pos'] |] eqn:Hrun; [| done].
    destruct (getCost (deref st' <$> newsol) _) as [newcost |] eqn:Hnew; [| done].
    destruct (heuristic_fresh _ _ _ _ _ _ _ Hs Hst Hrun) as (Hframe & Hfresh & Hst').
    apply IH; [done | |].
    + destruct (newcost <? bestcost).
      * intros p Hp. apply Hfresh in Hp. lia.
      * intros p Hp. apply Hval in Hp.
        pose proof (heuristic_effect _ _ _ _ _ _ _ Hrun) as (_ & Hlen & _). lia.
    + destruct (newcost <? bestcost); [done |].
      by rewrite (fmap_deref_frame st st' (length (pallets st))).
  - intros [= <-]. by cbn.
Qed.

(** For a well formed input, when [__call__] returns, the cost it
    returns is the cost [getCost] gives for the solution it returns, in
    the state the call leaves: the runs of the heuristic that came after
    the best one have not touched its pallets. *)
Theorem driver_returns_cost_of_best (s : Solver) (maxtime : float)
    (betarange : float * float) (fuel : nat) (st : Store) (pos tick : nat)
    (out : Outcome) :
  solver_wf s → store_wf st →
  __call__ fuel s maxtime betarange st pos tick = Some (Ok out) →
  getCost (deref (out_store out) <$> out_best out) (self_dists s)
  = Ok (out_bestcost out) ∧
  store_wf (out_store out).
Proof.
  intros Hs Hst. unfold __call__.
  destruct (heuristic s greedy_beta st pos) as [[[seed st'] pos'] |] eqn:Hrun; [| done].
  destruct (getCost (deref st' <$> seed) _) as [seedcost |] eqn:Hcost; [| done].
  destruct (heuristic_fresh _ _ _ _ _ _ _ Hs Hst Hrun) as (_ & Hfresh & Hst').
  apply search_best_cost; [done | done | | done].
  intros p Hp. apply Hfresh in Hp. lia.
Qed.

(** ** The load of a pallet is that of its order lines *)

Lemma filter_none {A : Type} (P : A → Prop) `{∀ x, Decision (P x)} (l : list A) :
  (∀ y, y ∈ l → ¬ P y) → filter P l = [].
Proof. pure_ctx.
  induction l as [| x l IH]; intros Hn; [done |].
  rewrite filter_cons_False by (apply Hn; by left).
  apply IH. intros y Hy. apply Hn. by right.
Qed.

Lemma line_load_singleton (f : OrderLine → Z) (ls : list OrderLine) (o : OrderLine) :
  NoDup (ol_id <$> ls) → o ∈ ls → line_load f ls {[ol_id o]} = f o.
Proof. pure_ctx.
  unfold line_load. induction ls as [| x ls IH]; intros Hnd Ho.
  - by apply elem_of_nil in Ho.
  - rewrite fmap_cons in Hnd. apply NoDup_cons in Hnd as [Hx Hnd].
    rewrite filter_cons. destruct (decide (ol_id x ∈ ({[ol_id o]} : gset nat))) as [Hin | Hin].
    + apply elem_of_singleton in Hin.
      assert (x = o) as ->.
      { apply elem_of_cons in Ho as [-> | Ho]; [done |].
        destruct Hx. rewrite Hin. apply list_elem_of_fmap. eauto. }
      rewrite fmap_cons. simpl.
      assert (Hnone : filter (λ o', ol_id o' ∈ ({[ol_id o]} : gset nat)) ls = []).
      { apply filter_none. intros y Hy Hyin.
        apply elem_of_singleton in Hyin. destruct Hx. rewrite <- Hyin.
        apply list_elem_of_fmap. eauto. }
      rewrite Hnone. simpl. lia.
    + apply IH; [done |]. apply elem_of_cons in Ho as [-> | Ho]; [| done].
      destruct Hin. by apply elem_of_singleton.
Qed.

Lemma line_load_union (f : OrderLine → Z) (ls : list OrderLine) (X Y : gset nat) :
  X ## Y → line_load f ls (X ∪ Y) = line_load f ls X + line_load f ls Y.
Proof. pure_ctx.
  intros Hdisj. unfold line_load. induction ls as [| x ls IH]; [done |].
  rewrite !filter_cons.
  destruct (decide (ol_id x ∈ X)) as [HX | HX],
           (decide (ol_id x ∈ Y)) as [HY | HY].
  - destruct (Hdisj (ol_id x) HX HY).
  - rewrite decide_True by (apply elem_of_union; by left).
    rewrite !fmap_cons. simpl. lia.
  - rewrite decide_True by (apply elem_of_union; by right).
    rewrite !fmap_cons. simpl. lia.
  - rewrite decide_False; [done |].
    intros [? | ?]%elem_of_union; done.
Qed.

Lemma loads_ok_same (ls : list OrderLine) (pl : list nat) (st st1 : Store) :
  pallets st1 = pallets st → loads_ok ls pl st → loads_ok ls pl st1.
Proof. pure_ctx.
  intros H Hl p Hp. unfold deref. rewrite H. by apply Hl.
Qed.

Lemma build_pallet_loads (s : Solver) (o : OrderLine) (pl pl' : list nat)
    (st st' : Store) :
  NoDup (line_ids s) → o ∈ self_orderlines s →
  (∀ p, p ∈ pl → (p < length (pallets st))%nat) →
  loads_ok (self_orderlines s) pl st →
  build_pallet s pl st o = Ok (pl', st') →
  loads_ok (self_orderlines s) pl' st' ∧
  (∀ p, p ∈ pl' → (p < length (pallets st'))%nat).
Proof.
  intros Hnd Ho Hval Hl.
  destruct (build_pallet_cases s pl st o)
    as [-> | (P & -> & _ & _ & HW & HV & HP & _)]; [done |].
  intros [= <- <-]. cbn [pallets]. rewrite length_app. cbn [length]. split.
  - intros p [Hp | ->%list_elem_of_singleton]%elem_of_app.
    + unfold deref. cbn [pallets]. rewrite list_lookup_total_alt.
      rewrite lookup_app_l by by apply Hval.
      rewrite <- list_lookup_total_alt. by apply Hl.
    + unfold deref. cbn [pallets]. rewrite list_lookup_total_alt.
      rewrite list_lookup_middle by done. simpl. rewrite HW, HV, HP.
      by rewrite !line_load_singleton.
  - intros p [Hp%Hval | ->%list_elem_of_singleton]%elem_of_app; lia.
Qed.

Lemma dummy_loop_loads (s : Solver) (l : list OrderLine) :
  NoDup (line_ids s) →
  ∀ acc res,
    l ⊆ self_orderlines s →
    (∀ p, p ∈ acc.1 → (p < length (pallets acc.2))%nat) →
    loads_ok (self_orderlines s) acc.1 acc.2 →
    foldM (λ acc orderline, build_pallet s acc.1 acc.2 orderline) acc l = Ok res →
    loads_ok (self_orderlines s) res.1 res.2.
Proof.
  intros Hnd. induction l as [| o l IH]; intros acc res Hsub Hval Hl; cbn [foldM].
  - by intros [= <-].
  - destruct (build_pallet s acc.1 acc.2 o) as [[pl' st'] |] eqn:Hb; [| done]. rbind.
    apply (build_pallet_loads s) in Hb as [Hl' Hval']; [| done | | done | done].
    2:{ apply Hsub. by left. }
    apply IH; [| done | done]. intros x Hx. apply Hsub. by right.
Qed.

Lemma absorb_loads (ls : list OrderLine) (ids : list nat) (base : nat)
    (host hosted : nat) (pc : list Case) (lm : LayersMap) (pl pl' : list nat)
    (st st' : Store) :
  wf_state ids base pl st → loads_ok ls pl st →
  host ∈ pl → hosted ∈ pl → host ≠ hosted →
  absorb host hosted pc lm pl st = Ok (pl', st') →
  loads_ok ls pl' st'.
Proof.
  intros Hwf Hl Hh Hd Hne Habs.
  destruct (absorb_spec ids base host hosted pc lm pl st Hwf Hh Hd Hne)
    as (pl1 & st1 & Habs1 & _ & _ & HW & HV & HO & _ & _ & Hother &
        (_ & _ & Hperm) & _).
  rewrite Habs in Habs1. injection Habs1 as <- <-.
  assert (Hdisj : orderlines (deref st host) ## orderlines (deref st hosted)).
  { intros i Hi Hj.
    apply (wf_member _ _ _ _ Hwf host i Hh) in Hi.
    apply (wf_member _ _ _ _ Hwf hosted i Hd) in Hj. congruence. }
  intros p Hp. destruct (decide (p = host)) as [-> | Hph].
  - rewrite HW, HV, HO, !line_load_union by done.
    destruct (Hl host Hh) as [-> ->]. destruct (Hl hosted Hd) as [-> ->]. done.
  - rewrite (Hother p Hph). apply Hl. rewrite Hperm. by right.
Qed.

Lemma merge_edge_loads (s : Solver) (base : nat) (e : Edge) (pl pl' : list nat)
    (st st' : Store) :
  solver_wf s → wf_state (line_ids s) base pl st →
  loads_ok (self_orderlines s) pl st → e ∈ self_edges s →
  merge_edge pl st e = Ok (pl', st') →
  loads_ok (self_orderlines s) pl' st'.
Proof.
  intros [_ Hedges] Hwf Hl He. destruct (Hedges e He) as [Ho Hd].
  destruct (pallet_of_bound s base pl st _ Hwf Ho) as (host & Hhost & Hhin).
  destruct (pallet_of_bound s base pl st _ Hwf Hd) as (hosted & Hhosted & Hdin).
  unfold merge_edge. rewrite Hhost, Hhosted. rbind.
  destruct (decide (host = hosted)); [intros ?; by simplify_eq |].
  destruct (volume _ + _ >? _); [intros ?; by simplify_eq |].
  destruct (weight _ + _ >? _); [intros ?; by simplify_eq |].
  unfold pack. destruct (dubePacker _ _) as [[done pc] lm].
  destruct done.
  { apply (absorb_loads _ (line_ids s) base); [| | done ..].
    - by apply (wf_state_same _ _ _ st).
    - by apply (loads_ok_same _ _ st). }
  destruct (dubePacker _ _) as [[done' pc'] lm'].
  destruct done'.
  - apply (absorb_loads _ (line_ids s) base); [| | done ..].
    + by apply (wf_state_same _ _ _ st).
    + by apply (loads_ok_same _ _ st).
  - intros [= <- <-]. by apply (loads_ok_same _ _ st).
Qed.

Lemma merging_loads (s : Solver) (base : nat) (beta : float) (n : nat) :
  solver_wf s →
  ∀ arr pos pl st pl' st' pos',
    arr ⊆ self_edges s →
    wf_state (line_ids s) base pl st →
    loads_ok (self_orderlines s) pl st →
    merging beta n arr pos pl st = Ok (pl', st', pos') →
    loads_ok (self_orderlines s) pl' st'.
Proof.
  intros Hs. induction n as [| n IH]; intros arr pos pl st pl' st' pos' Harr Hwf Hl;
    cbn [merging].
  - by intros [= <- <- <-].
  - destruct (bra_draw beta arr pos) as [[e arr'] |] eqn:Hd; [| done]. rbind.
    apply bra_draw_elem in Hd as [He Hsub].
    destruct (merge_edge pl st e) as [[pl1 st1] |] eqn:Hm; [| done]. rbind.
    apply IH; [by etrans | |].
    + exact (merge_edge_wf s base e pl pl1 st st1 Hs Hwf (Harr _ He) Hm).
    + exact (merge_edge_loads s base e pl pl1 st st1 Hs Hwf Hl (Harr _ He) Hm).
Qed.

Lemma heuristic_loads_ok (s : Solver) (beta : float) (st : Store) (pos : nat)
    (sol : list nat) (st' : Store) (pos' : nat) :
  solver_wf s → store_wf st →
  heuristic s beta st pos = Ok (sol, st', pos') →
  loads_ok (self_orderlines s) sol st'.
Proof.
  intros Hs Hst. unfold heuristic.
  destruct (dummy_solution s st) as [[pl0 st0] |] eqn:Hd; [| done]. rbind.
  pose proof (dummy_solution_wf s st pl0 st0 (proj1 Hs) Hst Hd) as Hwf0.
  unfold dummy_solution in Hd.
  apply (dummy_loop_loads s _ (proj1 Hs)) in Hd; [| done | | ].
  2:{ by intros p ?%elem_of_nil. }
  2:{ by intros p ?%elem_of_nil. }
  intros Hm. apply (merging_loads s (length (pallets st))) in Hm; [done .. | | done | done].
  intros e. by rewrite sorted_perm.
Qed.

(** For a well formed input, the weight and the volume of each pallet
    [heuristic] returns are the sums of the weights and of the volumes of
    the order lines the pallet holds. *)
Theorem heuristic_loads (s : Solver) (beta : float) (st : Store) (pos : nat)
    (sol : list nat) (st' : Store) (pos' : nat) :
  solver_wf s → store_wf st →
  heuristic s beta st pos = Ok (sol, st', pos') →
  ∀ p, p ∈ sol →
    weight (deref st' p)
    = sumZ (ol_weight <$> filter (λ o, ol_id o ∈ orderlines (deref st' p))
                                 (self_orderlines s)) ∧
    volume (deref st' p)
    = sumZ (ol_volume <$> filter (λ o, ol_id o ∈ orderlines (deref st' p))
                                 (self_orderlines s)).
Proof.
  intros Hs Hst Hrun. exact (heuristic_loads_ok s beta st pos sol st' pos' Hs Hst Hrun).
Qed.

(** ** The sequential baseline shares out the order lines *)

Lemma elem_of_concat {A : Type} (ls : list (list A)) (x : A) :
  x ∈ concat ls → ∃ l, l ∈ ls ∧ x ∈ l.
Proof. pure_ctx.
  induction ls as [| l ls IH]; simpl; [by intros ?%elem_of_nil |].
  intros [Hx | Hx]%elem_of_app.
  - exists l. split; [by left | done].
  - destruct (IH Hx) as (l' & Hl' & Hx'). exists l'. split; [by right | done].
Qed.

(** The couples of [itertools.permutations(l, 2)] are made of two
    elements of [l], different when [l] has no duplicate. *)
Lemma elem_of_permutations2 {A : Type} (l : list A) (x y : A) :
  (x, y) ∈ permutations2 l → x ∈ l ∧ y ∈ l ∧ (NoDup l → x ≠ y).
Proof. pure_ctx.
  unfold permutations2. intros (k & Hk & Hxy)%elem_of_concat.
  apply elem_of_lookup_imap_1 in Hk as (i & z & -> & Hi).
  apply list_elem_of_fmap in Hxy as (y' & [= <- <-] & Hy).
  split_and!.
  - by eapply list_elem_of_lookup_2.
  - revert Hy. apply sublist_subseteq, sublist_delete.
  - intros Hnd ->. rewrite (delete_Permutation l i y Hi) in Hnd.
    by apply NoDup_cons in Hnd as [Hn _].
Qed.

Lemma wf_state_perm (ids : list nat) (base : nat) (pl pl' : list nat) (st : Store) :
  pl ≡ₚ pl' → wf_state ids base pl st → wf_state ids base pl' st.
Proof. pure_ctx.
  intros Hp [H1 H2 H3 H4 H5 H6 H7 H8]. split; try done.
  - by rewrite <- Hp.
  - intros p Hin. apply H4. by rewrite Hp.
  - intros i Hi. destruct (H5 i Hi) as (p & ? & ?). exists p. by rewrite <- Hp.
  - intros p i Hin. apply H6. by rewrite Hp.
  - intros p i Hin. apply H7. by rewrite Hp.
  - intros p Hin. apply H8. by rewrite Hp.
Qed.

Lemma wf_state_ext (ids : list nat) (base : nat) (pl : list nat) (st st' : Store) :
  ol_pallet st' = ol_pallet st →
  length (pallets st') = length (pallets st) →
  (∀ p, p ∈ pl → deref st' p = deref st p) →
  wf_state ids base pl st → wf_state ids base pl st'.
Proof. pure_ctx.
  intros Hb Hlen Hd [H1 H2 H3 H4 H5 H6 H7 H8]. split.
  - intros i p. rewrite Hb, Hlen. apply H1.
  - by rewrite Hlen.
  - done.
  - intros p Hp. rewrite Hlen. by apply H4.
  - intros i Hi. rewrite Hb. by apply H5.
  - intros p i Hp. rewrite Hb, Hd by done. by apply H6.
  - intros p i Hp. rewrite Hd by done. by apply H7.
  - intros p Hp. rewrite Hd by done. by apply H8.
Qed.

Lemma filter_all {A : Type} (P : A → Prop) `{∀ x, Decision (P x)} (l : list A) :
  (∀ y, y ∈ l → P y) → filter P l = l.
Proof. pure_ctx.
  induction l as [| x l IH]; intros Hn; [done |].
  rewrite filter_cons_True by (apply Hn; by left).
  f_equal. apply IH. intros y Hy. apply Hn. by right.
Qed.

Lemma elem_of_active_list (st : Store) (pl : list nat) (p : nat) :
  p ∈ active_list st pl ↔ active (deref st p) = true ∧ p ∈ pl.
Proof. pure_ctx.
  exact (list_elem_of_filter (λ p, active (deref st p) = true) pl p).
Qed.

(** The body of the loop of [sequential] keeps the agreement of the
    active pallets and the store. *)
Lemma merge_pair_wf (ids : list nat) (base : nat) (pl : list nat) (st : Store)
    (i j : nat) :
  NoDup pl → i ∈ pl → j ∈ pl → i ≠ j →
  wf_state ids base (active_list st pl) st →
  wf_state ids base (active_list (merge_pair st (i, j)) pl) (merge_pair st (i, j)).
Proof.
  intros Hnd Hi Hj Hne Hwf. unfold merge_pair. cbn [fst snd].
  destruct (active (deref st i)) eqn:Hai; [| done].
  destruct (active (deref st j)) eqn:Haj; [| done]. cbn [andb].
  destruct (volume _ + _ >? _); [done |].
  destruct (weight _ + _ >? _); [done |].
  unfold pack. destruct (dubePacker _ _) as [[done pc] lm].
  set (st1 := {| pallets := pallets st; ol_pallet := ol_pallet st; packer_calls := _ |}).
  assert (Hsame : active_list st1 pl = active_list st pl) by done.
  assert (Hwf1 : wf_state ids base (active_list st pl) st1)
    by by apply (wf_state_same _ _ _ st).
  destruct done; [| by rewrite Hsame].
  assert (Hia : i ∈ active_list st pl) by by apply elem_of_active_list.
  assert (Hja : j ∈ active_list st pl) by by apply elem_of_active_list.
  destruct (absorb_spec ids base i j pc lm (active_list st pl) st1 Hwf1 Hia Hja Hne)
    as (la' & sta & Habs & Hwf' & _ & _ & _ & _ & _ & _ & Hother &
        (Hin1 & Hin2 & Hperm) & _).
  unfold absorb in Habs.
  destruct (list_remove j (active_list st pl)) as [la'' |]; [| done].
  revert Habs. rbind. intros [= -> <-].
  change (deref st1 ?p) with (deref st p) in *.
  rewrite Hai in Hother, Hwf'.
  set (I' := {| maxWeight := maxWeight (deref st i) |}) in *.
  set (J' := {| maxWeight := maxWeight (deref st j) |}).
  set (sta := {| pallets := <[i := I']> _; ol_pallet := _; packer_calls := _ |}) in *.
  set (st' := {| pallets := <[j := J']> _; ol_pallet := _; packer_calls := _ |}).
  assert (Hvi : (i < length (pallets st))%nat).
  { apply (wf_valid _ _ _ _ Hwf). done. }
  assert (Hvj : (j < length (pallets st))%nat).
  { apply (wf_valid _ _ _ _ Hwf). done. }
  assert (Hdj : deref st' j = J').
  { unfold deref, st'. cbn [pallets]. apply list_lookup_total_insert_eq.
    by rewrite length_insert. }
  assert (Hdo : ∀ p, p ≠ j → deref st' p = deref sta p).
  { intros p Hp. unfold deref, st', sta. cbn [pallets].
    by apply list_lookup_total_insert_ne. }
  assert (Hdi : deref sta i = I').
  { unfold deref, sta. cbn [pallets]. by apply list_lookup_total_insert_eq. }
  apply (wf_state_perm _ _ la').
  - apply NoDup_Permutation.
    + apply (wf_nodup _ _ _ _ Hwf').
    + by apply NoDup_filter.
    + intros p. rewrite elem_of_active_list. split.
      * intros Hp. assert (p ≠ j) by (by intros ->).
        assert (Hpa : p ∈ active_list st pl) by (rewrite Hperm; by right).
        apply elem_of_active_list in Hpa as [Hact Hpl]. split; [| done].
        rewrite Hdo by done. destruct (decide (p = i)) as [-> | Hpi].
        -- by rewrite Hdi.
        -- by rewrite Hother.
      * intros [Hact Hpl]. destruct (decide (p = j)) as [-> | Hpj].
        { by rewrite Hdj in Hact. }
        rewrite Hdo in Hact by done.
        assert (Hpa : p ∈ active_list st pl).
        { apply elem_of_active_list. split; [| done].
          destruct (decide (p = i)) as [-> | Hpi]; [done |].
          by rewrite Hother in Hact. }
        rewrite Hperm in Hpa. apply elem_of_cons in Hpa as [-> | Hpa]; done.
  - apply (wf_state_ext _ _ _ sta); [done | | | done].
    + unfold st', sta. cbn [pallets]. by rewrite !length_insert.
    + intros p Hp. apply Hdo. by intros ->.
Qed.

Lemma merge_pairs_wf (ids : list nat) (base : nat) (pl : list nat)
    (l : list (nat * nat)) :
  NoDup pl →
  (∀ i j, (i, j) ∈ l → i ∈ pl ∧ j ∈ pl ∧ i ≠ j) →
  ∀ st,
    wf_state ids base (active_list st pl) st →
    wf_state ids base (active_list (foldl merge_pair st l) pl) (foldl merge_pair st l).
Proof.
  intros Hnd. induction l as [| [i j] l IH]; intros Hl st Hwf; [done |].
  cbn [foldl]. apply IH.
  - intros i' j' Hin. apply Hl. by right.
  - destruct (Hl i j) as (Hi & Hj & Hne); [by left |].
    by apply merge_pair_wf.
Qed.

Lemma dummy_loop_active (s : Solver) (l : list OrderLine) :
  ∀ acc res,
    (∀ p, p ∈ acc.1 → (p < length (pallets acc.2))%nat) →
    (∀ p, p ∈ acc.1 → active (deref acc.2 p) = true) →
    foldM (λ acc orderline, build_pallet s acc.1 acc.2 orderline) acc l = Ok res →
    ∀ p, p ∈ res.1 → active (deref res.2 p) = true.
Proof.
  induction l as [| o l IH]; intros acc res Hval Hact; cbn [foldM].
  - by intros [= <-].
  - destruct (build_pallet_cases s acc.1 acc.2 o)
      as [-> | (P & -> & _ & _ & _ & _ & _ & HP & _)]; [done |].
    rbind. apply IH; cbn [fst snd pallets].
    + rewrite length_app. cbn [length].
      intros p [Hp%Hval | ->%list_elem_of_singleton]%elem_of_app; lia.
    + intros p [Hp | ->%list_elem_of_singleton]%elem_of_app.
      * unfold deref. cbn [pallets]. rewrite list_lookup_total_alt.
        rewrite lookup_app_l by by apply Hval.
        rewrite <- list_lookup_total_alt. by apply Hact.
      * unfold deref. cbn [pallets]. rewrite list_lookup_total_alt.
        by rewrite list_lookup_middle.
Qed.

(** When the order lines are distinct objects, the pallets [sequential]
    returns are distinct, active, and share out the order lines of the
    solver: each order line is on the pallet it is bound to and on no
    other, no pallet is empty, and no pallet holds anything else. *)
Theorem sequential_partition (s : Solver) (st : Store) (sol : list nat) (st' : Store) :
  NoDup (line_ids s) → store_wf st →
  sequential s st = Ok (sol, st') →
  NoDup sol ∧
  (∀ p, p ∈ sol → active (deref st' p) = true ∧ orderlines (deref st' p) ≠ ∅) ∧
  (∀ o, o ∈ self_orderlines s →
     ∃ p, p ∈ sol ∧ pallet_of st' o = Ok p ∧
          ∀ q, q ∈ sol → (ol_id o ∈ orderlines (deref st' q) ↔ q = p)) ∧
  all_lines sol st' = list_to_set (line_ids s).
Proof.
  intros Hnd Hst. unfold sequential.
  destruct (dummy_solution s st) as [[pl0 st0] |] eqn:Hd; [| done]. rbind.
  pose proof (dummy_solution_wf s st pl0 st0 Hnd Hst Hd) as Hwf0.
  unfold dummy_solution in Hd.
  pose proof (dummy_loop_active s (self_orderlines s) ([], st) (pl0, st0)) as Hact.
  cbn [fst snd] in Hact.
  specialize (Hact (λ p Hp, False_ind _ (proj1 (elem_of_nil p) Hp))
                   (λ p Hp, False_ind _ (proj1 (elem_of_nil p) Hp)) Hd).
  clear Hd. rename Hact into Hd.
  destruct (sort_by_strength st0 pl0) as [pl |] eqn:Hs; [| done]. rbind.
  apply sort_by_strength_perm in Hs. intros [= <- <-].
  assert (Hndpl : NoDup pl) by (rewrite Hs; apply (wf_nodup _ _ _ _ Hwf0)).
  assert (Hall : active_list st0 pl = pl).
  { unfold active_list. apply filter_all.
    intros p Hp. apply Hd. by rewrite <- Hs. }
  pose proof (merge_pairs_wf (line_ids s) (length (pallets st)) pl (permutations2 pl)
                Hndpl) as Hwf.
  specialize (Hwf (λ i j Hin, match elem_of_permutations2 pl i j Hin with
                              | conj Hi (conj Hj Hne) => conj Hi (conj Hj (Hne Hndpl))
                              end) st0).
  rewrite Hall in Hwf. specialize (Hwf (wf_state_perm _ _ _ _ _ (symmetry Hs) Hwf0)).
  fold (active_list (foldl merge_pair st0 (permutations2 pl)) pl).
  set (st2 := foldl merge_pair st0 (permutations2 pl)) in *.
  split_and!.
  - apply (wf_nodup _ _ _ _ Hwf).
  - intros p Hp. split; [by apply elem_of_active_list in Hp as [? _] |].
    intros Hempty. destruct (wf_nonempty _ _ _ _ Hwf p Hp) as [i Hi].
    rewrite Hempty in Hi. by apply not_elem_of_empty in Hi.
  - intros o Ho. destruct (pallet_of_bound s _ _ st2 o Hwf Ho) as (p & Hp & Hin).
    exists p. split_and!; [done | done |]. intros q Hq.
    rewrite (wf_member _ _ _ _ Hwf q _ Hq). unfold pallet_of in Hp.
    destruct (ol_pallet st2 !! ol_id o); [| done]. split; intros ?; congruence.
  - apply set_eq. intros i. rewrite elem_of_all_lines, elem_of_list_to_set. split.
    + intros (p & Hp & Hi). by apply (wf_lines _ _ _ _ Hwf p).
    + intros Hi. destruct (wf_bound _ _ _ _ Hwf i Hi) as (p & Hp & Hin).
      exists p. split; [done |]. by apply (wf_member _ _ _ _ Hwf).
Qed.
(** ** The loads of the sequential baseline *)

Lemma merge_pair_loads (ls : list OrderLine) (ids : list nat) (base : nat)
    (pl : list nat) (st : Store) (i j : nat) :
  NoDup pl → i ∈ pl → j ∈ pl → i ≠ j →
  wf_state ids base (active_list st pl) st →
  loads_ok ls (active_list st pl) st →
  loads_ok ls (active_list (merge_pair st (i, j)) pl) (merge_pair st (i, j)).
Proof.
  intros Hnd Hi Hj Hne Hwf Hl. unfold merge_pair. cbn [fst snd].
  destruct (active (deref st i)) eqn:Hai; [| done].
  destruct (active (deref st j)) eqn:Haj; [| done]. cbn [andb].
  destruct (volume _ + _ >? _); [done |].
  destruct (weight _ + _ >? _); [done |].
  unfold pack. destruct (dubePacker _ _) as [[done pc] lm].
  set (st1 := {| pallets := pallets st; ol_pallet := ol_pallet st; packer_calls := _ |}).
  assert (Hsame : active_list st1 pl = active_list st pl) by done.
  assert (Hwf1 : wf_state ids base (active_list st pl) st1)
    by by apply (wf_state_same _ _ _ st).
  assert (Hl1 : loads_ok ls (active_list st pl) st1)
    by by apply (loads_ok_same _ _ st).
  destruct done; [| by rewrite Hsame].
  assert (Hia : i ∈ active_list st pl) by by apply elem_of_active_list.
  assert (Hja : j ∈ active_list st pl) by by apply elem_of_active_list.
  destruct (absorb_spec ids base i j pc lm (active_list st pl) st1 Hwf1 Hia Hja Hne)
    as (la' & sta & Habs & _ & _ & _ & _ & _ & _ & _ & Hother &
        (Hin1 & Hin2 & Hperm) & _).
  pose proof (absorb_loads ls ids base i j pc lm _ la' st1 sta Hwf1 Hl1 Hia Hja Hne Habs)
    as Hla.
  unfold absorb in Habs.
  destruct (list_remove j (active_list st pl)) as [la'' |]; [| done].
  revert Habs. rbind. intros [= -> <-].
  change (deref st1 ?p) with (deref st p) in *.
  rewrite Hai in Hother, Hla.
  set (I' := {| maxWeight := maxWeight (deref st i) |}) in *.
  set (J' := {| maxWeight := maxWeight (deref st j) |}).
  set (sta := {| pallets := <[i := I']> _; ol_pallet := _; packer_calls := _ |}) in *.
  set (st' := {| pallets := <[j := J']> _; ol_pallet := _; packer_calls := _ |}).
  assert (Hvj : (j < length (pallets st))%nat).
  { apply (wf_valid _ _ _ _ Hwf). done. }
  assert (Hdj : deref st' j = J').
  { unfold deref, st'. cbn [pallets]. apply list_lookup_total_insert_eq.
    by rewrite length_insert. }
  assert (Hdo : ∀ p, p ≠ j → deref st' p = deref sta p).
  { intros p Hp. unfold deref, st', sta. cbn [pallets].
    by apply list_lookup_total_insert_ne. }
  assert (Hdi : deref sta i = I').
  { unfold deref, sta. cbn [pallets]. apply list_lookup_total_insert_eq.
    apply (wf_valid _ _ _ _ Hwf). done. }
  intros p [Hact Hpl]%elem_of_active_list.
  destruct (decide (p = j)) as [-> | Hpj].
  { by rewrite Hdj in Hact. }
  rewrite Hdo in Hact |- * by done. apply Hla.
  assert (Hpa : p ∈ active_list st pl).
  { apply elem_of_active_list. split; [| done].
    destruct (decide (p = i)) as [-> | Hpi]; [done |].
    by rewrite Hother in Hact. }
  rewrite Hperm in Hpa. apply elem_of_cons in Hpa as [-> | Hpa]; done.
Qed.

Lemma merge_pairs_loads (ls : list OrderLine) (ids : list nat) (base : nat)
    (pl : list nat) (l : list (nat * nat)) :
  NoDup pl →
  (∀ i j, (i, j) ∈ l → i ∈ pl ∧ j ∈ pl ∧ i ≠ j) →
  ∀ st,
    wf_state ids base (active_list st pl) st →
    loads_ok ls (active_list st pl) st →
    loads_ok ls (active_list (foldl merge_pair st l) pl) (foldl merge_pair st l).
Proof.
  intros Hnd. induction l as [| [i j] l IH]; intros Hl st Hwf Hlo; [done |].
  cbn [foldl]. destruct (Hl i j) as (Hi & Hj & Hne); [by left |]. apply IH.
  - intros i' j' Hin. apply Hl. by right.
  - by apply merge_pair_wf.
  - by apply (merge_pair_loads ls ids base).
Qed.

(** When the order lines are distinct objects, the weight and the volume
    of each pallet [sequential] returns are the sums of the weights and of
    the volumes of the order lines the pallet holds. *)
Theorem sequential_loads (s : Solver) (st : Store) (sol : list nat) (st' : Store) :
  NoDup (line_ids s) → store_wf st →
  sequential s st = Ok (sol, st') →
  ∀ p, p ∈ sol →
    weight (deref st' p)
    = sumZ (ol_weight <$> filter (λ o, ol_id o ∈ orderlines (deref st' p))
                                 (self_orderlines s)) ∧
    volume (deref st' p)
    = sumZ (ol_volume <$> filter (λ o, ol_id o ∈ orderlines (deref st' p))
                                 (self_orderlines s)).
Proof.
  intros Hnd Hst. unfold sequential.
  destruct (dummy_solution s st) as [[pl0 st0] |] eqn:Hd; [| done]. rbind.
  pose proof (dummy_solution_wf s st pl0 st0 Hnd Hst Hd) as Hwf0.
  unfold dummy_solution in Hd.
  pose proof (dummy_loop_active s (self_orderlines s) ([], st) (pl0, st0)) as Hact.
  pose proof (dummy_loop_loads s (self_orderlines s) Hnd ([], st) (pl0, st0)) as Hlo.
  cbn [fst snd] in Hact, Hlo.
  specialize (Hact (λ p Hp, False_ind _ (proj1 (elem_of_nil p) Hp))
                   (λ p Hp, False_ind _ (proj1 (elem_of_nil p) Hp)) Hd).
  specialize (Hlo (λ x Hx, Hx)
                  (λ p Hp, False_ind _ (proj1 (elem_of_nil p) Hp))
                  (λ p Hp, False_ind _ (proj1 (elem_of_nil p) Hp)) Hd).
  clear Hd.
  destruct (sort_by_strength st0 pl0) as [pl |] eqn:Hs; [| done]. rbind.
  apply sort_by_strength_perm in Hs. intros [= <- <-].
  assert (Hndpl : NoDup pl) by (rewrite Hs; apply (wf_nodup _ _ _ _ Hwf0)).
  assert (Hall : active_list st0 pl = pl).
  { unfold active_list. apply filter_all.
    intros p Hp. apply Hact. by rewrite <- Hs. }
  pose proof (merge_pairs_loads (self_orderlines s) (line_ids s) (length (pallets st))
                pl (permutations2 pl) Hndpl) as Hfin.
  specialize (Hfin (λ i j Hin, match elem_of_permutations2 pl i j Hin with
                               | conj Hi (conj Hj Hne) => conj Hi (conj Hj (Hne Hndpl))
                               end) st0).
  rewrite Hall in Hfin.
  specialize (Hfin (wf_state_perm _ _ _ _ _ (symmetry Hs) Hwf0)).
  apply Hfin. intros p Hp. apply Hlo. by rewrite <- Hs.
Qed.

(** ** When the sequential baseline returns *)

(** When the oracle packs every order line, the construction loop
    returns, and the cases of the pallets it built are those the oracle
    gave for the order lines, in order. *)
Lemma dummy_loop_packed (s : Solver) (l : list OrderLine) :
  (∀ o, o ∈ l → ¬ refused s o) →
  ∀ acc,
    (∀ p, p ∈ acc.1 → (p < length (pallets acc.2))%nat) →
    ∃ res,
      foldM (λ acc orderline, build_pallet s acc.1 acc.2 orderline) acc l = Ok res ∧
      (λ p, cases (deref res.2 p)) <$> res.1
      = ((λ p, cases (deref acc.2 p)) <$> acc.1)
        ++ ((λ o, (dubePacker (Pallet_new (self_pallet_size s) (self_pallet_max_weight s))
                              (Line o)).1.2) <$> l).
Proof.
  induction l as [| o l IH]; intros Hnr acc Hval; cbn [foldM].
  - exists acc. by rewrite app_nil_r.
  - assert (Ho : ¬ refused s o) by (apply Hnr; by left).
    unfold refused in Ho.
    destruct (build_pallet_cases s acc.1 acc.2 o)
      as [Hr | (P & -> & _ & _ & _ & _ & _ & _ & Hdp)].
    { revert Hr. unfold build_pallet, pack.
      destruct (dubePacker _ (Line o)) as [[done pc] lm]. by destruct done. }
    rbind.
    edestruct IH as (res & Hres & Hcases); [| | exists res; split; [exact Hres |]].
    + intros o' Ho'. apply Hnr. by right.
    + cbn [fst snd pallets]. rewrite length_app. cbn [length].
      intros p [Hp%Hval | ->%list_elem_of_singleton]%elem_of_app; lia.
    + rewrite Hcases. cbn [fst snd]. rewrite fmap_app, fmap_cons, <- app_assoc.
      f_equal.
      * apply list_fmap_ext. intros k p Hk.
        unfold deref. cbn [pallets]. rewrite !list_lookup_total_alt.
        rewrite lookup_app_l; [done |]. apply Hval. by eapply list_elem_of_lookup_2.
      * cbn [fmap list_fmap app]. f_equal.
        unfold deref. cbn [pallets]. rewrite list_lookup_total_alt.
        rewrite list_lookup_middle by done. by rewrite Hdp.
Qed.

Lemma keyed_loop_Ok (st : Store) (l : list nat) :
  Forall (λ p, cases (deref st p) ≠ []) l →
  ∀ acc, is_Ok (foldM (λ acc p, k ← strength_key st p; Ok (acc ++ [(p, k)])) acc l).
Proof.
  induction 1 as [| p l Hp _ IH]; intros acc; simpl; [by eexists |].
  destruct (strength_key st p) as [k | e] eqn:Hk; rbind; [apply IH |].
  unfold strength_key in Hk. by destruct (cases (deref st p)).
Qed.

Lemma keyed_loop_IndexError (st : Store) (l : list nat) :
  Exists (λ p, cases (deref st p) = []) l →
  ∀ acc, foldM (λ acc p, k ← strength_key st p; Ok (acc ++ [(p, k)])) acc l
         = Raise IndexError.
Proof.
  induction 1 as [p l Hp | p l _ IH]; intros acc; simpl.
  - unfold strength_key. by rewrite Hp.
  - destruct (strength_key st p) as [k | e] eqn:Hk; rbind; [apply IH |].
    unfold strength_key in Hk. destruct (cases (deref st p)); congruence.
Qed.

(** When the oracle packs every order line on a pallet of its own,
    [sequential] returns if each of these packings has at least one case,
    and raises IndexError, from the sort key, if one of them has none. *)
Theorem sequential_returns (s : Solver) (st : Store) :
  (∀ o, o ∈ self_orderlines s → ¬ refused s o) →
  (Forall (λ o, (dubePacker (Pallet_new (self_pallet_size s) (self_pallet_max_weight s))
                            (Line o)).1.2 ≠ []) (self_orderlines s) →
   is_Ok (sequential s st)) ∧
  (Exists (λ o, (dubePacker (Pallet_new (self_pallet_size s) (self_pallet_max_weight s))
                            (Line o)).1.2 = []) (self_orderlines s) →
   sequential s st = Raise IndexError).
Proof.
  intros Hnr. unfold sequential, dummy_solution.
  destruct (dummy_loop_packed s (self_orderlines s) Hnr ([], st)) as ([pl0 st0] & -> & Hc).
  { by intros p ?%elem_of_nil. }
  cbn [fst snd fmap list_fmap app] in Hc. rbind. unfold sort_by_strength. split.
  - intros Hall.
    destruct (keyed_loop_Ok st0 pl0) with (acc := @nil (nat * Z)) as [keyed ->].
    + apply (Forall_fmap (λ p, cases (deref st0 p)) (λ c, c ≠ [])).
      rewrite Hc. by apply Forall_fmap.
    + rbind. by eexists.
  - intros Hex. rewrite keyed_loop_IndexError; [done |].
    apply (Exists_fmap (λ p, cases (deref st0 p)) (λ c, c = [])).
    rewrite Hc. by apply Exists_fmap.
Qed.

(** ** How many pallets a solution needs *)

Lemma sumZ_fmap_add {A : Type} (g h : A → Z) (l : list A) :
  sumZ ((λ x, g x + h x) <$> l) = sumZ (g <$> l) + sumZ (h <$> l).
Proof. pure_ctx.
  induction l as [| x l IH]; [done |]. rewrite !fmap_cons. simpl. rewrite IH. lia.
Qed.

Lemma sumZ_fmap_le {A : Type} (g : A → Z) (c : Z) (l : list A) :
  (∀ x, x ∈ l → g x ≤ c) → sumZ (g <$> l) ≤ Z.of_nat (length l) * c.
Proof. pure_ctx.
  induction l as [| x l IH]; intros Hle; [done |].
  rewrite fmap_cons. cbn [sumZ foldr length]. fold (sumZ (g <$> l)).
  assert (g x ≤ c) by (apply Hle; by left).
  assert (sumZ (g <$> l) ≤ Z.of_nat (length l) * c).
  { apply IH. intros y Hy. apply Hle. by right. }
  lia.
Qed.

Lemma sumZ_indicator_none {A : Type} (P : A → Prop) `{∀ x, Decision (P x)} (c : Z)
    (l : list A) :
  (∀ q, q ∈ l → ¬ P q) → sumZ ((λ q, if decide (P q) then c else 0) <$> l) = 0.
Proof. pure_ctx.
  induction l as [| x l IH]; intros Hn; [done |].
  rewrite fmap_cons. cbn [sumZ foldr].
  rewrite decide_False by (apply Hn; by left).
  apply IH. intros q Hq. apply Hn. by right.
Qed.

Lemma sumZ_indicator_one {A : Type} (P : A → Prop) `{∀ x, Decision (P x)} (c : Z)
    (l : list A) (p : A) :
  NoDup l → p ∈ l → (∀ q, q ∈ l → (P q ↔ q = p)) →
  sumZ ((λ q, if decide (P q) then c else 0) <$> l) = c.
Proof. pure_ctx.
  induction l as [| x l IH]; intros Hnd Hp Hone; [by apply elem_of_nil in Hp |].
  apply NoDup_cons in Hnd as [Hx Hnd]. rewrite fmap_cons. cbn [sumZ foldr].
  fold (sumZ ((λ q, if decide (P q) then c else 0) <$> l)).
  apply elem_of_cons in Hp as [-> | Hp].
  - rewrite decide_True by (apply Hone; [by left | done]).
    rewrite sumZ_indicator_none; [lia |].
    intros q Hq HP. apply Hone in HP; [| by right]. by subst.
  - rewrite decide_False.
    + rewrite IH; [lia | done | done |]. intros q Hq. apply Hone. by right.
    + intros HP. apply Hone in HP; [| by left]. by subst.
Qed.

Lemma line_load_cons (f : OrderLine → Z) (o : OrderLine) (ls : list OrderLine)
    (X : gset nat) :
  line_load f (o :: ls) X = (if decide (ol_id o ∈ X) then f o else 0) + line_load f ls X.
Proof. pure_ctx.
  unfold line_load. rewrite filter_cons.
  destruct (decide (ol_id o ∈ X)); [by rewrite fmap_cons | done].
Qed.

(** When each order line is on one pallet of the list and no other, the
    loads of the pallets add up to the load of all the order lines. *)
Lemma line_load_partition (f : OrderLine → Z) (ls : list OrderLine) (sol : list nat)
    (st : Store) :
  NoDup sol →
  (∀ o, o ∈ ls →
     ∃ p, p ∈ sol ∧ ∀ q, q ∈ sol → (ol_id o ∈ orderlines (deref st q) ↔ q = p)) →
  sumZ ((λ p, line_load f ls (orderlines (deref st p))) <$> sol) = sumZ (f <$> ls).
Proof. pure_ctx.
  intros Hnd. induction ls as [| o ls IH]; intros Hone.
  - unfold line_load. simpl. clear. induction sol as [| p sol IH]; [done |].
    rewrite fmap_cons. simpl. by rewrite IH.
  - rewrite (list_fmap_ext _ (λ p, (if decide (ol_id o ∈ orderlines (deref st p))
                                    then f o else 0)
                                   + line_load f ls (orderlines (deref st p))) sol);
      [| intros; apply line_load_cons].
    rewrite (sumZ_fmap_add
               (λ p, if decide (ol_id o ∈ orderlines (deref st p)) then f o else 0)
               (λ p, line_load f ls (orderlines (deref st p)))).
    destruct (Hone o) as (p & Hp & Honly); [by left |].
    rewrite (sumZ_indicator_one (λ p, ol_id o ∈ orderlines (deref st p)) (f o) sol p)
      by done.
    rewrite IH; [by rewrite fmap_cons |]. intros o' Ho'. apply Hone. by right.
Qed.

(** In a state where the working list and the store agree, with the
    loads of the pallets those of their order lines and within the
    bounds, the order lines weigh and measure no more than the pallets of
    the list can take together. *)
Lemma wf_state_count (s : Solver) (base : nat) (sol : list nat) (st : Store) :
  wf_state (line_ids s) base sol st →
  loads_ok (self_orderlines s) sol st →
  (∀ p, p ∈ sol → cap_ok s (deref st p)) →
  sumZ (ol_weight <$> self_orderlines s)
    ≤ Z.of_nat (length sol) * self_pallet_max_weight s ∧
  sumZ (ol_volume <$> self_orderlines s)
    ≤ Z.of_nat (length sol) * self_max_volume s.
Proof. pure_ctx.
  intros Hwf Hl Hcap.
  assert (Hone : ∀ o, o ∈ self_orderlines s →
            ∃ p, p ∈ sol ∧
                 ∀ q, q ∈ sol → (ol_id o ∈ orderlines (deref st q) ↔ q = p)).
  { intros o Ho. destruct (pallet_of_bound s _ sol st o Hwf Ho) as (p & Hp & Hin).
    exists p. split; [done |]. intros q Hq.
    rewrite (wf_member _ _ _ _ Hwf q _ Hq). unfold pallet_of in Hp.
    destruct (ol_pallet st !! ol_id o); [| done]. split; intros ?; congruence. }
  pose proof (wf_nodup _ _ _ _ Hwf) as Hnd. split.
  - rewrite <- (line_load_partition ol_weight _ sol st Hnd Hone).
    apply sumZ_fmap_le. intros p Hp.
    destruct (Hl p Hp) as [<- _]. destruct (Hcap p Hp) as (<- & _ & ? & _). done.
  - rewrite <- (line_load_partition ol_volume _ sol st Hnd Hone).
    apply sumZ_fmap_le. intros p Hp.
    destruct (Hl p Hp) as [_ <-]. destruct (Hcap p Hp) as (_ & <- & _ & ?). done.
Qed.

(** For a well formed input whose order lines each fit an empty pallet,
    a solution of [heuristic] or of [sequential] never has fewer pallets
    than the weight and the volume of the order lines require: the total
    weight is at most the number of pallets times the weight bound, and
    the total volume at most the number of pallets times the volume
    bound. *)
Theorem pallets_needed (s : Solver) (beta : float) (st : Store) (pos : nat) :
  solver_wf s → store_wf st → store_ok s st → lines_fit s →
  (∀ sol st' pos', heuristic s beta st pos = Ok (sol, st', pos') →
     sumZ (ol_weight <$> self_orderlines s)
       ≤ Z.of_nat (length sol) * self_pallet_max_weight s ∧
     sumZ (ol_volume <$> self_orderlines s)
       ≤ Z.of_nat (length sol) * self_max_volume s) ∧
  (∀ sol st', sequential s st = Ok (sol, st') →
     sumZ (ol_weight <$> self_orderlines s)
       ≤ Z.of_nat (length sol) * self_pallet_max_weight s ∧
     sumZ (ol_volume <$> self_orderlines s)
       ≤ Z.of_nat (length sol) * self_max_volume s).
Proof.
  intros Hs Hst Hok Hfit. split.
  - intros sol st' pos' Hrun.
    pose proof (reachable_wf s st sol st' Hs Hst (heuristic_reachable _ _ _ _ _ _ _ Hrun))
      as Hwf.
    revert Hrun. unfold heuristic.
    destruct (dummy_solution s st) as [[pl0 st0] |] eqn:Hd; [| done]. rbind.
    pose proof (dummy_solution_wf s st pl0 st0 (proj1 Hs) Hst Hd) as Hwf0.
    unfold dummy_solution in Hd.
    pose proof (dummy_loop_loads s (self_orderlines s) (proj1 Hs) ([], st) (pl0, st0)
                  (λ x Hx, Hx)
                  (λ p Hp, False_ind _ (proj1 (elem_of_nil p) Hp))
                  (λ p Hp, False_ind _ (proj1 (elem_of_nil p) Hp)) Hd) as Hl0.
    apply (dummy_loop_cap s) in Hd as [Hok0 Hval0]; [| done | done | by constructor].
    cbn [fst snd] in *.
    intros Hm.
    pose proof (merging_loads s (length (pallets st)) beta _ Hs _ _ _ _ _ _ _
                  (λ e He, proj1 (elem_of_Permutation_proper _ _ _ (sorted_perm _ _)) He)
                  Hwf0 Hl0 Hm) as Hl.
    apply (merging_cap s) in Hm as [Hok' Hval']; [| done ..].
    apply (wf_state_count s (length (pallets st)) sol st' Hwf Hl).
    intros p Hp. apply store_ok_deref; [done |].
    apply (wf_valid _ _ _ _ Hwf p Hp).
  - intros sol st'. unfold sequential.
    destruct (dummy_solution s st) as [[pl0 st0] |] eqn:Hd; [| done]. rbind.
    pose proof (dummy_solution_wf s st pl0 st0 (proj1 Hs) Hst Hd) as Hwf0.
    unfold dummy_solution in Hd.
    pose proof (dummy_loop_active s (self_orderlines s) ([], st) (pl0, st0)
                  (λ p Hp, False_ind _ (proj1 (elem_of_nil p) Hp))
                  (λ p Hp, False_ind _ (proj1 (elem_of_nil p) Hp)) Hd) as Hact.
    pose proof (dummy_loop_loads s (self_orderlines s) (proj1 Hs) ([], st) (pl0, st0)
                  (λ x Hx, Hx)
                  (λ p Hp, False_ind _ (proj1 (elem_of_nil p) Hp))
                  (λ p Hp, False_ind _ (proj1 (elem_of_nil p) Hp)) Hd) as Hl0.
    apply (dummy_loop_cap s) in Hd as [Hok0 _]; [| done | done | by constructor].
    cbn [fst snd] in *.
    destruct (sort_by_strength st0 pl0) as [pl |] eqn:Hsort; [| done]. rbind.
    apply sort_by_strength_perm in Hsort. intros [= <- <-].
    assert (Hndpl : NoDup pl) by (rewrite Hsort; apply (wf_nodup _ _ _ _ Hwf0)).
    assert (Hall : active_list st0 pl = pl).
    { unfold active_list. apply filter_all.
      intros p Hp. apply Hact. by rewrite <- Hsort. }
    assert (Hpairs : ∀ i j, (i, j) ∈ permutations2 pl → i ∈ pl ∧ j ∈ pl ∧ i ≠ j).
    { intros i j Hin. destruct (elem_of_permutations2 pl i j Hin) as (? & ? & Hne).
      split_and!; [done | done | by apply Hne]. }
    assert (Hwfp : wf_state (line_ids s) (length (pallets st)) (active_list st0 pl) st0).
    { rewrite Hall. by apply (wf_state_perm _ _ pl0). }
    assert (Hlp : loads_ok (self_orderlines s) (active_list st0 pl) st0).
    { rewrite Hall. intros p Hp. apply Hl0. by rewrite <- Hsort. }
    pose proof (merge_pairs_wf _ _ pl _ Hndpl Hpairs st0 Hwfp) as Hwf.
    pose proof (merge_pairs_loads _ _ _ pl _ Hndpl Hpairs st0 Hwfp Hlp) as Hl.
    destruct (merge_pairs_cap s (permutations2 pl) st0 Hok0) as [Hok2 _].
    fold (active_list (foldl merge_pair st0 (permutations2 pl)) pl).
    apply (wf_state_count s (length (pallets st)) _ _ Hwf Hl).
    intros p Hp. apply store_ok_deref; [done |].
    apply (wf_valid _ _ _ _ Hwf p Hp).
Qed.

(** ** When the heuristic returns *)

Lemma dummy_loop_raise (s : Solver) (l : list OrderLine) :
  ∀ acc e,
    foldM (λ acc orderline, build_pallet s acc.1 acc.2 orderline) acc l = Raise e →
    e = AssertionError.
Proof.
  induction l as [| o l IH]; intros acc e; cbn [foldM]; [done |].
  destruct (build_pallet_cases s acc.1 acc.2 o) as [-> | (P & -> & _)]; rbind.
  - by intros [= <-].
  - apply IH.
Qed.

(** On a state where the working list and the store agree, the body of
    the merging loop raises nothing. *)
Lemma merge_edge_Ok (s : Solver) (base : nat) (e : Edge) (pl : list nat) (st : Store) :
  solver_wf s → wf_state (line_ids s) base pl st → e ∈ self_edges s →
  is_Ok (merge_edge pl st e).
Proof.
  intros [_ Hedges] Hwf He. destruct (Hedges e He) as [Ho Hd].
  destruct (pallet_of_bound s base pl st _ Hwf Ho) as (host & Hhost & Hhin).
  destruct (pallet_of_bound s base pl st _ Hwf Hd) as (hosted & Hhosted & Hdin).
  unfold merge_edge. rewrite Hhost, Hhosted. rbind.
  destruct (decide (host = hosted)); [by eexists |].
  destruct (volume _ + _ >? _); [by eexists |].
  destruct (weight _ + _ >? _); [by eexists |].
  unfold pack. destruct (dubePacker _ _) as [[done pc] lm].
  destruct done.
  { edestruct (absorb_spec (line_ids s) base host hosted pc lm pl)
      as (pl1 & st1 & -> & _); [| done | done | done | by eexists].
    by apply (wf_state_same _ _ _ st). }
  destruct (dubePacker _ _) as [[done' pc'] lm'].
  destruct done'; [| by eexists].
  edestruct (absorb_spec (line_ids s) base hosted host pc' lm' pl)
    as (pl1 & st1 & -> & _); [| done | done | done | by eexists].
  by apply (wf_state_same _ _ _ st).
Qed.

(** The merging loop runs to its end when the index computations of the
    generator succeed. *)
Lemma merging_Ok (s : Solver) (base : nat) (beta : float) (n : nat) :
  solver_wf s →
  ∀ arr pos pl st,
    length arr = n →
    arr ⊆ self_edges s →
    (∀ k, (pos ≤ k < pos + n)%nat → is_Ok (log_index (tape k) beta)) →
    wf_state (line_ids s) base pl st →
    is_Ok (merging beta n arr pos pl st).
Proof.
  intros Hs. induction n as [| n IH]; intros arr pos pl st Hlen Harr Hidx Hwf;
    cbn [merging]; [by eexists |].
  destruct (Hidx pos ltac:(lia)) as [r Hr].
  destruct (bra_draw_Ok beta arr pos r Hr) as (e & He & Hdraw); [by destruct arr |].
  rewrite Hdraw. rbind.
  assert (Hin : e ∈ self_edges s).
  { apply Harr. by eapply list_elem_of_lookup_2. }
  destruct (merge_edge_Ok s base e pl st Hs Hwf Hin) as [[pl1 st1] Hm].
  rewrite Hm. rbind. apply IH.
  - rewrite length_delete by eauto. lia.
  - intros x Hx. apply Harr. revert Hx. apply sublist_subseteq, sublist_delete.
  - intros k Hk. apply Hidx. lia.
  - exact (merge_edge_wf s base e pl pl1 st st1 Hs Hwf Hin Hm).
Qed.

(** For a well formed input, once the dummy solution is built the call
    returns, provided the index computations of the generator succeed:
    the only exception left to [heuristic] is the one of the construction
    loop. *)
Lemma heuristic_Ok (s : Solver) (beta : float) (st : Store) (pos : nat) :
  solver_wf s → store_wf st →
  (∀ k, (pos ≤ k < pos + length (self_edges s))%nat →
     is_Ok (log_index (tape k) beta)) →
  (is_Ok (dummy_solution s st) → is_Ok (heuristic s beta st pos)) ∧
  (∀ e, heuristic s beta st pos = Raise e → e = AssertionError).
Proof.
  intros Hs Hst Hidx.
  assert (Hafter : ∀ pl0 st0, dummy_solution s st = Ok (pl0, st0) →
            is_Ok (merging beta (length (sorted (λ y x, saving y >? saving x)
                                                (self_edges s)))
                           (sorted (λ y x, saving y >? saving x) (self_edges s))
                           pos pl0 st0)).
  { intros pl0 st0 Hd.
    apply (merging_Ok s (length (pallets st))); [done | done | | |].
    - intros e. by rewrite sorted_perm.
    - intros k Hk. apply Hidx. by rewrite sorted_length in Hk.
    - by apply (dummy_solution_wf s st); [apply Hs | |]. }
  unfold heuristic. split.
  - intros [[pl0 st0] Hd]. rewrite Hd. rbind. by apply Hafter.
  - intros e. destruct (dummy_solution s st) as [[pl0 st0] | e'] eqn:Hd; rbind.
    + destruct (Hafter pl0 st0 eq_refl) as [res ->]. done.
    + intros [= <-]. by apply (dummy_loop_raise s _ _ _ Hd).
Qed.

Lemma dummy_solution_Ok (s : Solver) (st : Store) :
  (∀ o, o ∈ self_orderlines s → ¬ refused s o) → is_Ok (dummy_solution s st).
Proof.
  intros Hnr. unfold dummy_solution.
  destruct (dummy_loop_packed s (self_orderlines s) Hnr ([], st)) as (res & -> & _).
  - by intros p ?%elem_of_nil.
  - by eexists.
Qed.

(** For a well formed input, when the index computations of the
    generator raise nothing for the draws the call consumes, [heuristic]
    returns a solution as soon as the oracle packs every order line on a
    pallet of its own, and the only exception it can raise is the
    AssertionError of the construction loop: neither the look-up of a
    pallet, nor the removal from the working list, nor the merging loop
    fails. *)
Theorem heuristic_returns (s : Solver) (beta : float) (st : Store) (pos : nat) :
  solver_wf s → store_wf st →
  (∀ k, (pos ≤ k < pos + length (self_edges s))%nat →
     is_Ok (log_index (tape k) beta)) →
  ((∀ o, o ∈ self_orderlines s → ¬ refused s o) → is_Ok (heuristic s beta st pos)) ∧
  (∀ e, heuristic s beta st pos = Raise e → e = AssertionError).
Proof.
  intros Hs Hst Hidx. destruct (heuristic_Ok s beta st pos Hs Hst Hidx) as [Hok Hraise].
  split; [| done]. intros Hnr. by apply Hok, dummy_solution_Ok.
Qed.

(** ** The solution the driver returns *)

Lemma heuristic_store_ok (s : Solver) (beta : float) (st : Store) (pos : nat)
    (sol : list nat) (st' : Store) (pos' : nat) :
  store_ok s st → lines_fit s →
  heuristic s beta st pos = Ok (sol, st', pos') → store_ok s st'.
Proof.
  intros Hok Hfit. unfold heuristic, dummy_solution.
  destruct (foldM _ _ _) as [[pl st1] |] eqn:Hd; [| done]. rbind.
  apply (dummy_loop_cap s) in Hd as [Hok1 Hval1]; [| done | done | by constructor].
  intros Hm. by apply (merging_cap s) in Hm as [Hok' _].
Qed.

(** The loop of the driver keeps what the runs of the heuristic
    establish: a property [I] of the store that each run keeps, and a
    property [Q] of a solution that each run gives to its result and that
    only depends on the pallets of the solution. *)
Lemma search_invariant (I : Store → Prop) (Q : list nat → Store → Prop) (s : Solver)
    (maxtime lo hi start : float) (fuel : nat) :
  (∀ sol st st', (∀ p, p ∈ sol → deref st' p = deref st p) → Q sol st → Q sol st') →
  (∀ beta st pos sol st' pos',
     I st → heuristic s beta st pos = Ok (sol, st', pos') →
     I st' ∧ Q sol st' ∧
     (∀ p, (p < length (pallets st))%nat → deref st' p = deref st p) ∧
     (length (pallets st) ≤ length (pallets st'))%nat ∧
     (∀ p, p ∈ sol → (p < length (pallets st'))%nat)) →
  ∀ best bestcost iterations history st pos tick out,
    I st →
    (∀ p, p ∈ best → (p < length (pallets st))%nat) →
    Q best st →
    search fuel s maxtime lo hi start best bestcost iterations history st pos tick
    = Some (Ok out) →
    I (out_store out) ∧ Q (out_best out) (out_store out).
Proof.
  intros Hframe Hrun. induction fuel as [| fuel IH];
    intros best bestcost iterations history st pos tick out HI Hval HQ; [done |].
  cbn [search]. destruct (elapsed_lt (clock tick) start maxtime).
  - destruct (heuristic _ _ _ _) as [[[newsol st'] pos'] |] eqn:Hh; [| done].
    destruct (getCost (deref st' <$> newsol) _) as [newcost |]; [| done].
    destruct (Hrun _ _ _ _ _ _ HI Hh) as (HI' & HQ' & Hold & Hlen & Hnew).
    apply IH; [done | |]; destruct (newcost <? bestcost); try done.
    + intros p Hp. apply Hval in Hp. lia.
    + apply (Hframe best st st'); [| done]. intros p Hp. by apply Hold, Hval.
  - intros [= <-]. by cbn.
Qed.

Lemma wf_state_one_pallet (s : Solver) (base : nat) (sol : list nat) (st : Store) :
  wf_state (line_ids s) base sol st →
  ∀ o, o ∈ self_orderlines s →
    ∃ p, p ∈ sol ∧ ∀ q, q ∈ sol → (ol_id o ∈ orderlines (deref st q) ↔ q = p).
Proof. pure_ctx.
  intros Hwf o Ho. destruct (pallet_of_bound s _ sol st o Hwf Ho) as (p & Hp & Hin).
  exists p. split; [done |]. intros q Hq.
  rewrite (wf_member _ _ _ _ Hwf q _ Hq). unfold pallet_of in Hp.
  destruct (ol_pallet st !! ol_id o); [| done]. split; intros ?; congruence.
Qed.

(** For a well formed input whose order lines each fit an empty pallet,
    the solution [__call__] returns is a sound plan in the state the call
    leaves, however many runs of the heuristic came after the one that
    built it: its pallets are distinct, every order line is on one of
    them and no other, and each pallet is within the bounds of the solver
    with, for weight and volume, the sums over the order lines it holds. *)
Theorem driver_solution_sound (s : Solver) (maxtime : float)
    (betarange : float * float) (fuel : nat) (st : Store) (pos tick : nat)
    (out : Outcome) :
  solver_wf s → store_wf st → store_ok s st → lines_fit s →
  __call__ fuel s maxtime betarange st pos tick = Some (Ok out) →
  NoDup (out_best out) ∧
  (∀ o, o ∈ self_orderlines s →
     ∃ p, p ∈ out_best out ∧
          ∀ q, q ∈ out_best out →
               (ol_id o ∈ orderlines (deref (out_store out) q) ↔ q = p)) ∧
  (∀ p, p ∈ out_best out →
     cap_ok s (deref (out_store out) p) ∧
     weight (deref (out_store out) p)
     = sumZ (ol_weight <$> filter (λ o, ol_id o ∈ orderlines (deref (out_store out) p))
                                  (self_orderlines s)) ∧
     volume (deref (out_store out) p)
     = sumZ (ol_volume <$> filter (λ o, ol_id o ∈ orderlines (deref (out_store out) p))
                                  (self_orderlines s))).
Proof.
  intros Hs Hst Hok Hfit.
  set (I := λ st : Store, store_wf st ∧ store_ok s st).
  set (Q := λ (sol : list nat) (st : Store),
         NoDup sol ∧
         (∀ o, o ∈ self_orderlines s →
            ∃ p, p ∈ sol ∧ ∀ q, q ∈ sol → (ol_id o ∈ orderlines (deref st q) ↔ q = p)) ∧
         (∀ p, p ∈ sol → cap_ok s (deref st p)) ∧
         loads_ok (self_orderlines s) sol st).
  assert (Hframe : ∀ sol st st',
            (∀ p, p ∈ sol → deref st' p = deref st p) → Q sol st → Q sol st').
  { intros sol st1 st2 Heq (Hnd & Hone & Hcap & Hl). split_and!; [done | | |].
    - intros o Ho. destruct (Hone o Ho) as (p & Hp & Honly). exists p. split; [done |].
      intros q Hq. rewrite (Heq q Hq). by apply Honly.
    - intros p Hp. rewrite (Heq p Hp). by apply Hcap.
    - intros p Hp. rewrite (Heq p Hp). by apply Hl. }
  assert (Hrun : ∀ beta st pos sol st' pos',
            I st → heuristic s beta st pos = Ok (sol, st', pos') →
            I st' ∧ Q sol st' ∧
            (∀ p, (p < length (pallets st))%nat → deref st' p = deref st p) ∧
            (length (pallets st) ≤ length (pallets st'))%nat ∧
            (∀ p, p ∈ sol → (p < length (pallets st'))%nat)).
  { intros beta st1 pos1 sol st2 pos2 [Hst1 Hok1] Hh.
    destruct (heuristic_fresh _ _ _ _ _ _ _ Hs Hst1 Hh) as (Hold & Hfresh & Hst2).
    pose proof (heuristic_store_ok _ _ _ _ _ _ _ Hok1 Hfit Hh) as Hok2.
    pose proof (reachable_wf s st1 sol st2 Hs Hst1
                  (heuristic_reachable _ _ _ _ _ _ _ Hh)) as Hwf.
    pose proof (heuristic_effect _ _ _ _ _ _ _ Hh) as (_ & Hlen & _).
    split; [by split |]. split; [| split; [done | split; [lia |]]].
    - unfold Q. split_and!.
      + apply (wf_nodup _ _ _ _ Hwf).
      + by apply (wf_state_one_pallet s (length (pallets st1))).
      + intros p Hp. apply store_ok_deref; [done |]. apply Hfresh in Hp. lia.
      + by apply (heuristic_loads_ok s beta st1 pos1 sol st2 pos2).
    - intros p Hp. apply Hfresh in Hp. lia. }
  unfold __call__.
  destruct (heuristic s greedy_beta st pos) as [[[seed st'] pos'] |] eqn:Hseed; [| done].
  destruct (getCost (deref st' <$> seed) _) as [seedcost |]; [| done].
  destruct (Hrun _ _ _ _ _ _ (conj Hst Hok) Hseed) as (HI' & HQ' & _ & _ & Hval).
  intros Hsearch.
  destruct (search_invariant I Q s _ _ _ _ _ Hframe Hrun _ _ _ _ _ _ _ _ HI' Hval HQ'
              Hsearch) as (_ & Hnd & Hone & Hcap & Hl).
  split_and!; [done | done |]. intros p Hp. split; [by apply Hcap | by apply Hl].
Qed.

End Solver.

(** ** The selector on real numbers *)

Lemma ln_neg (x : R) : (0 < x < 1)%R → (ln x < 0)%R.
Proof. intros [H0 H1]. rewrite <- ln_1. by apply ln_increasing. Qed.

Lemma py_int_nonneg (x : R) : (0 <= x)%R → py_int x = Int_part x ∧ 0 ≤ Int_part x.
Proof.
  intros Hx. unfold py_int. destruct (Rle_dec 0 x) as [_ | Hn]; [| done].
  split; [done |].
  destruct (base_Int_part x) as [_ Hlo].
  assert (Hlt : (IZR (-1) < IZR (Int_part x))%R) by (simpl; lra).
  apply lt_IZR in Hlt. lia.
Qed.

(** For a draw and a bias strictly between 0 and 1 the logarithm is
    defined and positive, so that [int] is the floor. *)
Lemma log_index_R_floor (u beta : R) :
  (0 < u < 1)%R → (0 < beta < 1)%R →
  log_index_R u beta = Ok (Int_part (ln u / ln (1 - beta))) ∧
  0 ≤ Int_part (ln u / ln (1 - beta)).
Proof.
  intros Hu Hb.
  assert (Hlu : (ln u < 0)%R) by by apply ln_neg.
  assert (Hlb : (ln (1 - beta) < 0)%R) by (apply ln_neg; lra).
  assert (Hq : (0 <= ln u / ln (1 - beta))%R).
  { replace (ln u / ln (1 - beta))%R with ((- ln u) * / (- ln (1 - beta)))%R
      by (field; lra).
    apply Rmult_le_pos; [lra |]. left. apply Rinv_0_lt_compat. lra. }
  destruct (py_int_nonneg _ Hq) as [Hi Hpos]. split; [| done].
  unfold log_index_R, py_log.
  destruct (Rle_dec u 0); [lra |].
  destruct (Rle_dec (1 - beta) 0); [lra |].
  destruct (Req_dec_T (ln (1 - beta)) 0); [lra |].
  simpl. by rewrite Hi.
Qed.

(** ** The end-to-end scenario on four order lines *)

(** C4. Four distinct order lines at the locations 1, 2, 3 and 4, whose
    weights and volumes are not negative and together within the capacity
    of a pallet; edges between order lines of the solver, one at least for
    every two of them; a distance matrix over the depot and the four
    locations; a Packing Oracle that always succeeds and whose layer
    assignment lists the order lines it packed.  Whatever the random
    draws (strictly between 0 and 1), [heuristic(0.9999)] returns exactly
    one pallet, which holds the four order lines, and [getCost] of that
    solution is the length of the path from the depot through the four
    order lines, in the visiting order of the layer assignment, and back
    to the depot. *)
Theorem end_to_end_four_lines
    (dubePacker : Pallet → Payload → bool * list Case * LayersMap)
    (o1 o2 o3 o4 : OrderLine) (edges : list Edge) (dists : list (list Z))
    (pallet_size : Z * Z * Z) (pallet_max_weight : Z)
    (tape : nat → R) (st : Store) (pos : nat) :
  let s := __init__ [o1; o2; o3; o4] edges dists pallet_size pallet_max_weight in
  location <$> [o1; o2; o3; o4] = [1; 2; 3; 4]%nat →
  solver_wf s →
  fully_connected s →
  fits_one_pallet s →
  always_packs dubePacker →
  packs_all_lines dubePacker →
  covers dists [1; 2; 3; 4]%nat →
  store_wf st →
  (∀ n, (0 < tape n < 1)%R) →
  ∃ p st' a b c d,
    heuristic R log_index_R tape dubePacker s GREEDY_BETA st pos
      = Ok ([p], st', (pos + length edges)%nat) ∧
    orderlines (deref st' p) = list_to_set (ol_id <$> [o1; o2; o3; o4]) ∧
    [a; b; c; d] ≡ₚ [o1; o2; o3; o4] ∧
    is_visiting_order (layersMap (deref st' p)) [a; b; c; d] ∧
    getCost [deref st' p] dists
    = Ok (distance dists 0 (location a)
          + distance dists (location a) (location b)
          + distance dists (location b) (location c)
          + distance dists (location c) (location d)
          + distance dists (location d) 0).
Proof.
  intros s Hloc Hs Hconn Hfit Hpack Hcover Hdists Hst Htape.
  destruct (heuristic_one_pallet R log_index_R tape dubePacker s GREEDY_BETA st pos)
    as (p & st' & Hrun & Hlines & Hkeys & _); try done.
  { intros k. destruct (log_index_R_floor (tape k) GREEDY_BETA (Htape k)) as [-> _].
    - unfold GREEDY_BETA. lra.
    - by eexists. }
  set (P := deref st' p) in *. simpl in Hkeys.
  assert (Hids : (λ e : OrderLine * Z, ol_id e.1) <$> layersMap P
                 ≡ₚ ol_id <$> [o1; o2; o3; o4]).
  { rewrite <- Hkeys. by rewrite <- list_fmap_compose. }
  assert (Hlocs : (λ e : OrderLine * Z, location e.1) <$> layersMap P
                  ≡ₚ [1; 2; 3; 4]%nat).
  { rewrite <- Hloc, <- Hkeys. by rewrite <- list_fmap_compose. }
  assert (Hc : costable dists P).
  { split_and!.
    - intros E. rewrite E in Hkeys. by apply Permutation_nil_l in Hkeys.
    - rewrite Hids. apply Hs.
    - intros i j Hi Hj. apply Hdists.
      + apply elem_of_cons in Hi as [-> | Hi]; [by left | right]. by rewrite <- Hlocs.
      + apply elem_of_cons in Hj as [-> | Hj]; [by left | right]. by rewrite <- Hlocs. }
  destruct (getCost_reference dists) as [Href _].
  destruct (Href [P]) as [[orders Hord] Hcost]; [by constructor |].
  specialize (Hcost orders Hord).
  apply Forall2_cons_inv_l in Hord as (order & rest & Hv & Hrest & ->).
  apply Forall2_nil_inv_l in Hrest as ->.
  assert (Hperm : order ≡ₚ [o1; o2; o3; o4]).
  { rewrite <- Hkeys. apply visiting_order_perm; [| done]. destruct Hc as (_ & ? & _). done. }
  pose proof (Permutation_length Hperm) as Hlen.
  destruct order as [| a [| b [| c [| d [| ? ?]]]]]; try done.
  exists p, st', a, b, c, d. split_and!; try done.
  fold P. rewrite Hcost. unfold cost_reference, route_cost. simpl. f_equal. lia.
Qed.

(** ** More on the selector on real numbers *)

(** The draws and biases [math.log] does not accept: on a pool that is
    not empty the generator raises ValueError for a draw of 0 (or below),
    ZeroDivisionError for a bias of 0 (the base of the logarithm is 1) and
    ValueError for a bias of 1 or more; on the empty pool it yields
    nothing and looks at neither. *)
Theorem bra_rejects {A : Type} (array : list A) (beta : R) (tape : nat → R) (pos : nat) :
  (array = [] → _bra R log_index_R tape array beta pos = Ok ([], pos)) ∧
  (array ≠ [] → (tape pos <= 0)%R →
   _bra R log_index_R tape array beta pos = Raise ValueError) ∧
  (array ≠ [] → (0 < tape pos)%R → beta = 0%R →
   _bra R log_index_R tape array beta pos = Raise ZeroDivisionError) ∧
  (array ≠ [] → (0 < tape pos)%R → (1 <= beta)%R →
   _bra R log_index_R tape array beta pos = Raise ValueError).
Proof.
  split_and!.
  - by intros ->.
  - intros Hne Hu. destruct array as [| x array]; [done |].
    unfold _bra. cbn [length bra_loop]. unfold bra_draw, log_index_R, py_log.
    by destruct (Rle_dec (tape pos) 0).
  - intros Hne Hu ->. destruct array as [| x array]; [done |].
    unfold _bra. cbn [length bra_loop]. unfold bra_draw, log_index_R, py_log.
    destruct (Rle_dec (tape pos) 0); [lra |].
    destruct (Rle_dec (1 - 0) 0); [lra |].
    destruct (Req_dec_T (ln (1 - 0)) 0) as [_ | Hn]; [done |].
    destruct Hn. rewrite Rminus_0_r. apply ln_1.
  - intros Hne Hu Hb. destruct array as [| x array]; [done |].
    unfold _bra. cbn [length bra_loop]. unfold bra_draw, log_index_R, py_log.
    destruct (Rle_dec (tape pos) 0); [lra |].
    destruct (Rle_dec (1 - beta) 0); [done | lra].
Qed.

(** ** The selector on doubles *)











(** ** The helpers on small inputs *)

Example sorted_ascending_stable :
  sorted (λ y x : nat * Z, y.2 <? x.2) [(1%nat, 2); (2%nat, 0); (3%nat, 2); (4%nat, 0)]
  = [(2%nat, 0); (4%nat, 0); (1%nat, 2); (3%nat, 2)].
Proof. reflexivity. Qed.

Example sorted_reverse_stable :
  sorted (λ y x : nat * Z, y.2 >? x.2) [(1%nat, 2); (2%nat, 0); (3%nat, 2); (4%nat, 5)]
  = [(4%nat, 5); (1%nat, 2); (3%nat, 2); (2%nat, 0)].
Proof. reflexivity. Qed.

Example permutations2_three :
  permutations2 [1; 2; 3] = [(1, 2); (1, 3); (2, 1); (2, 3); (3, 1); (3, 2)].
Proof. reflexivity. Qed.

Example list_remove_first : list_remove 2 [1; 2; 3; 2] = Ok [1; 3; 2].
Proof. reflexivity. Qed.

Example list_remove_absent : list_remove 5 [1; 2; 3] = Raise ValueError.
Proof. reflexivity. Qed.

Example dict_keeps_place :
  dict [(line1, 0); (line2, 1); (line1, 7)] = [(line1, 7); (line2, 1)].
Proof. reflexivity. Qed.

Example bra_scripted :
  _bra Z script_index script_tape [10; 20; 30; 40] 0 0 = Ok ([40; 20; 30; 10], 4%nat).
Proof. reflexivity. Qed.

(** On the warehouse of four order lines with the oracle that always
    succeeds, the scripted draws 3, 10, 17, ... pick the edges 2-3, 1-2
    and 1-4 first: one pallet is left, visited in the order 1, 2, 3, 4. *)
Example heuristic_scripted :
  match heuristic Z script_index script_tape pack_all demo_solver 0 empty_store 0 with
  | Ok (sol, st, pos) =>
      sol = [0%nat] ∧ pos = 6%nat ∧
      weight (deref st 0) = 110 ∧
      (layersMap (deref st 0)).*1 = [line1; line2; line3; line4] ∧
      getCost (deref st <$> sol) demo_dists = Ok 35
  | Raise _ => False
  end.
Proof. vm_compute. by split_and!. Qed.

Example sequential_scripted :
  match sequential pack_heavier_below demo_solver empty_store with
  | Ok (sol, st) =>
      sol = [3%nat] ∧
      (layersMap (deref st 3)).*1 = [line4; line2; line1; line3] ∧
      active (deref st 1) = false
  | Raise _ => False
  end.
Proof. vm_compute. by split_and!. Qed.

(** ** The properties on concrete inputs *)

(** Membership in a list that is written out. *)
Ltac in_list := repeat first [apply list_elem_of_here | apply list_elem_of_further].

(** An order line of 500 units of weight on pallets that bear 450: the
    oracle refuses it and both constructions abort. *)
Lemma construction_failure_is_fatal_witness :
  heavy_line ∈ self_orderlines heavy_solver ∧
  refused pack_heavier_below heavy_solver heavy_line ∧
  heuristic Z script_index script_tape pack_heavier_below heavy_solver 0 empty_store 0
    = Raise AssertionError ∧
  sequential pack_heavier_below heavy_solver empty_store = Raise AssertionError.
Proof.
  assert (Hin : heavy_line ∈ self_orderlines heavy_solver).
  { simpl. apply elem_of_cons. right. apply elem_of_cons. by left. }
  assert (Href : refused pack_heavier_below heavy_solver heavy_line) by reflexivity.
  split; [exact Hin |]. split; [exact Href |].
  exact (construction_failure_is_fatal Z script_index script_tape pack_heavier_below
           heavy_solver 0 empty_store 0 heavy_line Hin Href).
Defined.

(** The pallets of [line1] and [line3] weigh the same: the oracle refuses
    them in both orientations and nothing changes but the record of its
    two invocations. *)
Lemma failed_merge_atomic_witness :
  ∃ pl st e,
    dummy_solution pack_heavier_below demo_solver empty_store = Ok (pl, st) ∧
    e ∈ demo_edges ∧
    pallet_of st (origin e) = Ok 0%nat ∧
    pallet_of st (end_ e) = Ok 2%nat ∧
    (pack_heavier_below (deref st 0) (Load (deref st 2))).1.1 = false ∧
    (pack_heavier_below (deref st 2) (Load (deref st 0))).1.1 = false ∧
    merge_edge pack_heavier_below pl st e
    = Ok (pl, with_calls st [(deref st 0, Load (deref st 2));
                             (deref st 2, Load (deref st 0))]).
Proof.
  destruct (dummy_solution pack_heavier_below demo_solver empty_store)
    as [[pl st] |] eqn:Hd; [| by vm_compute in Hd].
  vm_compute in Hd. injection Hd as <- <-.
  eexists _, _, {| origin := line1; end_ := line3; saving := 10 |}.
  split; [reflexivity |].
  split; [cbv [demo_edges]; in_list |].
  split; [reflexivity |]. split; [reflexivity |].
  split; [reflexivity |]. split; [reflexivity |].
  refine (proj1 (proj2 (failed_merge_atomic Z script_index script_tape pack_heavier_below
                          _ _ _ 0%nat 2%nat _ _ _ _ _ _) _)).
  - reflexivity.
  - reflexivity.
  - discriminate.
  - vm_compute. discriminate.
  - vm_compute. discriminate.
  - reflexivity.
  - reflexivity.
Defined.

Lemma demo_solver_wf : solver_wf demo_solver.
Proof.
  split.
  - unfold line_ids. simpl. compute_done.
  - intros e He. cbv [demo_solver __init__ self_edges demo_edges] in He.
    repeat (apply elem_of_cons in He as [-> | He]);
      try (by apply elem_of_nil in He);
      split; cbv [demo_solver __init__ self_orderlines origin end_]; in_list.
Qed.

Lemma empty_store_wf : store_wf empty_store.
Proof. intros i p. unfold empty_store. simpl. by rewrite lookup_empty. Qed.

(** The edge from [line1] to [line2]: the pallet of [line2] is the
    heavier one, the oracle refuses the forward orientation and accepts
    the reverse one, and the pallet of [line1] is absorbed. *)
Lemma merge_conservation_witness :
  ∃ pl st e,
    reachable pack_heavier_below demo_solver empty_store pl st ∧
    e ∈ self_edges demo_solver ∧
    pallet_of st (origin e) = Ok 0%nat ∧
    pallet_of st (end_ e) = Ok 1%nat ∧
    (pack_heavier_below (deref st 0) (Load (deref st 1))).1.1 = false ∧
    (pack_heavier_below (deref st 1) (Load (deref st 0))).1.1 = true ∧
    ∃ pl' st',
      merge_edge pack_heavier_below pl st e = Ok (pl', st') ∧
      all_lines pl' st' = all_lines pl st ∧
      weight (deref st' 1) = weight (deref st 0) + weight (deref st 1) ∧
      volume (deref st' 1) = volume (deref st 0) + volume (deref st 1) ∧
      1%nat ∈ pl' ∧ (0%nat ∉ pl') ∧
      (∀ i, i ∈ orderlines (deref st 0) → ol_pallet st' !! i = Some 1%nat).
Proof.
  destruct (dummy_solution pack_heavier_below demo_solver empty_store)
    as [[pl st] |] eqn:Hd; [| by vm_compute in Hd].
  pose proof Hd as Hd'. vm_compute in Hd'. injection Hd' as <- <-.
  assert (Hreach : reachable pack_heavier_below demo_solver empty_store _ _)
    by (apply reach_built; exact Hd).
  assert (He : {| origin := line1; end_ := line2; saving := 12 |}
               ∈ self_edges demo_solver)
    by (cbv [demo_solver __init__ self_edges demo_edges]; in_list).
  eexists _, _, {| origin := line1; end_ := line2; saving := 12 |}.
  split; [exact Hreach |]. split; [exact He |].
  split; [reflexivity |]. split; [reflexivity |].
  split; [reflexivity |]. split; [reflexivity |].
  destruct (merge_conservation pack_heavier_below demo_solver empty_store _ _
              {| origin := line1; end_ := line2; saving := 12 |} 0%nat 1%nat
              demo_solver_wf empty_store_wf Hreach He)
    as (pl' & st' & Hm & Hall & _ & HW & HV & _ & Hin & Hnin & _ & Hbind).
  - reflexivity.
  - reflexivity.
  - discriminate.
  - vm_compute. discriminate.
  - vm_compute. discriminate.
  - right. reflexivity.
  - exists pl', st'. split; [exact Hm |]. split; [exact Hall |].
    split; [exact HW |]. split; [exact HV |]. split; [exact Hin |].
    split; [exact Hnin |]. exact Hbind.
Defined.

Lemma demo_lines_fit : lines_fit demo_solver.
Proof.
  unfold lines_fit. cbv [demo_solver __init__ self_orderlines].
  repeat constructor; vm_compute; discriminate.
Qed.

(** The warehouse of four order lines, with the oracle that is sensitive
    to the orientation: both constructions return, and their pallets are
    within the bounds. *)
Lemma capacity_invariant_witness :
  store_ok demo_solver empty_store ∧
  lines_fit demo_solver ∧
  (∃ sol st' pos',
     heuristic Z script_index script_tape pack_heavier_below demo_solver 0
               empty_store 0 = Ok (sol, st', pos') ∧
     Forall (λ p, within_capacity st' p ∧ cap_ok demo_solver (deref st' p)) sol) ∧
  (∃ sol st',
     sequential pack_heavier_below demo_solver empty_store = Ok (sol, st') ∧
     Forall (λ p, within_capacity st' p ∧ cap_ok demo_solver (deref st' p)) sol).
Proof.
  assert (Hok : store_ok demo_solver empty_store) by constructor.
  destruct (capacity_invariant Z script_index script_tape pack_heavier_below
              demo_solver 0 empty_store 0 Hok demo_lines_fit) as [Hh Hs].
  split; [exact Hok |]. split; [exact demo_lines_fit |]. split.
  - destruct (heuristic Z script_index script_tape pack_heavier_below demo_solver 0
                        empty_store 0) as [[[sol st'] pos'] |] eqn:Hrun;
      [| by vm_compute in Hrun].
    exists sol, st', pos'. split; [reflexivity |]. exact (Hh sol st' pos' eq_refl).
  - destruct (sequential pack_heavier_below demo_solver empty_store)
      as [[sol st'] |] eqn:Hrun; [| by vm_compute in Hrun].
    exists sol, st'. split; [reflexivity |]. exact (Hs sol st' eq_refl).
Defined.

(** One pallet with the order lines at the locations 3, 1 and 2 on the
    layers 1, 0 and 0: the visiting order is 1, 2, 3.  A second pallet
    with a single order line at location 4. *)
Lemma getCost_reference_witness :
  let P := {| maxWeight := 450; maxVolume := 1440000; weight := 70; volume := 3000;
              orderlines := {[1%nat; 2%nat; 3%nat]}; cases := [];
              layersMap := [(line3, 1); (line1, 0); (line2, 0)]; active := true |} in
  let Q := {| maxWeight := 450; maxVolume := 1440000; weight := 40; volume := 1000;
              orderlines := {[4%nat]}; cases := [];
              layersMap := [(line4, 0)]; active := true |} in
  Forall (costable demo_dists) [P; Q] ∧
  Forall2 (λ P order, is_visiting_order (layersMap P) order)
          [P; Q] [[line1; line2; line3]; [line4]] ∧
  getCost [P; Q] demo_dists = Ok (10 + 3 + 4 + 14 + (16 + 16)) ∧
  covers demo_dists [location line4] ∧
  getCost [Q] demo_dists = Ok (16 + 16).
Proof.
  intros P Q.
  assert (Hcov : ∀ locs, locs ⊆ [1; 2; 3; 4]%nat → covers demo_dists locs).
  { intros locs Hsub i j Hi Hj.
    assert (Hall : ∀ k, k ∈ 0%nat :: locs → k ∈ [0; 1; 2; 3; 4]%nat).
    { intros k [-> | Hk%Hsub]%elem_of_cons; [by left | by right]. }
    apply Hall in Hi, Hj.
    repeat (apply elem_of_cons in Hi as [-> | Hi]); try (by apply elem_of_nil in Hi);
      repeat (apply elem_of_cons in Hj as [-> | Hj]); try (by apply elem_of_nil in Hj);
      by eexists. }
  assert (HP : costable demo_dists P).
  { split_and!; [done | simpl; compute_done |].
    apply Hcov. simpl. intros k Hk.
    repeat (apply elem_of_cons in Hk as [-> | Hk]); try (by apply elem_of_nil in Hk);
      in_list. }
  assert (HQ : costable demo_dists Q).
  { split_and!; [done | simpl; compute_done |].
    apply Hcov. simpl. intros k Hk.
    repeat (apply elem_of_cons in Hk as [-> | Hk]); try (by apply elem_of_nil in Hk);
      in_list. }
  assert (Hc : Forall (costable demo_dists) [P; Q])
    by (constructor; [exact HP | constructor; [exact HQ | constructor]]).
  assert (Hv : Forall2 (λ P order, is_visiting_order (layersMap P) order)
                       [P; Q] [[line1; line2; line3]; [line4]]).
  { constructor; [| constructor; [| constructor]].
    - exists [(line1, 0); (line2, 0); (line3, 1)]. split_and!; [done | |].
      + repeat constructor; simpl; lia.
      + intros v. destruct (decide (v = 0)) as [-> | H0]; [done |].
        destruct (decide (v = 1)) as [-> | H1]; [done |].
        unfold P. cbn [layersMap].
        rewrite !filter_cons_False, !filter_nil by (cbn [snd]; congruence).
        done.
    - exists [(line4, 0)]. split_and!; [done | repeat constructor | done]. }
  assert (HcQ : covers demo_dists [location line4]).
  { apply Hcov. intros k ->%list_elem_of_singleton. simpl. in_list. }
  split; [exact Hc |]. split; [exact Hv |].
  split; [exact (proj2 (proj1 (getCost_reference demo_dists) [P; Q] Hc) _ Hv) |].
  split; [exact HcQ |].
  exact (proj2 (getCost_reference demo_dists) Q line4 0 eq_refl HcQ).
Defined.

Lemma pack_all_always : always_packs pack_all.
Proof. by intros P payload. Qed.

Lemma pack_all_lines : packs_all_lines pack_all.
Proof.
  intros P [o | Q]; cbn [pack_all stack fst snd payload_lines];
    rewrite fmap_app; [done |].
  by rewrite <- list_fmap_compose.
Qed.

Ltac find_edge l :=
  match l with
  | ?e :: ?l' =>
      first [ exists e; split;
              [ cbv [demo_solver __init__ self_edges demo_edges]; in_list
              | first [left; by split | right; by split] ]
            | find_edge l' ]
  end.

Lemma demo_connected : fully_connected demo_solver.
Proof.
  intros o o' Ho Ho' Hne.
  cbv [demo_solver __init__ self_orderlines] in Ho, Ho'.
  repeat (apply elem_of_cons in Ho as [-> | Ho]); try (by apply elem_of_nil in Ho);
    repeat (apply elem_of_cons in Ho' as [-> | Ho']);
    try (by apply elem_of_nil in Ho'); try done;
    let l := eval cbv [demo_edges] in demo_edges in find_edge l.
Qed.

Lemma demo_fits : fits_one_pallet demo_solver.
Proof.
  split_and!.
  - cbv [demo_solver __init__ self_orderlines].
    repeat constructor; vm_compute; discriminate.
  - vm_compute. discriminate.
  - vm_compute. discriminate.
Qed.

Lemma demo_covers : covers demo_dists [1; 2; 3; 4]%nat.
Proof.
  intros i j Hi Hj.
  repeat (apply elem_of_cons in Hi as [-> | Hi]); try (by apply elem_of_nil in Hi);
    repeat (apply elem_of_cons in Hj as [-> | Hj]); try (by apply elem_of_nil in Hj);
    by eexists.
Qed.

(** The warehouse of four order lines with the oracle that always
    succeeds, every draw being 1/2. *)
Lemma end_to_end_four_lines_witness :
  solver_wf demo_solver ∧
  fully_connected demo_solver ∧
  fits_one_pallet demo_solver ∧
  always_packs pack_all ∧
  packs_all_lines pack_all ∧
  covers demo_dists [1; 2; 3; 4]%nat ∧
  store_wf empty_store ∧
  (∀ n : nat, (0 < (λ _ : nat, 1 / 2) n < 1)%R) ∧
  ∃ p st' a b c d,
    heuristic R log_index_R (λ _, 1 / 2)%R pack_all demo_solver GREEDY_BETA empty_store 0
      = Ok ([p], st', (0 + length demo_edges)%nat) ∧
    orderlines (deref st' p) = list_to_set (ol_id <$> [line1; line2; line3; line4]) ∧
    [a; b; c; d] ≡ₚ [line1; line2; line3; line4] ∧
    is_visiting_order (layersMap (deref st' p)) [a; b; c; d] ∧
    getCost [deref st' p] demo_dists
    = Ok (distance demo_dists 0 (location a)
          + distance demo_dists (location a) (location b)
          + distance demo_dists (location b) (location c)
          + distance demo_dists (location c) (location d)
          + distance demo_dists (location d) 0).
Proof.
  assert (Htape : ∀ n : nat, (0 < (λ _ : nat, 1 / 2) n < 1)%R) by (intros _; lra).
  split; [exact demo_solver_wf |]. split; [exact demo_connected |].
  split; [exact demo_fits |]. split; [exact pack_all_always |].
  split; [exact pack_all_lines |]. split; [exact demo_covers |].
  split; [exact empty_store_wf |]. split; [exact Htape |].
  exact (end_to_end_four_lines pack_all line1 line2 line3 line4 demo_edges demo_dists
           (120, 80, 150) 450 (λ _, 1 / 2)%R empty_store 0 eq_refl demo_solver_wf
           demo_connected demo_fits pack_all_always pack_all_lines demo_covers
           empty_store_wf Htape).
Defined.

(** *** The cost *)

(** A pallet without layer assignment after a regular one. *)
Lemma getCost_empty_layers_witness :
  Exists (λ P, layersMap P = []) [pallet_b; pallet_bare] ∧
  getCost [pallet_b; pallet_bare] demo_dists = Raise IndexError.
Proof.
  assert (Hex : Exists (λ P, layersMap P = []) [pallet_b; pallet_bare]).
  { apply Exists_cons_tl, Exists_cons_hd. reflexivity. }
  split; [exact Hex |].
  exact (proj2 (getCost_empty_layers demo_dists [pallet_b; pallet_bare]) Hex).
Defined.

(** *** The selector *)

(** A draw of 0, a bias of 0 and a bias of 1 on a pool of two. *)
Lemma bra_rejects_witness :
  _bra R log_index_R (λ _, 0)%R (@nil Z) (1 / 2)%R 0 = Ok ([], 0%nat) ∧
  _bra R log_index_R (λ _, 0)%R [10; 20] (1 / 2)%R 0 = Raise ValueError ∧
  _bra R log_index_R (λ _, 1 / 2)%R [10; 20] 0%R 0 = Raise ZeroDivisionError ∧
  _bra R log_index_R (λ _, 1 / 2)%R [10; 20] 1%R 0 = Raise ValueError.
Proof.
  assert (Hne : [10; 20] ≠ []) by discriminate.
  assert (H0 : ((λ _ : nat, 0) 0%nat <= 0)%R) by (simpl; lra).
  assert (Hh : (0 < (λ _ : nat, 1 / 2) 0%nat)%R) by (simpl; lra).
  assert (H1 : (1 <= 1)%R) by lra.
  split; [exact (proj1 (bra_rejects (@nil Z) (1 / 2)%R (λ _, 0)%R 0) eq_refl) |].
  split; [exact (proj1 (proj2 (bra_rejects [10; 20] (1 / 2)%R (λ _, 0)%R 0)) Hne H0) |].
  split.
  - exact (proj1 (proj2 (proj2 (bra_rejects [10; 20] 0%R (λ _, 1 / 2)%R 0)))
             Hne Hh eq_refl).
  - exact (proj2 (proj2 (proj2 (bra_rejects [10; 20] 1%R (λ _, 1 / 2)%R 0))) Hne Hh H1).
Defined.

(** *** The heuristic *)

(** The warehouse of four order lines with the oracle that is sensitive
    to the orientation. *)
Lemma heuristic_resources_witness :
  ∃ sol st' pos',
    heuristic Z script_index script_tape pack_heavier_below demo_solver 0 empty_store 0
    = Ok (sol, st', pos') ∧
    pos' = 6%nat ∧
    length (pallets st') = 4%nat ∧
    (4 ≤ length (packer_calls st') ≤ 16)%nat ∧
    (length sol ≤ 4)%nat.
Proof.
  destruct (heuristic Z script_index script_tape pack_heavier_below demo_solver 0
                      empty_store 0) as [[[sol st'] pos'] |] eqn:Hrun;
    [| by vm_compute in Hrun].
  exists sol, st', pos'. split; [reflexivity |].
  exact (heuristic_resources Z script_index script_tape pack_heavier_below demo_solver 0
           empty_store 0 sol st' pos' Hrun).
Defined.

(** Two runs in a row: the second one leaves the pallets of the first
    one as they were. *)
Lemma heuristic_frame_witness :
  solver_wf demo_solver ∧ store_wf empty_store ∧
  ∃ sol1 st1 pos1 sol2 st2 pos2,
    heuristic Z script_index script_tape pack_heavier_below demo_solver 0 empty_store 0
    = Ok (sol1, st1, pos1) ∧
    heuristic Z script_index script_tape pack_heavier_below demo_solver 0 st1 pos1
    = Ok (sol2, st2, pos2) ∧
    length (pallets st1) = 4%nat ∧
    (∀ p, (p < length (pallets st1))%nat → deref st2 p = deref st1 p) ∧
    (∀ p, p ∈ sol2 → (length (pallets st1) ≤ p < length (pallets st2))%nat) ∧
    store_wf st2.
Proof.
  split; [exact demo_solver_wf |]. split; [exact empty_store_wf |].
  destruct (heuristic Z script_index script_tape pack_heavier_below demo_solver 0
                      empty_store 0) as [[[sol1 st1] pos1] |] eqn:Hrun1;
    [| by vm_compute in Hrun1].
  destruct (heuristic_frame Z script_index script_tape pack_heavier_below demo_solver 0
              empty_store 0 sol1 st1 pos1 demo_solver_wf empty_store_wf Hrun1)
    as (_ & _ & Hst1).
  destruct (heuristic Z script_index script_tape pack_heavier_below demo_solver 0
                      st1 pos1) as [[[sol2 st2] pos2] |] eqn:Hrun2.
  2:{ vm_compute in Hrun1. injection Hrun1 as <- <- <-. by vm_compute in Hrun2. }
  exists sol1, st1, pos1, sol2, st2, pos2.
  split; [reflexivity |]. split; [exact Hrun2 |].
  split; [vm_compute in Hrun1; by injection Hrun1 as <- <- <- |].
  exact (heuristic_frame Z script_index script_tape pack_heavier_below demo_solver 0
           st1 pos1 sol2 st2 pos2 demo_solver_wf Hst1 Hrun2).
Defined.

Lemma heuristic_partition_witness :
  solver_wf demo_solver ∧ store_wf empty_store ∧
  ∃ sol st' pos',
    heuristic Z script_index script_tape pack_heavier_below demo_solver 0 empty_store 0
    = Ok (sol, st', pos') ∧
    NoDup sol ∧
    (∀ o, o ∈ self_orderlines demo_solver →
       ∃ p, p ∈ sol ∧ pallet_of st' o = Ok p ∧
            ∀ q, q ∈ sol → (ol_id o ∈ orderlines (deref st' q) ↔ q = p)) ∧
    (∀ p, p ∈ sol → orderlines (deref st' p) ≠ ∅) ∧
    all_lines sol st' = list_to_set (line_ids demo_solver).
Proof.
  split; [exact demo_solver_wf |]. split; [exact empty_store_wf |].
  destruct (heuristic Z script_index script_tape pack_heavier_below demo_solver 0
                      empty_store 0) as [[[sol st'] pos'] |] eqn:Hrun;
    [| by vm_compute in Hrun].
  exists sol, st', pos'. split; [reflexivity |].
  exact (heuristic_partition Z script_index script_tape pack_heavier_below demo_solver 0
           empty_store 0 sol st' pos' demo_solver_wf empty_store_wf Hrun).
Defined.

Lemma heuristic_loads_witness :
  solver_wf demo_solver ∧ store_wf empty_store ∧
  ∃ sol st' pos',
    heuristic Z script_index script_tape pack_heavier_below demo_solver 0 empty_store 0
    = Ok (sol, st', pos') ∧
    ∀ p, p ∈ sol →
      weight (deref st' p)
      = sumZ (ol_weight <$> filter (λ o, ol_id o ∈ orderlines (deref st' p))
                                   (self_orderlines demo_solver)) ∧
      volume (deref st' p)
      = sumZ (ol_volume <$> filter (λ o, ol_id o ∈ orderlines (deref st' p))
                                   (self_orderlines demo_solver)).
Proof.
  split; [exact demo_solver_wf |]. split; [exact empty_store_wf |].
  destruct (heuristic Z script_index script_tape pack_heavier_below demo_solver 0
                      empty_store 0) as [[[sol st'] pos'] |] eqn:Hrun;
    [| by vm_compute in Hrun].
  exists sol, st', pos'. split; [reflexivity |].
  exact (heuristic_loads Z script_index script_tape pack_heavier_below demo_solver 0
           empty_store 0 sol st' pos' demo_solver_wf empty_store_wf Hrun).
Defined.

(** The four order lines weigh 110 and measure 4000 together. *)
Lemma pallets_needed_witness :
  solver_wf demo_solver ∧ store_wf empty_store ∧
  store_ok demo_solver empty_store ∧ lines_fit demo_solver ∧
  (∃ sol st' pos',
     heuristic Z script_index script_tape pack_heavier_below demo_solver 0 empty_store 0
     = Ok (sol, st', pos') ∧
     110 ≤ Z.of_nat (length sol) * 450 ∧
     4000 ≤ Z.of_nat (length sol) * 1440000) ∧
  (∃ sol st',
     sequential pack_heavier_below demo_solver empty_store = Ok (sol, st') ∧
     110 ≤ Z.of_nat (length sol) * 450 ∧
     4000 ≤ Z.of_nat (length sol) * 1440000).
Proof.
  assert (Hok : store_ok demo_solver empty_store) by constructor.
  destruct (pallets_needed Z script_index script_tape pack_heavier_below demo_solver 0
              empty_store 0 demo_solver_wf empty_store_wf Hok demo_lines_fit)
    as [Hh Hs].
  split; [exact demo_solver_wf |]. split; [exact empty_store_wf |].
  split; [exact Hok |]. split; [exact demo_lines_fit |]. split.
  - destruct (heuristic Z script_index script_tape pack_heavier_below demo_solver 0
                        empty_store 0) as [[[sol st'] pos'] |] eqn:Hrun;
      [| by vm_compute in Hrun].
    exists sol, st', pos'. split; [reflexivity |]. exact (Hh sol st' pos' eq_refl).
  - destruct (sequential pack_heavier_below demo_solver empty_store)
      as [[sol st'] |] eqn:Hrun; [| by vm_compute in Hrun].
    exists sol, st'. split; [reflexivity |]. exact (Hs sol st' eq_refl).
Defined.

(** *** The driver *)

Lemma driver_returns_cost_of_best_witness :
  solver_wf demo_solver ∧ store_wf empty_store ∧
  ∃ out,
    __call__ Z script_index script_uniform script_elapsed 0 script_tape script_clock
             pack_heavier_below 10 demo_solver 3 (1, 2) empty_store 0 0
    = Some (Ok out) ∧
    getCost (deref (out_store out) <$> out_best out) (self_dists demo_solver)
    = Ok (out_bestcost out) ∧
    store_wf (out_store out).
Proof.
  split; [exact demo_solver_wf |]. split; [exact empty_store_wf |].
  destruct (__call__ Z script_index script_uniform script_elapsed 0 script_tape
                     script_clock pack_heavier_below 10 demo_solver 3 (1, 2)
                     empty_store 0 0) as [[out |] |] eqn:Hrun;
    [| by vm_compute in Hrun ..].
  exists out. split; [reflexivity |].
  exact (driver_returns_cost_of_best Z script_index script_uniform script_elapsed 0
           script_tape script_clock pack_heavier_below demo_solver 3 (1, 2) 10%nat
           empty_store 0%nat 0%nat out demo_solver_wf empty_store_wf Hrun).
Defined.

Lemma driver_solution_sound_witness :
  solver_wf demo_solver ∧ store_wf empty_store ∧
  store_ok demo_solver empty_store ∧ lines_fit demo_solver ∧
  ∃ out,
    __call__ Z script_index script_uniform script_elapsed 0 script_tape script_clock
             pack_heavier_below 10 demo_solver 3 (1, 2) empty_store 0 0
    = Some (Ok out) ∧
    NoDup (out_best out) ∧
    (∀ o, o ∈ self_orderlines demo_solver →
       ∃ p, p ∈ out_best out ∧
            ∀ q, q ∈ out_best out →
                 (ol_id o ∈ orderlines (deref (out_store out) q) ↔ q = p)) ∧
    (∀ p, p ∈ out_best out →
       cap_ok demo_solver (deref (out_store out) p) ∧
       weight (deref (out_store out) p)
       = sumZ (ol_weight <$> filter (λ o, ol_id o ∈ orderlines (deref (out_store out) p))
                                    (self_orderlines demo_solver)) ∧
       volume (deref (out_store out) p)
       = sumZ (ol_volume <$> filter (λ o, ol_id o ∈ orderlines (deref (out_store out) p))
                                    (self_orderlines demo_solver))).
Proof.
  assert (Hok : store_ok demo_solver empty_store) by constructor.
  split; [exact demo_solver_wf |]. split; [exact empty_store_wf |].
  split; [exact Hok |]. split; [exact demo_lines_fit |].
  destruct (__call__ Z script_index script_uniform script_elapsed 0 script_tape
                     script_clock pack_heavier_below 10 demo_solver 3 (1, 2)
                     empty_store 0 0) as [[out |] |] eqn:Hrun;
    [| by vm_compute in Hrun ..].
  exists out. split; [reflexivity |].
  exact (driver_solution_sound Z script_index script_uniform script_elapsed 0
           script_tape script_clock pack_heavier_below demo_solver 3 (1, 2) 10%nat
           empty_store 0%nat 0%nat out demo_solver_wf empty_store_wf Hok
           demo_lines_fit Hrun).
Defined.

(** *** The sequential baseline *)

Lemma demo_lines_NoDup : NoDup (line_ids demo_solver).
Proof. exact (proj1 demo_solver_wf). Qed.

Lemma sequential_partition_witness :
  NoDup (line_ids demo_solver) ∧ store_wf empty_store ∧
  ∃ sol st',
    sequential pack_heavier_below demo_solver empty_store = Ok (sol, st') ∧
    NoDup sol ∧
    (∀ p, p ∈ sol → active (deref st' p) = true ∧ orderlines (deref st' p) ≠ ∅) ∧
    (∀ o, o ∈ self_orderlines demo_solver →
       ∃ p, p ∈ sol ∧ pallet_of st' o = Ok p ∧
            ∀ q, q ∈ sol → (ol_id o ∈ orderlines (deref st' q) ↔ q = p)) ∧
    all_lines sol st' = list_to_set (line_ids demo_solver).
Proof.
  split; [exact demo_lines_NoDup |]. split; [exact empty_store_wf |].
  destruct (sequential pack_heavier_below demo_solver empty_store)
    as [[sol st'] |] eqn:Hrun; [| by vm_compute in Hrun].
  exists sol, st'. split; [reflexivity |].
  exact (sequential_partition pack_heavier_below demo_solver empty_store sol st'
           demo_lines_NoDup empty_store_wf Hrun).
Defined.

Lemma sequential_loads_witness :
  NoDup (line_ids demo_solver) ∧ store_wf empty_store ∧
  ∃ sol st',
    sequential pack_heavier_below demo_solver empty_store = Ok (sol, st') ∧
    ∀ p, p ∈ sol →
      weight (deref st' p)
      = sumZ (ol_weight <$> filter (λ o, ol_id o ∈ orderlines (deref st' p))
                                   (self_orderlines demo_solver)) ∧
      volume (deref st' p)
      = sumZ (ol_volume <$> filter (λ o, ol_id o ∈ orderlines (deref st' p))
                                   (self_orderlines demo_solver)).
Proof.
  split; [exact demo_lines_NoDup |]. split; [exact empty_store_wf |].
  destruct (sequential pack_heavier_below demo_solver empty_store)
    as [[sol st'] |] eqn:Hrun; [| by vm_compute in Hrun].
  exists sol, st'. split; [reflexivity |].
  exact (sequential_loads pack_heavier_below demo_solver empty_store sol st'
           demo_lines_NoDup empty_store_wf Hrun).
Defined.

(** The warehouse of four order lines, each with one case, and the
    warehouse with an order line that has none. *)
Lemma sequential_returns_witness :
  (∀ o, o ∈ self_orderlines demo_solver → ¬ refused pack_all demo_solver o) ∧
  Forall (λ o, (pack_all (Pallet_new (self_pallet_size demo_solver)
                                     (self_pallet_max_weight demo_solver))
                         (Line o)).1.2 ≠ []) (self_orderlines demo_solver) ∧
  is_Ok (sequential pack_all demo_solver empty_store) ∧
  (∀ o, o ∈ self_orderlines caseless_solver → ¬ refused pack_all caseless_solver o) ∧
  Exists (λ o, (pack_all (Pallet_new (self_pallet_size caseless_solver)
                                     (self_pallet_max_weight caseless_solver))
                         (Line o)).1.2 = []) (self_orderlines caseless_solver) ∧
  sequential pack_all caseless_solver empty_store = Raise IndexError.
Proof.
  assert (Hnr : ∀ o, o ∈ self_orderlines demo_solver → ¬ refused pack_all demo_solver o)
    by (intros o _; discriminate).
  assert (Hnr' : ∀ o, o ∈ self_orderlines caseless_solver →
                      ¬ refused pack_all caseless_solver o)
    by (intros o _; discriminate).
  assert (Hall : Forall (λ o, (pack_all (Pallet_new (self_pallet_size demo_solver)
                                                    (self_pallet_max_weight demo_solver))
                                        (Line o)).1.2 ≠ [])
                        (self_orderlines demo_solver))
    by (repeat constructor; discriminate).
  assert (Hex : Exists (λ o, (pack_all (Pallet_new (self_pallet_size caseless_solver)
                                          (self_pallet_max_weight caseless_solver))
                                       (Line o)).1.2 = [])
                       (self_orderlines caseless_solver))
    by (apply Exists_cons_tl, Exists_cons_hd; reflexivity).
  split; [exact Hnr |]. split; [exact Hall |].
  split; [exact (proj1 (sequential_returns pack_all demo_solver empty_store Hnr) Hall) |].
  split; [exact Hnr' |]. split; [exact Hex |].
  exact (proj2 (sequential_returns pack_all caseless_solver empty_store Hnr') Hex).
Defined.

(** *** The corrected claims on concrete inputs *)



(** A search of three time units on the warehouse of four order lines,
    the clock advancing by one unit per reading: the readings 1 and 2
    are within the budget, the reading 3 is not, two iterations. *)
Lemma driver_monotone_witness :
  (∃ newsol st' pos' newcost best' bestcost',
     script_elapsed (script_clock 1) 0 3 = true ∧
     heuristic Z script_index script_tape pack_heavier_below demo_solver
               (script_uniform 1 2 (script_tape 0)) empty_store 1
       = Ok (newsol, st', pos') ∧
     getCost (deref st' <$> newsol) (self_dists demo_solver) = Ok newcost ∧
     search Z script_index script_uniform script_elapsed script_tape script_clock
            pack_heavier_below 6 demo_solver 3 1 2 0 [] 100 0 [] empty_store 0 1
     = search Z script_index script_uniform script_elapsed script_tape script_clock
              pack_heavier_below 5 demo_solver 3 1 2 0 best' bestcost' 1
              ([] ++ [bestcost']) st' pos' 2 ∧
     (newcost < 100 → best' = newsol ∧ bestcost' = newcost)) ∧
  (∃ out seed st' pos' seedcost runs new,
     __call__ Z script_index script_uniform script_elapsed 0 script_tape script_clock
              pack_heavier_below 10 demo_solver 3 (1, 2) empty_store 0 0
       = Some (Ok out) ∧
     heuristic Z script_index script_tape pack_heavier_below demo_solver 0 empty_store 0
       = Ok (seed, st', pos') ∧
     getCost (deref st' <$> seed) (self_dists demo_solver) = Ok seedcost ∧
     budget_lasts Z script_elapsed script_clock (script_clock 0) 3 1 (length runs) ∧
     iterations_of Z script_index script_uniform script_tape pack_heavier_below
                   (length runs) demo_solver 1 2 st' pos'
       = Ok (runs, out_store out, out_pos out) ∧
     length runs = 2%nat ∧
     new = best_costs seedcost runs.*2 ∧
     out_iterations out = length runs ∧
     out_history out = self_history demo_solver ++ new ∧
     length new = out_iterations out ∧
     non_increasing (seedcost :: new) ∧
     last (seedcost :: new) = Some (out_bestcost out) ∧
     out_bestcost out = foldl Z.min seedcost runs.*2 ∧
     out_best out = best_solution seed seedcost runs ∧
     ∃ out',
       __call__ Z script_index script_uniform script_elapsed 0 script_tape script_clock
                pack_heavier_below 3 demo_solver 3 (1, 2) empty_store 0 0
         = Some (Ok out') ∧
       out_iterations out' = length runs ∧
       out_history out' = self_history demo_solver ++ best_costs seedcost runs.*2 ∧
       out_bestcost out' = foldl Z.min seedcost runs.*2 ∧
       out_best out' = best_solution seed seedcost runs ∧
       out_store out' = out_store out).
Proof.
  destruct (driver_monotone Z script_index script_uniform script_elapsed 0
              script_tape script_clock pack_heavier_below demo_solver 3 (1, 2))
    as (Hstep & Hcall & Hback).
  split.
  - destruct (heuristic Z script_index script_tape pack_heavier_below demo_solver
                        (script_uniform 1 2 (script_tape 0)) empty_store 1)
      as [[[newsol st'] pos'] |] eqn:Hrun; [| by vm_compute in Hrun].
    destruct (getCost (deref st' <$> newsol) (self_dists demo_solver))
      as [newcost |] eqn:Hcost.
    2:{ vm_compute in Hrun. injection Hrun as <- <- <-. by vm_compute in Hcost. }
    destruct (Hstep 5%nat 0 [] 100 0%nat [] empty_store 0%nat 1%nat newsol st' pos'
                newcost eq_refl Hrun Hcost) as (best' & bestcost' & Heq & Hlt & _).
    exists newsol, st', pos', newcost, best', bestcost'.
    split; [reflexivity |]. split; [reflexivity |]. split; [exact Hcost |].
    split; [exact Heq | exact Hlt].
  - destruct (__call__ Z script_index script_uniform script_elapsed 0 script_tape
                       script_clock pack_heavier_below 10 demo_solver 3 (1, 2)
                       empty_store 0 0) as [[out |] |] eqn:Hrun;
      [| by vm_compute in Hrun ..].
    destruct (Hcall 10%nat empty_store 0%nat 0%nat out Hrun)
      as (seed & st' & pos' & seedcost & runs & new & Hs & Hc & Hb & Hr & Hnew & Hn & Hh
          & Hlen & Hmono & Hlast & Hmin & Hbest).
    assert (Hiter : out_iterations out = 2%nat).
    { vm_compute in Hrun. by injection Hrun as <-. }
    assert (Htwo : length runs = 2%nat) by (by rewrite <- Hn).
    destruct (Hback empty_store 0%nat 0%nat seed st' pos' seedcost runs (out_store out)
                (out_pos out) 3%nat Hs Hc Hb Hr) as (out' & Hout').
    { rewrite Htwo. lia. }
    exists out, seed, st', pos', seedcost, runs, new.
    split; [reflexivity |]. split; [exact Hs |]. split; [exact Hc |].
    split; [exact Hb |]. split; [exact Hr |]. split; [exact Htwo |].
    split; [exact Hnew |]. split; [exact Hn |]. split; [exact Hh |].
    split; [exact Hlen |]. split; [exact Hmono |]. split; [exact Hlast |].
    split; [exact Hmin |]. split; [exact Hbest |].
    exists out'. exact Hout'.
Defined.

(** Two searches in a row on the same solver, of two iterations and of
    three: the history holds the two entries of the first one followed
    by the three of the second. *)
Lemma history_accumulates_witness :
  ∃ out out2 seedcost (runs : list (list nat * Z)) new seedcost2
    (runs2 : list (list nat * Z)) new2,
    __call__ Z script_index script_uniform script_elapsed 0 script_tape script_clock
             pack_heavier_below 10 demo_solver 3 (1, 2) empty_store 0 0
      = Some (Ok out) ∧
    __call__ Z script_index script_uniform script_elapsed 0 script_tape script_clock
             pack_heavier_below 10 (self_after demo_solver out) 4 (1, 2)
             (out_store out) (out_pos out) (out_tick out)
      = Some (Ok out2) ∧
    budget_lasts Z script_elapsed script_clock (script_clock 0) 3 1 (length runs) ∧
    new = best_costs seedcost runs.*2 ∧
    out_iterations out = length runs ∧
    out_iterations out = 2%nat ∧
    out_history out = self_history demo_solver ++ new ∧
    length new = out_iterations out ∧
    budget_lasts Z script_elapsed script_clock (script_clock (out_tick out)) 4
                 (S (out_tick out)) (length runs2) ∧
    new2 = best_costs seedcost2 runs2.*2 ∧
    out_iterations out2 = length runs2 ∧
    out_iterations out2 = 3%nat ∧
    out_history out2 = self_history demo_solver ++ new ++ new2 ∧
    length new2 = out_iterations out2.
Proof.
  destruct (__call__ Z script_index script_uniform script_elapsed 0 script_tape
                     script_clock pack_heavier_below 10 demo_solver 3 (1, 2)
                     empty_store 0 0) as [[out |] |] eqn:Hrun;
    [| by vm_compute in Hrun ..].
  destruct (__call__ Z script_index script_uniform script_elapsed 0 script_tape
                     script_clock pack_heavier_below 10 (self_after demo_solver out) 4
                     (1, 2) (out_store out) (out_pos out) (out_tick out))
    as [[out2 |] |] eqn:Hrun2.
  2,3: vm_compute in Hrun; injection Hrun as <-; by vm_compute in Hrun2.
  destruct (history_accumulates Z script_index script_uniform script_elapsed 0
              script_tape script_clock pack_heavier_below demo_solver 3 (1, 2)
              10%nat empty_store 0%nat 0%nat out Hrun)
    as (seed & st' & pos' & seedcost & runs & new & _ & _ & Hb & _ & Hnew & Hn & Hh
        & Hlen & _ & Hnext).
  destruct (Hnext 4 (1, 2) 10%nat (out_store out) (out_pos out) (out_tick out) out2 Hrun2)
    as (seedcost2 & runs2 & new2 & Hb2 & Hnew2 & Hn2 & Hh2 & Hlen2).
  assert (Hiter : out_iterations out = 2%nat).
  { pose proof Hrun as Hv. vm_compute in Hv. by injection Hv as <-. }
  assert (Hiter2 : out_iterations out2 = 3%nat).
  { pose proof Hrun as Hv. vm_compute in Hv. injection Hv as <-.
    pose proof Hrun2 as Hv2. vm_compute in Hv2. by injection Hv2 as <-. }
  exists out, out2, seedcost, runs, new, seedcost2, runs2, new2.
  split; [reflexivity |]. split; [exact Hrun2 |]. split; [exact Hb |].
  split; [exact Hnew |]. split; [exact Hn |]. split; [exact Hiter |].
  split; [exact Hh |]. split; [exact Hlen |]. split; [exact Hb2 |].
  split; [exact Hnew2 |]. split; [exact Hn2 |]. split; [exact Hiter2 |].
  split; [exact Hh2 | exact Hlen2].
Defined.

(** Draws of 1/8 with a bias of 1/2, in doubles, and the oracle that
    always succeeds. *)
Lemma heuristic_returns_witness :
  solver_wf demo_solver ∧ store_wf empty_store ∧
  (∀ k, (0 ≤ k < 0 + length (self_edges demo_solver))%nat →
        is_Ok (log_index_F log_table ((λ _ : nat, f_eighth) k) f_half)) ∧
  (∀ o, o ∈ self_orderlines demo_solver → ¬ refused pack_all demo_solver o) ∧
  is_Ok (heuristic double (log_index_F log_table) (λ _, f_eighth) pack_all demo_solver
                   f_half empty_store 0).
Proof.
  assert (Hidx : ∀ k, (0 ≤ k < 0 + length (self_edges demo_solver))%nat →
                      is_Ok (log_index_F log_table ((λ _ : nat, f_eighth) k) f_half))
    by (intros k _; by exists 3).
  assert (Hnr : ∀ o, o ∈ self_orderlines demo_solver → ¬ refused pack_all demo_solver o)
    by (intros o _; discriminate).
  split; [exact demo_solver_wf |]. split; [exact empty_store_wf |].
  split; [exact Hidx |]. split; [exact Hnr |].
  exact (proj1 (heuristic_returns double (log_index_F log_table) (λ _, f_eighth) pack_all
                  demo_solver f_half empty_store 0 demo_solver_wf empty_store_wf Hidx)
               Hnr).
Defined.
